(** * OrderApp: the ordering routine and the domain model

    A shallow embedding of [utils_sort.py] and [models.py].

    - [PyList] models Python list objects as addresses into a store, so
      that aliasing and in-place mutation ([result.reverse()]) are visible.
    - [UtilsSort] embeds [quicksort_orders] over that store, next to the
      value-level algorithm of the specification ([sort_orders]).
    - [Regex] gives the two contact patterns a matcher with a declarative
      semantics.
    - [Models] embeds [Product], [Person]/[Customer], [OrderItem] and
      [Order] over an object heap with exceptions; [ModelsRest] adds the
      remaining methods and the calls of a client.
    - [Gui] embeds the three handlers of the form of [gui.py]. *)

From Stdlib Require Import ZArith NArith List Bool Lia Permutation.
From Stdlib Require Import Sorting.Sorted.
From Stdlib Require Import Ascii String.
From Stdlib Require Import Floats.SpecFloat.
From stdpp Require Import gmap list sorting.

Set Default Proof Using "Type*".

(** ** Python list objects *)

Module PyList.

Definition loc := positive.

Section store.
Context {A : Type}.

(** A computation over the list store.  [None] stands for a call that
    does not return a value: an [IndexError], a dangling address, or a
    recursion that does not end. *)
Definition St (X : Type) : Type := gmap loc (list A) → option (X * gmap loc (list A)).

Definition ret {X} (x : X) : St X := λ s, Some (x, s).

Definition bind {X Y} (m : St X) (f : X → St Y) : St Y :=
  λ s, match m s with
       | Some (x, s') => f x s'
       | None => None
       end.

Definition fail {X} : St X := λ _, None.

(** A new list object: its address was never used before. *)
Definition alloc (v : list A) : St loc :=
  λ s, let r := fresh (dom s) in Some (r, <[r := v]> s).

Definition read (l : loc) : St (list A) :=
  λ s, match s !! l with Some v => Some (v, s) | None => None end.

(** [len(l)] *)
Definition py_len (l : loc) : St nat :=
  bind (read l) (λ v, ret (length v)).

(** [l[:]] *)
Definition py_slice_all (l : loc) : St loc :=
  bind (read l) alloc.

(** [l[i]] for a non-negative [i]; [IndexError] out of range. *)
Definition py_getitem (l : loc) (i : nat) : St A :=
  bind (read l) (λ v, match v !! i with Some x => ret x | None => fail end).

(** [[o for o in l if p(o)]] *)
Definition py_listcomp (p : A → bool) (l : loc) : St loc :=
  bind (read l) (λ v, alloc (List.filter p v)).

(** [a + b] *)
Definition py_add (a b : loc) : St loc :=
  bind (read a) (λ va, bind (read b) (λ vb, alloc (va ++ vb))).

(** [l.reverse()], in place. *)
Definition py_reverse (l : loc) : St unit :=
  λ s, match s !! l with
       | Some v => Some (tt, <[l := rev v]> s)
       | None => None
       end.

(** [l.append(x)], in place. *)
Definition py_append (l : loc) (x : A) : St unit :=
  λ s, match s !! l with
       | Some v => Some (tt, <[l := v ++ [x]]> s)
       | None => None
       end.
End store.

Arguments St : clear implicits.

End PyList.

Declare Scope pylist_scope.
Delimit Scope pylist_scope with pylist.
Notation "'let!' x ':=' m 'in' f" := (PyList.bind m (λ x, f))
(at level 10, x name, m at level 100, f at level 200,
 format "'[v' 'let!'  x  ':='  m  'in' '/' f ']'") : pylist_scope.
Notation "'do!' m 'in' f" := (PyList.bind m (λ _, f))
(at level 10, m at level 100, f at level 200,
 format "'[v' 'do!'  m  'in' '/' f ']'") : pylist_scope.

(** ** The ordering routine *)

Module UtilsSort.
Import PyList.

(** What "totally ordered keys" asks of Python's [<], [==] and [>] on the
    key type. *)
Record TotalOrder {K : Type} (lt eq gt : K → K → bool) : Prop := {
  eq_spec : ∀ a b, eq a b = true ↔ a = b;
  gt_spec : ∀ a b, gt a b = lt b a;
  lt_irrefl : ∀ a, lt a a = false;
  lt_trans : ∀ a b c, lt a b = true → lt b c = true → lt a c = true;
  lt_total : ∀ a b, lt a b = true ∨ a = b ∨ lt b a = true
}.

Section quicksort.
Context {A K : Type}.
Variable key : A → K.
(** Python's [<], [==] and [>] on keys. *)
Variables key_lt key_eq key_gt : K → K → bool.

Local Open Scope pylist_scope.

(** The body of [quicksort_orders], with the depth of the recursion made
    explicit. *)
Fixpoint quicksort_orders_rec (depth : nat) (orders : loc) (reverse : bool)
  : St A loc :=
  let! n := py_len orders in
  if n <=? 1 then py_slice_all orders
  else match depth with
       | O => fail
       | S depth' =>
         let! pivot := py_getitem orders (n / 2) in
         let pivot_key := key pivot in
         let! less := py_listcomp (λ o, key_lt (key o) pivot_key) orders in
         let! equal := py_listcomp (λ o, key_eq (key o) pivot_key) orders in
         let! greater := py_listcomp (λ o, key_gt (key o) pivot_key) orders in
         let! sorted_less := quicksort_orders_rec depth' less reverse in
         let! left_part := py_add sorted_less equal in
         let! sorted_greater := quicksort_orders_rec depth' greater reverse in
         let! result := py_add left_part sorted_greater in
         do! (if reverse then py_reverse result else ret tt) in
         ret result
       end.

(** [quicksort_orders(orders, key, reverse)].  A recursive call receives
    a filtered copy of its caller's list: a strictly shorter list, or the
    whole list again, and then the recursion never ends.  A recursion that
    ends is therefore at most [len(orders)] deep.  The recursion limit of
    the interpreter is not modelled. *)
Definition quicksort_orders (orders : loc) (reverse : bool) : St A loc :=
  let! n := py_len orders in
  quicksort_orders_rec n orders reverse.

(** The algorithm of the specification (§4.7, steps 1 to 5), on values. *)
Fixpoint sort_orders_rec (depth : nat) (orders : list A) (reverse : bool)
  : option (list A) :=
  if length orders <=? 1 then Some orders
  else match depth with
       | O => None
       | S depth' =>
         match orders !! (length orders / 2) with
         | None => None
         | Some pivot =>
           let pivot_key := key pivot in
           let less := List.filter (λ o, key_lt (key o) pivot_key) orders in
           let equal := List.filter (λ o, key_eq (key o) pivot_key) orders in
           let greater := List.filter (λ o, key_gt (key o) pivot_key) orders in
           match sort_orders_rec depth' less reverse,
                 sort_orders_rec depth' greater reverse with
           | Some sorted_less, Some sorted_greater =>
             let result := sorted_less ++ equal ++ sorted_greater in
             Some (if reverse then rev result else result)
           | _, _ => None
           end
         end
       end.

Definition sort_orders (orders : list A) (reverse : bool) : option (list A) :=
  sort_orders_rec (length orders) orders reverse.

(** Python's [<=] on totally ordered keys. *)
Definition key_le (a b : K) : bool := key_lt a b || key_eq a b.

(** The keys of a sequence never decrease from left to right. *)
Definition nondecreasing (l : list A) : Prop :=
  StronglySorted (λ a b, key_le a b = true) (key <$> l).

(** The elements carrying key [k], in the order they occur. *)
Definition with_key (k : K) (l : list A) : list A :=
  List.filter (λ o, key_eq (key o) k) l.

(** The call [m] returns from store [s] with a value and a final store
    satisfying [Q]. *)
Definition returns {X} (m : St A X) (s : gmap loc (list A))
    (Q : X → gmap loc (list A) → Prop) : Prop :=
  ∃ x s', m s = Some (x, s') ∧ Q x s'.

(** Calling [quicksort_orders] on a list object holding [orders] returns
    a list object holding [result]. *)
Definition sorts_to (orders : list A) (reverse : bool) (result : list A) : Prop :=
  ∀ (s : gmap loc (list A)) (l : loc), s !! l = Some orders →
    returns (quicksort_orders l reverse) s (λ r s', s' !! r = Some result).

End quicksort.

(** Three orders, identified by 0, 1 and 2, created at times 2, 1 and 2. *)
Definition orders_212 : list (nat * Z) := [(0, 2%Z); (1, 1%Z); (2, 2%Z)].

(** Three orders whose keys are the floats [nan], [1.0] and [2.0], and
    the three comparisons of Python on floats. *)
Definition orders_nan : list (nat * spec_float) :=
  [(0, S754_nan);
   (1, S754_finite false 4503599627370496 (-52));
   (2, S754_finite false 4503599627370496 (-51))].

Definition float_lt (a b : spec_float) : bool := SFltb a b.
Definition float_eq (a b : spec_float) : bool := SFeqb a b.
Definition float_gt (a b : spec_float) : bool := SFltb b a.

End UtilsSort.

(** ** Regular expressions of the contact patterns *)

Module Regex.

(** A Python [str] is a sequence of Unicode code points. *)
Definition char := N.
Definition str := list char.

Definition str_of (s : string) : str :=
  (λ a, N_of_ascii a) <$> list_ascii_of_string s.

(** The two predicates of the Unicode character database that [re]
    consults for a [str] pattern: [\w] is [isalnum] or an underscore,
    [\d] is [isdecimal]. *)
Class Unicode := {
  isalnum : char → bool;
  isdecimal : char → bool
}.

(** The ASCII part of the database, for examples. *)
Definition ascii_isdecimal (c : char) : bool :=
  (48 <=? c)%N && (c <=? 57)%N.

Definition ascii_isalnum (c : char) : bool :=
  ascii_isdecimal c ||
  ((65 <=? c)%N && (c <=? 90)%N) ||
  ((97 <=? c)%N && (c <=? 122)%N).

Definition ascii_only : Unicode :=
  {| isalnum := ascii_isalnum; isdecimal := ascii_isdecimal |}.

Inductive set_item :=
| Literal (c : char)
| Category_word
| Category_digit.

Inductive regex :=
| Fail
| Empty
| CharIn (items : list set_item)
| Seq (r1 r2 : regex)
| Branch (r1 r2 : regex)
| Star (r : regex).

Fixpoint power (n : nat) (r : regex) : regex :=
  match n with
  | O => Empty
  | S n' => Seq r (power n' r)
  end.

Fixpoint upto (n : nat) (r : regex) : regex :=
  match n with
  | O => Empty
  | S n' => Branch Empty (Seq r (upto n' r))
  end.

(** [r{lo,hi}]; [hi = None] is unbounded. *)
Definition max_repeat (lo : nat) (hi : option nat) (r : regex) : regex :=
  Seq (power lo r)
      (match hi with
       | None => Star r
       | Some hi => upto (hi - lo) r
       end).

(** [r+] and [r?] *)
Definition plus (r : regex) : regex := max_repeat 1 None r.
Definition optional (r : regex) : regex := max_repeat 0 (Some 1) r.

Definition lit (s : string) : list set_item := Literal <$> str_of s.

(** [EMAIL_RE = re.compile(r"^[\w\.-]+@[\w\.-]+\.\w+$")], between the
    anchors. *)
Definition EMAIL_RE : regex :=
  Seq (plus (CharIn (Category_word :: lit ".-")))
 (Seq (CharIn (lit "@"))
 (Seq (plus (CharIn (Category_word :: lit ".-")))
 (Seq (CharIn (lit "."))
      (plus (CharIn [Category_word]))))).

(** [PHONE_RE = re.compile(r"^\+?\d{7,15}$")], between the anchors. *)
Definition PHONE_RE : regex :=
  Seq (optional (CharIn (lit "+")))
      (max_repeat 7 (Some 15) (CharIn [Category_digit])).

(** What a pattern matches, declaratively. *)
Section semantics.
Context {U : Unicode}.

Definition item_matches (c : char) (i : set_item) : bool :=
  match i with
  | Literal c' => (c =? c')%N
  | Category_word => isalnum c || (c =? 95)%N
  | Category_digit => isdecimal c
  end.

Inductive Matches : regex → str → Prop :=
| MEmpty : Matches Empty []
| MCharIn items c :
    existsb (item_matches c) items = true → Matches (CharIn items) [c]
| MSeq r1 r2 s1 s2 :
    Matches r1 s1 → Matches r2 s2 → Matches (Seq r1 r2) (s1 ++ s2)
| MBranchL r1 r2 s : Matches r1 s → Matches (Branch r1 r2) s
| MBranchR r1 r2 s : Matches r2 s → Matches (Branch r1 r2) s
| MStarNil r : Matches (Star r) []
| MStarApp r s1 s2 :
    Matches r s1 → Matches (Star r) s2 → Matches (Star r) (s1 ++ s2).

Definition newline : char := 10%N.

(** [re.compile("^r$").match(s)] finds a match: [$] stands at the end of
    the string or just before a newline that ends the string. *)
Definition PyMatches (r : regex) (s : str) : Prop :=
  Matches r s ∨ ∃ s', s = s' ++ [newline] ∧ Matches r s'.

(** The matcher. *)
Fixpoint nullable (r : regex) : bool :=
  match r with
  | Fail => false
  | Empty => true
  | CharIn _ => false
  | Seq r1 r2 => nullable r1 && nullable r2
  | Branch r1 r2 => nullable r1 || nullable r2
  | Star _ => true
  end.

Fixpoint deriv (c : char) (r : regex) : regex :=
  match r with
  | Fail => Fail
  | Empty => Fail
  | CharIn items => if existsb (item_matches c) items then Empty else Fail
  | Seq r1 r2 =>
    Branch (Seq (deriv c r1) r2) (if nullable r1 then deriv c r2 else Fail)
  | Branch r1 r2 => Branch (deriv c r1) (deriv c r2)
  | Star r => Seq (deriv c r) (Star r)
  end.

Fixpoint accepts (r : regex) (s : str) : bool :=
  match s with
  | [] => nullable r
  | c :: s' => accepts (deriv c r) s'
  end.

(** Whether [re.compile("^r$").match(s)] is a match object. *)
Definition re_match (r : regex) (s : str) : bool :=
  accepts r s ||
  match rev s with
  | c :: before => (c =? newline)%N && accepts r (rev before)
  | [] => false
  end.

End semantics.
End Regex.

(** ** The domain model *)

Module Models.
Import Regex.

Definition loc := positive.

(** Python's [float] is IEEE 754 binary64. *)
Definition float := spec_float.
Definition prec : Z := 53.
Definition emax : Z := 1024.

(** A [datetime], as microseconds on the time line. *)
Definition datetime := Z.

(** Exceptions.  The first four classes derive from [Exception]; the last
    three derive from [BaseException] only. *)
Inductive exn :=
| ValidationError (msg : str)
| AttributeError
| OverflowError
| OtherException (tag : nat)
| KeyboardInterrupt
| SystemExit
| GeneratorExit.

Definition isinstance_Exception (e : exn) : bool :=
  match e with
  | ValidationError _ | AttributeError | OverflowError | OtherException _ => true
  | KeyboardInterrupt | SystemExit | GeneratorExit => false
  end.

Record Product := {
  name : str;
  price : float;
  sku : option str
}.

Record Person := {
  _name : str;
  _email : option str;
  _phone : option str
}.

Record Customer := {
  person : Person;
  city : option str;
  customer_id : str;
  _orders : list loc
}.

Record OrderItem := {
  product : loc;
  quantity : Z
}.

Record Order := {
  order_id : str;
  customer : loc;
  _items : list loc;
  created_at : datetime
}.

(** An object, described by the attributes it has.  [NewObject] is an
    instance on which [__init__] has not assigned anything yet; a
    [Customer] on which only [Person.__init__] has run has the attributes
    of a [Person]. *)
Inductive object :=
| NewObject
| ProductObj (p : Product)
| PersonObj (p : Person)
| CustomerObj (c : Customer)
| OrderItemObj (i : OrderItem)
| OrderObj (o : Order).

(** The heap, the operating system's random source behind [uuid.uuid4],
    and the clock behind [datetime.utcnow]. *)
Record World := {
  heap : gmap loc object;
  urandom : nat → N;
  urandom_calls : nat;
  clock : nat → datetime;
  clock_reads : nat
}.

Definition with_heap (h : gmap loc object) (w : World) : World :=
  {| heap := h; urandom := urandom w; urandom_calls := urandom_calls w;
     clock := clock w; clock_reads := clock_reads w |}.

Inductive result (X : Type) :=
| Ok (x : X)
| Raise (e : exn).
Arguments Ok {X} x.
Arguments Raise {X} e.

(** A computation: it returns or raises, and leaves a world behind. *)
Definition M (X : Type) : Type := World → result X * World.

Definition ret {X} (x : X) : M X := λ w, (Ok x, w).

Definition raise {X} (e : exn) : M X := λ w, (Raise e, w).

Definition bind {X Y} (m : M X) (f : X → M Y) : M Y :=
  λ w, match m w with
       | (Ok x, w') => f x w'
       | (Raise e, w') => (Raise e, w')
       end.

(** [try: body / except Exception: handler] *)
Definition try_except_Exception (body handler : M unit) : M unit :=
  λ w, match body w with
       | (Ok x, w') => (Ok x, w')
       | (Raise e, w') =>
         if isinstance_Exception e then handler w' else (Raise e, w')
       end.

(** [object.__new__] *)
Definition new_object : M loc :=
  λ w, let self := fresh (dom (heap w)) in
       (Ok self, with_heap (<[self := NewObject]> (heap w)) w).

Definition put (self : loc) (o : object) : M unit :=
  λ w, (Ok tt, with_heap (<[self := o]> (heap w)) w).

Definition get_Product (self : loc) : M Product :=
  λ w, match heap w !! self with
       | Some (ProductObj p) => (Ok p, w)
       | _ => (Raise AttributeError, w)
       end.

Definition get_Person (self : loc) : M Person :=
  λ w, match heap w !! self with
       | Some (PersonObj p) => (Ok p, w)
       | Some (CustomerObj c) => (Ok (person c), w)
       | _ => (Raise AttributeError, w)
       end.

Definition get_Customer (self : loc) : M Customer :=
  λ w, match heap w !! self with
       | Some (CustomerObj c) => (Ok c, w)
       | _ => (Raise AttributeError, w)
       end.

Definition get_OrderItem (self : loc) : M OrderItem :=
  λ w, match heap w !! self with
       | Some (OrderItemObj i) => (Ok i, w)
       | _ => (Raise AttributeError, w)
       end.

Definition get_Order (self : loc) : M Order :=
  λ w, match heap w !! self with
       | Some (OrderObj o) => (Ok o, w)
       | _ => (Raise AttributeError, w)
       end.

(** Assignment to the attributes of the [Person] part of an object. *)
Definition put_Person (self : loc) (p : Person) : M unit :=
  λ w, match heap w !! self with
       | Some (CustomerObj c) =>
         put self (CustomerObj {| person := p; city := city c;
                                  customer_id := customer_id c;
                                  _orders := _orders c |}) w
       | _ => put self (PersonObj p) w
       end.

(** Truth value of an optional string: [None] and [""] are false. *)
Definition truthy (v : option str) : bool :=
  match v with
  | Some (_ :: _) => true
  | _ => false
  end.

(** *** Identity generator *)

(** [uuid.UUID(bytes=..., version=4).int] for the 16 random bytes read as
    a big-endian number. *)
Definition uuid4_int (random : N) : N :=
  let int := (random mod 2 ^ 128)%N in
  let int := N.ldiff int (N.shiftl 0xc000 48) in
  let int := N.lor int (N.shiftl 0x8000 48) in
  let int := N.ldiff int (N.shiftl 0xf000 64) in
  N.lor int (N.shiftl 4 76).

Definition hex_digit (d : N) : char :=
  if (d <? 10)%N then (48 + d)%N else (87 + d)%N.

(** ['%0<width>x' % v] for [v] below [16 ^ width]. *)
Fixpoint hex (width : nat) (v : N) : str :=
  match width with
  | O => []
  | S width' => hex width' (v / 16)%N ++ [hex_digit (v mod 16)%N]
  end.

(** [uuid.uuid4().hex] *)
Definition _generate_id : M str :=
  λ w, (Ok (hex 32 (uuid4_int (urandom w (urandom_calls w)))),
        {| heap := heap w; urandom := urandom w;
           urandom_calls := S (urandom_calls w);
           clock := clock w; clock_reads := clock_reads w |}).

(** [datetime.utcnow()] *)
Definition utcnow : M datetime :=
  λ w, (Ok (clock w (clock_reads w)),
        {| heap := heap w; urandom := urandom w;
           urandom_calls := urandom_calls w;
           clock := clock w; clock_reads := S (clock_reads w) |}).

(** *** Arithmetic *)

(** Conversion of an [int] operand to [float]: nearest, ties to even;
    [None] when the magnitude is out of range. *)
Definition float_of_int (n : Z) : option float :=
  match binary_normalize prec emax n 0 false with
  | S754_infinity _ => None
  | f => Some f
  end.

(** [x * n] for a float [x] and an int [n] *)
Definition float_mul_int (x : float) (n : Z) : M float :=
  match float_of_int n with
  | Some y => ret (SFmul prec emax x y)
  | None => raise OverflowError
  end.

Declare Scope models_scope.
Delimit Scope models_scope with models.
Notation "'let!' x ':=' m 'in' f" := (bind m (λ x, f))
  (at level 10, x name, m at level 100, f at level 200,
   format "'[v' 'let!'  x  ':='  m  'in' '/' f ']'") : models_scope.
Notation "'do!' m 'in' f" := (bind m (λ _, f))
  (at level 10, m at level 100, f at level 200,
   format "'[v' 'do!'  m  'in' '/' f ']'") : models_scope.
Local Open Scope models_scope.

(** *** Product *)

(** [Product.__post_init__] *)
Definition Product_post_init (self : loc) : M unit :=
  let! p := get_Product self in
  if SFltb (price p) (S754_zero false)
  then raise (ValidationError (str_of "Price cannot be negative"))
  else if negb (truthy (sku p))
  then let! id := _generate_id in
       put self (ProductObj {| name := name p; price := price p; sku := Some id |})
  else ret tt.

(** [Product(name, price, sku)]: the generated [__init__] assigns the
    fields and calls [__post_init__]. *)
Definition Product_new (name : str) (price : float) (sku : option str) : M loc :=
  let! self := new_object in
  do! put self (ProductObj {| name := name; price := price; sku := sku |}) in
  do! Product_post_init self in
  ret self.

(** [product.price = value] *)
Definition Product_set_price (self : loc) (value : float) : M unit :=
  let! p := get_Product self in
  put self (ProductObj {| name := name p; price := value; sku := sku p |}).

(** *** Person and Customer *)

Section person.
Context {U : Unicode}.

(** The setter of the property [Person.email] *)
Definition Person_email_setter (self : loc) (value : str) : M unit :=
  if negb (re_match EMAIL_RE value)
  then raise (ValidationError (str_of "Invalid email: " ++ value))
  else let! p := get_Person self in
       put_Person self {| _name := _name p; _email := Some value;
                          _phone := _phone p |}.

(** The setter of the property [Person.phone] *)
Definition Person_phone_setter (self : loc) (value : str) : M unit :=
  if negb (re_match PHONE_RE value)
  then raise (ValidationError (str_of "Invalid phone number: " ++ value))
  else let! p := get_Person self in
       put_Person self {| _name := _name p; _email := _email p;
                          _phone := Some value |}.

(** The getters of the two properties *)
Definition Person_email (self : loc) : M (option str) :=
  let! p := get_Person self in ret (_email p).

Definition Person_phone (self : loc) : M (option str) :=
  let! p := get_Person self in ret (_phone p).

(** [Person.__init__] *)
Definition Person_init (self : loc) (name : str) (email phone : option str)
  : M unit :=
  do! put self (PersonObj {| _name := name; _email := None; _phone := None |}) in
  do! match email with
      | Some (c :: value) => Person_email_setter self (c :: value)
      | _ => ret tt
      end in
  match phone with
  | Some (c :: value) => Person_phone_setter self (c :: value)
  | _ => ret tt
  end.

(** [Person(name, email, phone)] *)
Definition Person_new (name : str) (email phone : option str) : M loc :=
  let! self := new_object in
  do! Person_init self name email phone in
  ret self.

(** [Customer.__init__] *)
Definition Customer_init (self : loc) (name : str) (email phone city : option str)
    (customer_id : option str) : M unit :=
  do! Person_init self name email phone in
  let! id := match customer_id with
             | Some (c :: id) => ret (c :: id)
             | _ => _generate_id
             end in
  let! p := get_Person self in
  put self (CustomerObj {| person := p; city := city; customer_id := id;
                           _orders := [] |}).

(** [Customer(name, email, phone, city, customer_id)] *)
Definition Customer_new (name : str) (email phone city : option str)
    (customer_id : option str) : M loc :=
  let! self := new_object in
  do! Customer_init self name email phone city customer_id in
  ret self.

End person.

(** [Customer.add_order] *)
Definition Customer_add_order (self order : loc) : M unit :=
  let! c := get_Customer self in
  put self (CustomerObj {| person := person c; city := city c;
                           customer_id := customer_id c;
                           _orders := _orders c ++ [order] |}).

(** [Customer.orders]: a copy of the list. *)
Definition Customer_orders (self : loc) : M (list loc) :=
  let! c := get_Customer self in ret (_orders c).

(** *** OrderItem *)

(** [OrderItem.__post_init__] *)
Definition OrderItem_post_init (self : loc) : M unit :=
  let! i := get_OrderItem self in
  if (quantity i <=? 0)%Z
  then raise (ValidationError (str_of "Quantity must be > 0"))
  else ret tt.

(** [OrderItem(product, quantity)] *)
Definition OrderItem_new (product : loc) (quantity : Z) : M loc :=
  let! self := new_object in
  do! put self (OrderItemObj {| product := product; quantity := quantity |}) in
  do! OrderItem_post_init self in
  ret self.

(** [OrderItem.cost] *)
Definition OrderItem_cost (self : loc) : M float :=
  let! i := get_OrderItem self in
  let! p := get_Product (product i) in
  float_mul_int (price p) (quantity i).

(** *** Order *)

Section order.
(** The method that [customer.add_order] resolves to on the class of the
    customer passed in; [Customer_add_order] for a [Customer]. *)
Variable add_order : loc → loc → M unit.

(** [Order.__init__] *)
Definition Order_init (self customer : loc) (items : option (list loc))
    (created_at : option datetime) (order_id : option str) : M unit :=
  let! id := match order_id with
             | Some (c :: id) => ret (c :: id)
             | _ => _generate_id
             end in
  let items := match items with
               | Some (i :: items) => i :: items
               | _ => []
               end in
  let! created := match created_at with
                  | Some t => ret t
                  | None => utcnow
                  end in
  do! put self (OrderObj {| order_id := id; customer := customer;
                            _items := items; created_at := created |}) in
  try_except_Exception (add_order customer self) (ret tt).

(** [Order(customer, items, created_at, order_id)] *)
Definition Order_new (customer : loc) (items : option (list loc))
    (created_at : option datetime) (order_id : option str) : M loc :=
  let! self := new_object in
  do! Order_init self customer items created_at order_id in
  ret self.

End order.

(** *** Vocabulary of the statements *)

(** What an optional string argument leaves behind when a false value is
    treated as absent. *)
Definition supplied (v : option str) : option str :=
  if truthy v then v else None.

(** [v or _generate_id()], evaluated in world [w]. *)
Definition or_generated (v : option str) (w : World) : str :=
  match v with
  | Some (c :: s) => c :: s
  | _ => hex 32 (uuid4_int (urandom w (urandom_calls w)))
  end.

(** An optional contact argument that the constructor lets through: a
    false value, or a string the pattern matches. *)
Definition acceptable {U : Unicode} (r : regex) (v : option str) : Prop :=
  match v with
  | Some (c :: s) => PyMatches r (c :: s)
  | _ => True
  end.

(** The world in which [Person.__init__] runs its two conditional
    assignments. *)
Definition after_base_assignments (name : str) (w : World) : World :=
  with_heap (<[fresh (dom (heap w)) :=
                 PersonObj {| _name := name; _email := None; _phone := None |}]>
               (heap w)) w.

(** [created_at or datetime.utcnow()], evaluated in world [w]. *)
Definition or_now (created_at : option datetime) (w : World) : datetime :=
  match created_at with
  | Some t => t
  | None => clock w (clock_reads w)
  end.

(** The attributes that [Order.__init__] assigns. *)
Definition new_order (customer : loc) (items : option (list loc))
    (created_at : option datetime) (order_id : option str) (w : World) : Order :=
  {| order_id := or_generated order_id w;
     customer := customer;
     _items := match items with
               | Some (i :: items) => i :: items
               | _ => []
               end;
     created_at := or_now created_at w |}.

(** The world in which [Order.__init__] attempts the registration. *)
Definition before_registration (customer : loc) (items : option (list loc))
    (created_at : option datetime) (order_id : option str) (w : World) : World :=
  {| heap := <[fresh (dom (heap w)) :=
                 OrderObj (new_order customer items created_at order_id w)]>
               (heap w);
     urandom := urandom w;
     urandom_calls := if truthy order_id then urandom_calls w
                      else S (urandom_calls w);
     clock := clock w;
     clock_reads := match created_at with
                    | Some _ => clock_reads w
                    | None => S (clock_reads w)
                    end |}.

(** A world with an empty heap. *)
Definition empty_world : World :=
  {| heap := ∅; urandom := λ _, 0%N; urandom_calls := 0;
     clock := λ _, 0%Z; clock_reads := 0 |}.

(** *** Values of the unit tests *)

(** [Customer(name="Ivan")] in the empty world; the customer is object 1. *)
Definition ivan_world : World :=
  snd (Customer_new (U := ascii_only) (str_of "Ivan") None None None None
         empty_world).

Definition ivan : Person :=
  {| _name := str_of "Ivan"; _email := None; _phone := None |}.

(** The floats [-1.0], [10.0] and [20.0]. *)
Definition minus_one : float := S754_finite true 4503599627370496 (-52).
Definition ten : float := S754_finite false 5629499534213120 (-49).
Definition twenty : float := S754_finite false 5629499534213120 (-48).
Definition forty : float := S754_finite false 5629499534213120 (-47).

(** [Product(name="Widget", price=10.0)] in the empty world; the product
    is object 1. *)
Definition widget_world : World :=
  snd (Product_new (str_of "Widget") ten None empty_world).

(** [Person(name="Ivan")] in the empty world; the person is object 1 and
    has no [add_order]. *)
Definition person_world : World :=
  snd (Person_new (U := ascii_only) (str_of "Ivan") None None empty_world).

(** A customer whose [add_order] is interrupted from the keyboard. *)
Definition interrupted_add_order (self order : loc) : M unit :=
  raise KeyboardInterrupt.

(** [test_order_and_items]: the customer's orders, the order, and the
    cost of its item. *)
Definition order_and_items : M (list loc * loc * float) :=
  let! c := Customer_new (U := ascii_only) (str_of "Ann")
              (Some (str_of "a@example.com")) (Some (str_of "+1234567890"))
              None None in
  let! p := Product_new (str_of "Widget") ten None in
  let! item := OrderItem_new p 2 in
  let! o := Order_new Customer_add_order c (Some [item]) None None in
  let! orders := Customer_orders c in
  let! cost := OrderItem_cost item in
  ret (orders, o, cost).

End Models.

(** ** The contact patterns in plain terms *)

Module ContactShapes.
Import Regex.

Section shapes.
Context {U : Unicode}.

(** [\w] *)
Definition is_word (c : char) : bool := isalnum c || (c =? 95)%N.

(** [[\w\.-]] *)
Definition is_word_dot_hyphen (c : char) : bool :=
  is_word c || (c =? 46)%N || (c =? 45)%N.

(** One or more word, dot or hyphen characters, an at sign, one or more
    word, dot or hyphen characters, a dot, one or more word characters. *)
Definition email_shape (s : str) : Prop :=
  ∃ local domain tld,
    s = local ++ [64%N] ++ domain ++ [46%N] ++ tld ∧
    local ≠ [] ∧ Forall (λ c, is_word_dot_hyphen c = true) local ∧
    domain ≠ [] ∧ Forall (λ c, is_word_dot_hyphen c = true) domain ∧
    tld ≠ [] ∧ Forall (λ c, is_word c = true) tld.

(** An optional plus sign followed by 7 to 15 decimal digits. *)
Definition phone_shape (s : str) : Prop :=
  ∃ sign digits,
    s = sign ++ digits ∧
    (sign = [] ∨ sign = [43%N]) ∧
    Forall (λ c, isdecimal c = true) digits ∧
    7 ≤ length digits ≤ 15.

(** The shape, possibly followed by one newline. *)
Definition up_to_final_newline (shape : str → Prop) (s : str) : Prop :=
  shape s ∨ ∃ s', s = s' ++ [newline] ∧ shape s'.

End shapes.
End ContactShapes.

(** ** The rest of the domain model *)

Module ModelsRest.
Import Regex Models.
Local Open Scope models_scope.

(** What [total_cost] and [total_spent] return: the int [0] of an empty
    sum, or a float. *)
Inductive total :=
| Zero
| Float (x : float).

(** The builtin [sum] adds the first float to the int [0] it starts from;
    how it accumulates the items that follow a float differs between
    interpreter versions (plain addition from left to right before 3.12,
    compensated summation since), so that part is a parameter: the float
    reached so far and the items still to come give the float returned. *)
Class Builtins := {
  sum_tail : float → list total → float
}.

(** The accumulation of the interpreters before 3.12: each item is added
    to the float reached so far, an int after conversion to float. *)
Definition plain_sum : Builtins :=
  {| sum_tail := λ first rest,
       foldl (λ acc t, SFadd prec emax acc
                         match t with
                         | Zero => S754_zero false
                         | Float x => x
                         end) first rest |}.

(** [str(n)] for a non-negative int *)
Fixpoint uint_digits (d : Decimal.uint) : str :=
  match d with
  | Decimal.Nil => []
  | Decimal.D0 d => 48%N :: uint_digits d
  | Decimal.D1 d => 49%N :: uint_digits d
  | Decimal.D2 d => 50%N :: uint_digits d
  | Decimal.D3 d => 51%N :: uint_digits d
  | Decimal.D4 d => 52%N :: uint_digits d
  | Decimal.D5 d => 53%N :: uint_digits d
  | Decimal.D6 d => 54%N :: uint_digits d
  | Decimal.D7 d => 55%N :: uint_digits d
  | Decimal.D8 d => 56%N :: uint_digits d
  | Decimal.D9 d => 57%N :: uint_digits d
  end.

Definition decimal (n : nat) : str := uint_digits (Nat.to_uint n).

(** The em dash of the summaries. *)
Definition em_dash : char := 8212%N.

(** [v or '—'] *)
Definition or_dash (v : option str) : str :=
  match v with
  | Some (c :: s) => c :: s
  | _ => [em_dash]
  end.

(** A list comprehension or generator over a list: the calls are made
    from left to right and the first exception ends the iteration. *)
Fixpoint for_each {X Y} (f : X → M Y) (l : list X) : M (list Y) :=
  match l with
  | [] => ret []
  | x :: l' =>
    let! y := f x in
    let! ys := for_each f l' in
    ret (y :: ys)
  end.

Section rest.
Context {B : Builtins}.

(** [sum(items)] for items that are the int [0] or floats *)
Fixpoint py_sum (items : list total) : total :=
  match items with
  | [] => Zero
  | Zero :: rest => py_sum rest
  | Float x :: rest =>
    let first := SFadd prec emax (S754_zero false) x in
    match rest with
    | [] => Float first
    | _ => Float (sum_tail first rest)
    end
  end.

(** The getter of the property [Person.name] *)
Definition Person_name (self : loc) : M str :=
  let! p := get_Person self in ret (_name p).

(** [Person.contact_summary] *)
Definition Person_contact_summary (self : loc) : M str :=
  let! p := get_Person self in
  ret (_name p ++ str_of " | email: " ++ or_dash (_email p) ++
       str_of " | phone: " ++ or_dash (_phone p)).

(** [Customer.contact_summary]; the last field is
    [super().contact_summary()]. *)
Definition Customer_contact_summary (self : loc) : M str :=
  let! c := get_Customer self in
  let! base := Person_contact_summary self in
  ret (_name (person c) ++ str_of " (" ++ customer_id c ++ str_of ") " ++
       [em_dash] ++ str_of " orders: " ++ decimal (length (_orders c)) ++
       str_of " " ++ [em_dash] ++ str_of " " ++ base).

(** [obj.contact_summary()], resolved on the class of the object. *)
Definition contact_summary (self : loc) : M str :=
  λ w, match heap w !! self with
       | Some (CustomerObj _) => Customer_contact_summary self w
       | Some (PersonObj _) => Person_contact_summary self w
       | _ => (Raise AttributeError, w)
       end.

(** [Order.add_item] *)
Definition Order_add_item (self item : loc) : M unit :=
  let! o := get_Order self in
  put self (OrderObj {| order_id := order_id o; customer := customer o;
                        _items := _items o ++ [item];
                        created_at := created_at o |}).

(** [Order.items]: a copy of the list. *)
Definition Order_items (self : loc) : M (list loc) :=
  let! o := get_Order self in ret (_items o).

(** [Order.total_cost] *)
Definition Order_total_cost (self : loc) : M total :=
  let! o := get_Order self in
  let! costs := for_each OrderItem_cost (_items o) in
  ret (py_sum (Float <$> costs)).

(** [Customer.total_spent] *)
Definition Customer_total_spent (self : loc) : M total :=
  let! c := get_Customer self in
  let! totals := for_each Order_total_cost (_orders c) in
  ret (py_sum totals).

End rest.

(** The computation leaves the world as it found it. *)
Definition reads {X} (m : M X) : Prop := ∀ w, snd (m w) = w.

(** *** Clients of the model *)

(** A call that a client of the classes can make. *)
Inductive call :=
| NewPerson (name : str) (email phone : option str)
| NewCustomer (name : str) (email phone city customer_id : option str)
| SetEmail (self : loc) (value : str)
| SetPhone (self : loc) (value : str)
| AddOrder (self order : loc)
| NewProduct (name : str) (price : float) (sku : option str)
| NewOrderItem (product : loc) (quantity : Z)
| NewOrder (customer : loc) (items : option (list loc))
    (created_at : option datetime) (order_id : option str)
| AddItem (self item : loc)
| GetOrders (self : loc)
| GetItems (self : loc)
| GetCost (self : loc)
| GetTotalCost (self : loc)
| GetTotalSpent (self : loc)
| GetContactSummary (self : loc).

Section clients.
Context {U : Unicode} {B : Builtins}.

(** The world after a call, whether it returned or raised. *)
Definition exec (c : call) (w : World) : World :=
  match c with
  | NewPerson name email phone => snd (Person_new name email phone w)
  | NewCustomer name email phone city customer_id =>
    snd (Customer_new name email phone city customer_id w)
  | SetEmail self value => snd (Person_email_setter self value w)
  | SetPhone self value => snd (Person_phone_setter self value w)
  | AddOrder self order => snd (Customer_add_order self order w)
  | NewProduct name price sku => snd (Product_new name price sku w)
  | NewOrderItem product quantity => snd (OrderItem_new product quantity w)
  | NewOrder customer items created_at order_id =>
    snd (Order_new Customer_add_order customer items created_at order_id w)
  | AddItem self item => snd (Order_add_item self item w)
  | GetOrders self => snd (Customer_orders self w)
  | GetItems self => snd (Order_items self w)
  | GetCost self => snd (OrderItem_cost self w)
  | GetTotalCost self => snd (Order_total_cost self w)
  | GetTotalSpent self => snd (Customer_total_spent self w)
  | GetContactSummary self => snd (contact_summary self w)
  end.

Definition exec_all (calls : list call) (w : World) : World :=
  foldl (λ w c, exec c w) w calls.

(** The stored contacts of a person match their patterns. *)
Definition contacts_ok (p : Person) : Prop :=
  (∀ e, _email p = Some e → PyMatches EMAIL_RE e) ∧
  (∀ n, _phone p = Some n → PyMatches PHONE_RE n).

Definition object_ok (o : object) : Prop :=
  match o with
  | PersonObj p => contacts_ok p
  | CustomerObj c => contacts_ok (person c) ∧ customer_id c ≠ []
  | OrderObj o => order_id o ≠ []
  | _ => True
  end.

(** Every object of the heap is well formed. *)
Definition heap_ok (w : World) : Prop :=
  ∀ l o, heap w !! l = Some o → object_ok o.

(** How an object may differ after a call: names, identifiers, city,
    customer, creation time, products, prices and quantities stay, and
    the lists of orders and items keep what they had in front. *)
Definition grows (o o' : object) : Prop :=
  match o, o' with
  | NewObject, NewObject => True
  | ProductObj p, ProductObj p' => p' = p
  | OrderItemObj i, OrderItemObj i' => i' = i
  | PersonObj p, PersonObj p' => _name p' = _name p
  | CustomerObj c, CustomerObj c' =>
    _name (person c') = _name (person c) ∧ city c' = city c ∧
    customer_id c' = customer_id c ∧ _orders c `prefix_of` _orders c'
  | OrderObj o, OrderObj o' =>
    order_id o' = order_id o ∧ customer o' = customer o ∧
    created_at o' = created_at o ∧ _items o `prefix_of` _items o'
  | _, _ => False
  end.

(** Every object of [w] is still there in [w'], grown. *)
Definition evolves (w w' : World) : Prop :=
  ∀ l o, heap w !! l = Some o → ∃ o', heap w' !! l = Some o' ∧ grows o o'.

(** What a call does to the heap: nothing, a well-formed object at an
    unused address, a grown object in place of an old one, or several of
    these in a row. *)
Inductive effect : World → World → Prop :=
| effect_none w w' : heap w' = heap w → effect w w'
| effect_new w w' l o :
    heap w !! l = None → object_ok o → heap w' = <[l := o]> (heap w) →
    effect w w'
| effect_update w w' l o o' :
    heap w !! l = Some o → grows o o' → (object_ok o → object_ok o') →
    heap w' = <[l := o']> (heap w) → effect w w'
| effect_seq w w1 w' : effect w w1 → effect w1 w' → effect w w'.

End clients.

(** The line of [Person.contact_summary] for given attributes. *)
Definition person_line (p : Person) : str :=
  _name p ++ str_of " | email: " ++ or_dash (_email p) ++
  str_of " | phone: " ++ or_dash (_phone p).

(** What [Customer.contact_summary] puts in front of that line. *)
Definition customer_prefix (c : Customer) (orders : nat) : str :=
  _name (person c) ++ str_of " (" ++ customer_id c ++ str_of ") " ++
  [em_dash] ++ str_of " orders: " ++ decimal orders ++
  str_of " " ++ [em_dash] ++ str_of " ".

(** A shop for examples: customer 1 has order 4, whose one item 3 is
    two of product 2 at 10.0; customer 5 has the empty order 6. *)
Definition ann : Customer :=
  {| person := {| _name := str_of "Ann"; _email := Some (str_of "a@example.com");
                  _phone := None |};
     city := None; customer_id := str_of "c1"; _orders := [4%positive] |}.

Definition bob : Customer :=
  {| person := {| _name := str_of "Bob"; _email := None; _phone := None |};
     city := None; customer_id := str_of "c5"; _orders := [6%positive] |}.

Definition widget : Product :=
  {| name := str_of "Widget"; price := ten; sku := Some (str_of "p2") |}.

Definition two_widgets : OrderItem :=
  {| product := 2%positive; quantity := 2%Z |}.

Definition order_4 : Order :=
  {| order_id := str_of "o4"; customer := 1%positive;
     _items := [3%positive]; created_at := 0%Z |}.

Definition order_6 : Order :=
  {| order_id := str_of "o6"; customer := 5%positive;
     _items := []; created_at := 0%Z |}.

Definition shop_world : World :=
  {| heap := list_to_map
       [(1%positive, CustomerObj ann); (2%positive, ProductObj widget);
        (3%positive, OrderItemObj two_widgets); (4%positive, OrderObj order_4);
        (5%positive, CustomerObj bob); (6%positive, OrderObj order_6)];
     urandom := λ _, 0%N; urandom_calls := 0;
     clock := λ _, 0%Z; clock_reads := 0 |}.

(** Calls of a client, for examples: a customer with a wrong and then a
    right email, and an order. *)
Definition sample_calls : list call :=
  [NewCustomer (str_of "Ann") (Some (str_of "a@example.com")) None None None;
   SetEmail 1%positive (str_of "not-an-email");
   SetEmail 1%positive (str_of "ann@example.org");
   NewProduct (str_of "Widget") ten None;
   NewOrderItem 2%positive 2%Z;
   NewOrder 1%positive (Some [3%positive]) None None;
   GetTotalCost 4%positive].

(** The world after these calls. *)
Definition sample_world : World :=
  exec_all (U := ascii_only) (B := plain_sum) sample_calls empty_world.

End ModelsRest.

(** ** The handlers of the form *)

(** [gui.py]: the three button handlers of [App].  The widgets are taken
    to work: reading an entry field, inserting a line at the end of a
    list box and showing a dialog return, so an entry field is the string
    the handler reads from it, a list box is the list of its lines, and
    the dialogs are recorded in the order in which they are shown. *)

Module Gui.
Import Regex Models ModelsRest.

(** A call of [messagebox]. *)
Inductive dialog :=
| showinfo (title message : str)
| showerror (title message : str).

(** The state of [App]: the three registries, the lines of the three
    list boxes, and the dialogs shown so far.  The keys of [products] are
    the [sku] attributes, which have type [Optional[str]]. *)
Record App := {
  customers : gmap (list N) loc;
  products : gmap (option (list N)) loc;
  orders : gmap (list N) loc;
  customers_list : list str;
  products_list : list str;
  orders_list : list str;
  dialogs : list dialog
}.

Definition empty_app : App :=
  {| customers := ∅; products := ∅; orders := ∅; customers_list := [];
     products_list := []; orders_list := []; dialogs := [] |}.

(** What the handlers take from the interpreter: the white space that
    [str.strip] removes, [float(s)] and [int(s)] on a string ([None] for a
    [ValueError]), the format [.2f] of a float, and [str(exc)] for an
    exception that carries no message in this model. *)
Class Toolkit := {
  isspace : char → bool;
  float_of_str : str → option float;
  int_of_str : str → option Z;
  format_2f : float → str;
  exn_text : exn → str
}.

(** A computation of a handler: over the [App] and the world. *)
Definition G (X : Type) : Type := App * World → result X * (App * World).

Definition g_ret {X} (x : X) : G X := λ s, (Ok x, s).

Definition g_bind {X Y} (m : G X) (f : X → G Y) : G Y :=
  λ s, match m s with
       | (Ok x, s') => f x s'
       | (Raise e, s') => (Raise e, s')
       end.

(** A call into the model. *)
Definition lift {X} (m : M X) : G X :=
  λ s, match m (snd s) with
       | (r, w') => (r, (fst s, w'))
       end.

Definition read_app : G App := λ s, (Ok (fst s), s).

Definition modify (f : App → App) : G unit :=
  λ s, (Ok tt, (f (fst s), snd s)).

(** [try: body / except ValidationError as exc: ... / except Exception as
    exc: ...], the two clauses being told apart by the handler. *)
Definition try_catch {X} (body : G X) (handler : exn → G X) : G X :=
  λ s, match body s with
       | (Ok x, s') => (Ok x, s')
       | (Raise e, s') =>
         if isinstance_Exception e then handler e s' else (Raise e, s')
       end.

Declare Scope gui_scope.
Delimit Scope gui_scope with gui.
Notation "'let!' x ':=' m 'in' f" := (g_bind m (λ x, f))
  (at level 10, x name, m at level 100, f at level 200,
   format "'[v' 'let!'  x  ':='  m  'in' '/' f ']'") : gui_scope.
Notation "'do!' m 'in' f" := (g_bind m (λ _, f))
  (at level 10, m at level 100, f at level 200,
   format "'[v' 'do!'  m  'in' '/' f ']'") : gui_scope.
Local Open Scope gui_scope.

(** Assignments to the attributes of [App] and calls of its widgets. *)
Definition register_customer (id : str) (cust : loc) (app : App) : App :=
  {| customers := <[id := cust]> (customers app); products := products app;
     orders := orders app; customers_list := customers_list app;
     products_list := products_list app; orders_list := orders_list app;
     dialogs := dialogs app |}.

Definition register_product (sku : option str) (prod : loc) (app : App) : App :=
  {| customers := customers app; products := <[sku := prod]> (products app);
     orders := orders app; customers_list := customers_list app;
     products_list := products_list app; orders_list := orders_list app;
     dialogs := dialogs app |}.

Definition register_order (id : str) (order : loc) (app : App) : App :=
  {| customers := customers app; products := products app;
     orders := <[id := order]> (orders app);
     customers_list := customers_list app;
     products_list := products_list app; orders_list := orders_list app;
     dialogs := dialogs app |}.

Definition insert_customer_line (line : str) (app : App) : App :=
  {| customers := customers app; products := products app;
     orders := orders app; customers_list := customers_list app ++ [line];
     products_list := products_list app; orders_list := orders_list app;
     dialogs := dialogs app |}.

Definition insert_product_line (line : str) (app : App) : App :=
  {| customers := customers app; products := products app;
     orders := orders app; customers_list := customers_list app;
     products_list := products_list app ++ [line];
     orders_list := orders_list app; dialogs := dialogs app |}.

Definition insert_order_line (line : str) (app : App) : App :=
  {| customers := customers app; products := products app;
     orders := orders app; customers_list := customers_list app;
     products_list := products_list app;
     orders_list := orders_list app ++ [line]; dialogs := dialogs app |}.

Definition show (d : dialog) (app : App) : App :=
  {| customers := customers app; products := products app;
     orders := orders app; customers_list := customers_list app;
     products_list := products_list app; orders_list := orders_list app;
     dialogs := dialogs app ++ [d] |}.

Section handlers.
Context {U : Unicode} {B : Builtins} {T : Toolkit}.

(** [s.strip()] *)
Fixpoint lstrip (s : str) : str :=
  match s with
  | [] => []
  | c :: s' => if isspace c then lstrip s' else s
  end.

Definition strip (s : str) : str := rev (lstrip (rev (lstrip s))).

(** [s or None] *)
Definition or_none (s : str) : option str :=
  match s with
  | [] => None
  | _ => Some s
  end.

(** [v or '-'] *)
Definition or_hyphen (v : option str) : str :=
  match v with
  | Some (c :: s) => c :: s
  | _ => str_of "-"
  end.

(** An [Optional[str]] inside an f-string. *)
Definition optional_text (v : option str) : str :=
  match v with
  | Some s => s
  | None => str_of "None"
  end.

(** [str(exc)] *)
Definition str_exn (e : exn) : str :=
  match e with
  | ValidationError msg => msg
  | _ => exn_text e
  end.

(** The two [except] clauses that end the three handlers. *)
Definition report (e : exn) : G unit :=
  match e with
  | ValidationError _ =>
    modify (show (showerror (str_of "Validation error") (str_exn e)))
  | _ => modify (show (showerror (str_of "Error") (str_exn e)))
  end.

(** [f"{x:.2f}"] for what [total_cost] returns *)
Definition format_total (t : total) : str :=
  match t with
  | Zero => str_of "0.00"
  | Float x => format_2f x
  end.

(** [App.add_customer]; the arguments are the contents of the four entry
    fields. *)
Definition add_customer (c_name c_email c_phone c_city : str) : G unit :=
  let name := strip c_name in
  let email := or_none (strip c_email) in
  let phone := or_none (strip c_phone) in
  let city := or_none (strip c_city) in
  try_catch
    (let! cust := lift (Customer_new name email phone city None) in
     let! c := lift (get_Customer cust) in
     do! modify (register_customer (customer_id c) cust) in
     let! cust_name := lift (Person_name cust) in
     do! modify (insert_customer_line
                   (customer_id c ++ str_of " | " ++ cust_name ++
                    str_of " | " ++ or_hyphen (Models.city c))) in
     modify (show (showinfo (str_of "OK") (str_of "Customer added"))))
    report.

(** [App.add_product] *)
Definition add_product (p_name p_price : str) : G unit :=
  let name := strip p_name in
  match float_of_str (strip p_price) with
  | None => modify (show (showerror (str_of "Error") (str_of "Invalid price")))
  | Some price =>
    try_catch
      (let! prod := lift (Product_new name price None) in
       let! p := lift (get_Product prod) in
       do! modify (register_product (sku p) prod) in
       do! modify (insert_product_line
                     (optional_text (sku p) ++ str_of " | " ++ Models.name p ++
                      str_of " | " ++ format_2f (Models.price p))) in
       modify (show (showinfo (str_of "OK") (str_of "Product added"))))
      report
  end.

(** [int(text or 1)] *)
Definition quantity_of (text : str) : option Z :=
  match text with
  | [] => Some 1%Z
  | _ => int_of_str text
  end.

(** [App.create_order] *)
Definition create_order (o_customer_id o_sku o_qty : str) : G unit :=
  let cid := strip o_customer_id in
  let sku := strip o_sku in
  match quantity_of (strip o_qty) with
  | None =>
    modify (show (showerror (str_of "Error") (str_of "Invalid quantity")))
  | Some qty =>
    let! app := read_app in
    match customers app !! cid with
    | None =>
      modify (show (showerror (str_of "Error") (str_of "Customer not found")))
    | Some cust =>
      match products app !! Some sku with
      | None =>
        modify (show (showerror (str_of "Error") (str_of "Product not found")))
      | Some prod =>
        try_catch
          (let! item := lift (OrderItem_new prod qty) in
           let! now := lift utcnow in
           let! order := lift (Order_new Customer_add_order cust (Some [item])
                                 (Some now) None) in
           let! o := lift (get_Order order) in
           do! modify (register_order (order_id o) order) in
           let! cust_name := lift (Person_name cust) in
           let! cost := lift (Order_total_cost order) in
           do! modify (insert_order_line
                         (order_id o ++ str_of " | " ++ cust_name ++
                          str_of " | " ++ format_total cost)) in
           modify (show (showinfo (str_of "OK") (str_of "Order created"))))
          report
      end
    end
  end.

(** An event of the form: a button pressed with the given contents of
    the entry fields. *)
Inductive event :=
| AddCustomer (c_name c_email c_phone c_city : str)
| AddProduct (p_name p_price : str)
| CreateOrder (o_customer_id o_sku o_qty : str).

Definition handle (e : event) : G unit :=
  match e with
  | AddCustomer c_name c_email c_phone c_city =>
    add_customer c_name c_email c_phone c_city
  | AddProduct p_name p_price => add_product p_name p_price
  | CreateOrder o_customer_id o_sku o_qty =>
    create_order o_customer_id o_sku o_qty
  end.

(** The state after a series of events; an exception that leaves a
    handler ends the series. *)
Fixpoint handle_all (events : list event) (s : App * World)
  : result unit * (App * World) :=
  match events with
  | [] => (Ok tt, s)
  | e :: events' =>
    match handle e s with
    | (Ok _, s') => handle_all events' s'
    | (Raise x, s') => (Raise x, s')
    end
  end.

(** Every registry entry is filed under the identifier of the object it
    refers to: a customer, a product whose price is not negative, an
    order of a customer. *)
Definition registries_ok (s : App * World) : Prop :=
  (∀ id l, customers (fst s) !! id = Some l →
     ∃ c, heap (snd s) !! l = Some (CustomerObj c) ∧ customer_id c = id) ∧
  (∀ k l, products (fst s) !! k = Some l →
     ∃ p, heap (snd s) !! l = Some (ProductObj p) ∧ sku p = k ∧
          SFltb (price p) (S754_zero false) = false) ∧
  (∀ id l, orders (fst s) !! id = Some l →
     ∃ o c, heap (snd s) !! l = Some (OrderObj o) ∧ order_id o = id ∧
            heap (snd s) !! customer o = Some (CustomerObj c) ∧
            l ∈ _orders c).

End handlers.

(** A toolkit for examples: blanks are white space, and the only numbers
    read are the float [10] and the ints [2] and [0]. *)
Definition sample_toolkit : Toolkit :=
  {| isspace := λ c, (c =? 32)%N;
     float_of_str := λ s, if decide (s = str_of "10") then Some ten else None;
     int_of_str := λ s, if decide (s = str_of "2") then Some 2%Z
                        else if decide (s = str_of "0") then Some 0%Z
                        else None;
     format_2f := λ _, str_of "?";
     exn_text := λ _, [] |}.

(** The identifier generated from the random source of the example
    worlds. *)
Definition sample_id : str := hex 32 (uuid4_int 0).

(** A session for examples: a customer, a customer with a wrong email, a
    product, a product with a price that is no number, and an order of
    two of the product for the customer. *)
Definition sample_session : list event :=
  [AddCustomer (str_of " Ann ") [] [] [];
   AddCustomer (str_of "Bob") (str_of "not-an-email") [] [];
   AddProduct (str_of "Widget") (str_of " 10");
   AddProduct (str_of "Gadget") (str_of "ten");
   CreateOrder sample_id sample_id (str_of "2")].

(** The form in front of the shop of the examples. *)
Definition shop_app : App :=
  {| customers := {[ str_of "c1" := 1%positive ]};
     products := {[ Some (str_of "p2") := 2%positive ]};
     orders := {[ str_of "o4" := 4%positive ]};
     customers_list := []; products_list := []; orders_list := [];
     dialogs := [] |}.

End Gui.

(** ** Facts about the ordering routine *)

Module UtilsSortFacts.
Import PyList UtilsSort.

Section value_level.
Context {A K : Type}.
Variable key : A → K.
Variables key_lt key_eq key_gt : K → K → bool.

Abbreviation sort_rec := (sort_orders_rec key key_lt key_eq key_gt).
Abbreviation less p l := (List.filter (λ o, key_lt (key o) (key p)) l).
Abbreviation equal p l := (List.filter (λ o, key_eq (key o) (key p)) l).
Abbreviation greater p l := (List.filter (λ o, key_gt (key o) (key p)) l).

Abbreviation key_le := (UtilsSort.key_le key_lt key_eq).
Abbreviation nondecreasing := (UtilsSort.nondecreasing key key_lt key_eq).
Abbreviation with_key := (UtilsSort.with_key key key_eq).

Lemma sort_rec_short depth orders reverse :
  length orders ≤ 1 → sort_rec depth orders reverse = Some orders.
Proof.
  intros Hlen. destruct depth; simpl;
    destruct (Nat.leb_spec (length orders) 1); first [done | lia].
Qed.

Lemma sort_rec_step depth orders reverse :
  1 < length orders →
  sort_rec (S depth) orders reverse =
    match orders !! (length orders / 2) with
    | None => None
    | Some pivot =>
      match sort_rec depth (less pivot orders) reverse,
            sort_rec depth (greater pivot orders) reverse with
      | Some sorted_less, Some sorted_greater =>
        let result := sorted_less ++ equal pivot orders ++ sorted_greater in
        Some (if reverse then rev result else result)
      | _, _ => None
      end
    end.
Proof.
  intros Hlen. simpl.
  destruct (Nat.leb_spec (length orders) 1); [lia | done].
Qed.

(** A deeper recursion allowance never changes a returned result. *)
Lemma sort_rec_mono depth depth' orders reverse result :
  sort_rec depth orders reverse = Some result →
  depth ≤ depth' →
  sort_rec depth' orders reverse = Some result.
Proof.
  revert depth' orders result.
  induction depth as [|depth IH]; intros depth' orders result Hrun Hle.
  - simpl in Hrun. destruct (Nat.leb_spec (length orders) 1) as [Hs|Hs];
      [|done]. injection Hrun as <-. by apply sort_rec_short.
  - destruct (Nat.le_gt_cases (length orders) 1) as [Hs|Hs].
    + rewrite sort_rec_short in Hrun by done. injection Hrun as <-.
      by apply sort_rec_short.
    + destruct depth' as [|depth']; [lia|].
      rewrite sort_rec_step in Hrun |- * by done.
      destruct (orders !! (length orders / 2)) as [pivot|]; [|done].
      destruct (sort_rec depth (less pivot orders) reverse) as [sl|] eqn:Hl;
        [|done].
      destruct (sort_rec depth (greater pivot orders) reverse) as [sg|] eqn:Hg;
        [|done].
      rewrite (IH depth' _ _ Hl), (IH depth' _ _ Hg) by lia. done.
Qed.

Lemma pivot_lookup (orders : list A) :
  1 < length orders → is_Some (orders !! (length orders / 2)).
Proof.
  intros Hlen. apply lookup_lt_is_Some.
  apply Nat.div_lt; lia.
Qed.


(** *** The list store *)

Abbreviation qs_rec := (quicksort_orders_rec key key_lt key_eq key_gt).
Abbreviation qs := (quicksort_orders key key_lt key_eq key_gt).

Lemma returns_ret {X} (x : X) (s : gmap loc (list A)) Q :
  Q x s → returns (ret x) s Q.
Proof. intros HQ. by exists x, s. Qed.

Lemma returns_bind {X Y} (m : St A X) (f : X → St A Y) s Q R :
  returns m s Q →
  (∀ x s', Q x s' → returns (f x) s' R) →
  returns (bind m f) s R.
Proof.
  intros (x & s' & Hm & HQ) Hf. unfold returns, bind. rewrite Hm.
  by apply Hf.
Qed.

Lemma returns_weaken {X} (m : St A X) s (Q R : X → gmap loc (list A) → Prop) :
  returns m s Q → (∀ x s', Q x s' → R x s') → returns m s R.
Proof. intros (x & s' & Hm & HQ) HQR. exists x, s'. eauto. Qed.

Lemma alloc_spec (v : list A) (s : gmap loc (list A)) :
  returns (alloc v) s (λ r s', s !! r = None ∧ s' = <[r := v]> s).
Proof.
  exists (fresh (dom s)), (<[fresh (dom s) := v]> s).
  split_and!; [done| |done]. apply not_elem_of_dom, is_fresh.
Qed.

Lemma py_len_spec l (v : list A) (s : gmap loc (list A)) :
  s !! l = Some v →
  returns (py_len l) s (λ n s', n = length v ∧ s' = s).
Proof. intros Hl. unfold returns, py_len, bind, read, ret. rewrite Hl. eauto. Qed.

Lemma py_getitem_spec l i x (v : list A) (s : gmap loc (list A)) :
  s !! l = Some v → v !! i = Some x →
  returns (py_getitem l i) s (λ y s', y = x ∧ s' = s).
Proof.
  intros Hl Hi. unfold returns, py_getitem, bind, read, ret.
  rewrite Hl, Hi. eauto.
Qed.

Lemma py_slice_all_spec l (v : list A) (s : gmap loc (list A)) :
  s !! l = Some v →
  returns (py_slice_all l) s (λ r s', s !! r = None ∧ s' = <[r := v]> s).
Proof.
  intros Hl. unfold py_slice_all, bind, read. unfold returns. rewrite Hl.
  apply alloc_spec.
Qed.

Lemma py_listcomp_spec p l (v : list A) (s : gmap loc (list A)) :
  s !! l = Some v →
  returns (py_listcomp p l) s
    (λ r s', s !! r = None ∧ s' = <[r := List.filter p v]> s).
Proof.
  intros Hl. unfold py_listcomp, bind, read. unfold returns. rewrite Hl.
  apply alloc_spec.
Qed.

Lemma py_add_spec a b (va vb : list A) (s : gmap loc (list A)) :
  s !! a = Some va → s !! b = Some vb →
  returns (py_add a b) s (λ r s', s !! r = None ∧ s' = <[r := va ++ vb]> s).
Proof.
  intros Ha Hb. unfold py_add, bind, read. unfold returns. rewrite Ha, Hb.
  apply alloc_spec.
Qed.

Lemma py_reverse_spec l (v : list A) (s : gmap loc (list A)) :
  s !! l = Some v →
  returns (py_reverse l) s (λ _ s', s' = <[l := rev v]> s).
Proof. intros Hl. unfold returns, py_reverse. rewrite Hl. eauto. Qed.

Lemma qs_rec_unfold depth orders reverse :
  qs_rec depth orders reverse =
    bind (py_len orders) (λ n,
      if n <=? 1 then py_slice_all orders
      else match depth with
           | O => fail
           | S depth' =>
             bind (py_getitem orders (n / 2)) (λ pivot,
             bind (py_listcomp (λ o, key_lt (key o) (key pivot)) orders) (λ less,
             bind (py_listcomp (λ o, key_eq (key o) (key pivot)) orders) (λ equal,
             bind (py_listcomp (λ o, key_gt (key o) (key pivot)) orders) (λ greater,
             bind (qs_rec depth' less reverse) (λ sorted_less,
             bind (py_add sorted_less equal) (λ left_part,
             bind (qs_rec depth' greater reverse) (λ sorted_greater,
             bind (py_add left_part sorted_greater) (λ result,
             bind (if reverse then py_reverse result else ret tt) (λ _,
             ret result)))))))))
           end).
Proof. by destruct depth. Qed.

(** The routine on list objects computes what the algorithm on values
    computes; it returns a list object that did not exist before and
    leaves every list object that existed as it was. *)
Lemma qs_rec_refines depth : ∀ (s : gmap loc (list A)) orders v reverse result,
  s !! orders = Some v →
  sort_rec depth v reverse = Some result →
  returns (qs_rec depth orders reverse) s
    (λ r s', s !! r = None ∧ s ⊆ s' ∧ s' !! r = Some result).
Proof.
  induction depth as [|depth IH]; intros s orders v reverse result Hl Hrun;
    rewrite qs_rec_unfold;
    (eapply returns_bind; [apply (py_len_spec _ _ _ Hl)|]);
    intros n ? [-> ->];
    destruct (Nat.leb_spec (length v) 1) as [Hs|Hs].
  - rewrite sort_rec_short in Hrun by done. injection Hrun as <-.
    eapply returns_weaken; [apply (py_slice_all_spec _ _ _ Hl)|].
    intros r ? [Hr ->]. split_and!; [done|by apply insert_subseteq|].
    apply lookup_insert_eq.
  - simpl in Hrun. destruct (Nat.leb_spec (length v) 1); [lia|done].
  - rewrite sort_rec_short in Hrun by done. injection Hrun as <-.
    eapply returns_weaken; [apply (py_slice_all_spec _ _ _ Hl)|].
    intros r ? [Hr ->]. split_and!; [done|by apply insert_subseteq|].
    apply lookup_insert_eq.
  - rewrite sort_rec_step in Hrun by done.
    destruct (v !! (length v / 2)) as [pivot|] eqn:Hp; [|done].
    destruct (sort_rec depth (less pivot v) reverse) as [sl|] eqn:Hsl; [|done].
    destruct (sort_rec depth (greater pivot v) reverse) as [sg|] eqn:Hsg; [|done].
    injection Hrun as <-.
    eapply returns_bind; [apply (py_getitem_spec _ _ _ _ _ Hl Hp)|].
    intros ? ? [-> ->].
    eapply returns_bind; [apply (py_listcomp_spec _ _ _ _ Hl)|].
    intros l1 s1 [Hl1 ->].
    assert (s ⊆ <[l1 := less pivot v]> s) as Hsub1 by (by apply insert_subseteq).
    eapply returns_bind.
    { eapply py_listcomp_spec, lookup_weaken; [apply Hl|done]. }
    intros l2 s2 [Hl2 ->].
    eapply returns_bind.
    { eapply py_listcomp_spec, lookup_weaken; [apply Hl|].
      etrans; [done|by apply insert_subseteq]. }
    intros l3 s3 [Hl3 Hs3].
    assert (s ⊆ s3) as Hsub3.
    { subst s3. etrans; [done|]. etrans; by apply insert_subseteq. }
    assert (s3 !! l1 = Some (less pivot v)) as Hl1'.
    { subst s3. eapply lookup_weaken; [apply lookup_insert_eq|].
      etrans; by apply insert_subseteq. }
    assert (s3 !! l2 = Some (equal pivot v)) as Hl2'.
    { subst s3. eapply lookup_weaken; [apply lookup_insert_eq|].
      by apply insert_subseteq. }
    assert (s3 !! l3 = Some (greater pivot v)) as Hl3'.
    { subst s3. apply lookup_insert_eq. }
    clear Hs3 Hl3 Hl2 Hsub1.
    eapply returns_bind; [apply (IH _ _ _ _ _ Hl1' Hsl)|].
    intros r1 s4 (Hr1 & Hsub4 & Hr1').
    eapply returns_bind.
    { eapply py_add_spec; [apply Hr1'|]. eapply lookup_weaken; [apply Hl2'|done]. }
    intros r2 s5 [Hr2 ->].
    assert (s4 ⊆ <[r2 := sl ++ equal pivot v]> s4) as Hsub5
      by (by apply insert_subseteq).
    eapply returns_bind.
    { eapply IH; [|apply Hsg]. eapply lookup_weaken; [apply Hl3'|]. by etrans. }
    intros r3 s6 (Hr3 & Hsub6 & Hr3').
    eapply returns_bind.
    { eapply py_add_spec; [|apply Hr3'].
      eapply lookup_weaken; [apply lookup_insert_eq|done]. }
    intros r4 s7 [Hr4 ->].
    assert (s ⊆ s6) as Hsub by (do 3 (etrans; [done|]); done).
    assert (s !! r4 = None) as Hfresh by (by eapply lookup_weaken_None).
    rewrite <- (assoc_L (++)).
    destruct reverse.
    + eapply returns_bind.
      { apply py_reverse_spec, lookup_insert_eq. }
      intros _ ? ->. apply returns_ret.
      rewrite insert_insert_eq.
      split_and!; [done|by apply insert_subseteq_r|apply lookup_insert_eq].
    + eexists _, _. split; [reflexivity|].
      split_and!; [done|by apply insert_subseteq_r|apply lookup_insert_eq].
Qed.

Lemma qs_refines (s : gmap loc (list A)) orders v reverse result :
  s !! orders = Some v →
  sort_orders key key_lt key_eq key_gt v reverse = Some result →
  returns (qs orders reverse) s
    (λ r s', s !! r = None ∧ s ⊆ s' ∧ s' !! r = Some result).
Proof.
  intros Hl Hrun. unfold quicksort_orders.
  eapply returns_bind; [apply (py_len_spec _ _ _ Hl)|].
  intros n ? [-> ->]. by eapply qs_rec_refines.
Qed.

(** *** What a call leaves behind, whatever the keys are *)

Lemma bind_inv {X Y} (m : St A X) (f : X → St A Y) s y s'' :
  bind m f s = Some (y, s'') →
  ∃ x s', m s = Some (x, s') ∧ f x s' = Some (y, s'').
Proof.
  unfold bind. destruct (m s) as [[x s']|]; [|done]. eauto.
Qed.

Lemma alloc_inv (v : list A) (s : gmap loc (list A)) r s' :
  alloc v s = Some (r, s') → s !! r = None ∧ s' = <[r := v]> s.
Proof.
  unfold alloc. intros [= <- <-]. split; [|done].
  apply not_elem_of_dom, is_fresh.
Qed.

Lemma read_inv l (s : gmap loc (list A)) v s' :
  read l s = Some (v, s') → s !! l = Some v ∧ s' = s.
Proof. unfold read. destruct (s !! l); [|done]. by intros [= <- <-]. Qed.

Lemma py_len_inv l (s : gmap loc (list A)) n s' :
  py_len l s = Some (n, s') → s' = s.
Proof.
  intros (v & s1 & [_ ->]%read_inv & Hret)%bind_inv. by injection Hret.
Qed.

Lemma py_getitem_inv l i (s : gmap loc (list A)) x s' :
  py_getitem l i s = Some (x, s') → s' = s.
Proof.
  intros (v & s1 & [_ ->]%read_inv & Hret)%bind_inv.
  destruct (v !! i); [by injection Hret|done].
Qed.

Lemma py_slice_all_inv l (s : gmap loc (list A)) r s' :
  py_slice_all l s = Some (r, s') → s !! r = None ∧ ∃ v, s' = <[r := v]> s.
Proof.
  intros (v & s1 & [_ ->]%read_inv & [Hr ->]%alloc_inv)%bind_inv. eauto.
Qed.

Lemma py_listcomp_inv p l (s : gmap loc (list A)) r s' :
  py_listcomp p l s = Some (r, s') → s !! r = None ∧ ∃ v, s' = <[r := v]> s.
Proof.
  intros (v & s1 & [_ ->]%read_inv & [Hr ->]%alloc_inv)%bind_inv. eauto.
Qed.

Lemma py_add_inv a b (s : gmap loc (list A)) r s' :
  py_add a b s = Some (r, s') → s !! r = None ∧ ∃ v, s' = <[r := v]> s.
Proof.
  intros (va & s1 & [_ ->]%read_inv & Hb)%bind_inv.
  apply bind_inv in Hb as (vb & s2 & [_ ->]%read_inv & [Hr ->]%alloc_inv).
  eauto.
Qed.

Lemma py_reverse_inv l (s : gmap loc (list A)) u s' :
  py_reverse l s = Some (u, s') → ∃ v, s' = <[l := v]> s.
Proof.
  unfold py_reverse. destruct (s !! l); [|done]. intros [= <- <-]. eauto.
Qed.

(** A call that returns has created its result and has left every list
    object that existed as it was; no property of the keys is needed. *)
Lemma qs_rec_frame depth : ∀ (s : gmap loc (list A)) l reverse r s',
  qs_rec depth l reverse s = Some (r, s') →
  s !! r = None ∧ s ⊆ s' ∧ is_Some (s' !! r).
Proof.
  assert (∀ (s : gmap loc (list A)) l r s',
            py_slice_all l s = Some (r, s') →
            s !! r = None ∧ s ⊆ s' ∧ is_Some (s' !! r)) as Hcopy.
  { intros s l r s' [Hr [v ->]]%py_slice_all_inv.
    split_and!; [done|by apply insert_subseteq|].
    rewrite lookup_insert_eq. eauto. }
  induction depth as [|depth IH]; intros s l reverse r s' Hrun;
    rewrite qs_rec_unfold in Hrun;
    apply bind_inv in Hrun as (n & s0 & ->%py_len_inv & Hrun);
    destruct (n <=? 1); [by eapply Hcopy|done|by eapply Hcopy|].
  apply bind_inv in Hrun as (pivot & ? & ->%py_getitem_inv & Hrun).
  apply bind_inv in Hrun as (l1 & ? & [Hl1 [v1 ->]]%py_listcomp_inv & Hrun).
  apply bind_inv in Hrun as (l2 & ? & [Hl2 [v2 ->]]%py_listcomp_inv & Hrun).
  apply bind_inv in Hrun as (l3 & ? & [Hl3 [v3 ->]]%py_listcomp_inv & Hrun).
  apply bind_inv in Hrun as (r1 & s4 & (Hr1 & Hsub4 & _)%IH & Hrun).
  apply bind_inv in Hrun as (r2 & ? & [Hr2 [v5 ->]]%py_add_inv & Hrun).
  apply bind_inv in Hrun as (r3 & s6 & (Hr3 & Hsub6 & _)%IH & Hrun).
  apply bind_inv in Hrun as (r4 & ? & [Hr4 [v7 ->]]%py_add_inv & Hrun).
  apply bind_inv in Hrun as (u & s8 & Hrev & [= <- <-]).
  assert (s ⊆ s6) as Hsub.
  { etrans; [|done]. etrans; [|by apply insert_subseteq].
    etrans; [|done]. do 3 (etrans; [|by apply insert_subseteq]). done. }
  assert (∃ v, s8 = <[r4 := v]> s6) as [v ->].
  { destruct reverse.
    - apply py_reverse_inv in Hrev as [v ->]. rewrite insert_insert_eq. eauto.
    - injection Hrev as <- <-. eauto. }
  split_and!.
  - by eapply lookup_weaken_None.
  - etrans; [done|]. by apply insert_subseteq.
  - rewrite lookup_insert_eq. eauto.
Qed.

Lemma qs_frame (s : gmap loc (list A)) l reverse r s' :
  qs l reverse s = Some (r, s') →
  s !! r = None ∧ s ⊆ s' ∧ is_Some (s' !! r).
Proof.
  unfold quicksort_orders.
  intros (n & s0 & ->%py_len_inv & Hrun)%bind_inv. by eapply qs_rec_frame.
Qed.

(** Up to one element, the result is a copy. *)
Lemma qs_short (s : gmap loc (list A)) l orders reverse :
  s !! l = Some orders → length orders ≤ 1 →
  returns (qs l reverse) s (λ r s', s' !! r = Some orders).
Proof.
  intros Hl Hlen. eapply returns_weaken.
  - eapply qs_refines; [done|]. unfold sort_orders. by apply sort_rec_short.
  - by intros r s' (_ & _ & Hr).
Qed.

Lemma sorts_to_intro orders reverse result :
  sort_orders key key_lt key_eq key_gt orders reverse = Some result →
  sorts_to key key_lt key_eq key_gt orders reverse result.
Proof.
  intros Hrun s l Hl. eapply returns_weaken; [by eapply qs_refines|].
  by intros r s' (_ & _ & Hr).
Qed.

Section ordered.
Hypothesis Hord : TotalOrder key_lt key_eq key_gt.

Lemma key_eq_refl a : key_eq a a = true.
Proof. by apply (eq_spec _ _ _ Hord). Qed.

Lemma key_lt_asym a b : key_lt a b = true → key_lt b a = false.
Proof.
  intros Hab. destruct (key_lt b a) eqn:Hba; [|done].
  pose proof (lt_trans _ _ _ Hord _ _ _ Hab Hba) as Haa.
  by rewrite (lt_irrefl _ _ _ Hord) in Haa.
Qed.

Lemma key_lt_not_eq a b : key_lt a b = true → key_eq a b = false.
Proof.
  intros Hab. destruct (key_eq a b) eqn:Heq; [|done].
  apply (eq_spec _ _ _ Hord) in Heq. subst b.
  by rewrite (lt_irrefl _ _ _ Hord) in Hab.
Qed.

Lemma key_eq_sym a b : key_eq a b = key_eq b a.
Proof.
  destruct (key_eq a b) eqn:Hab, (key_eq b a) eqn:Hba; try done.
  - apply (eq_spec _ _ _ Hord) in Hab. subst b.
    by rewrite key_eq_refl in Hba.
  - apply (eq_spec _ _ _ Hord) in Hba. subst b.
    by rewrite key_eq_refl in Hab.
Qed.

(** Exactly one of [a < p], [a == p], [a > p] holds. *)
Lemma key_trichotomy a p :
  (key_lt a p = true ∧ key_eq a p = false ∧ key_gt a p = false) ∨
  (key_lt a p = false ∧ key_eq a p = true ∧ key_gt a p = false) ∨
  (key_lt a p = false ∧ key_eq a p = false ∧ key_gt a p = true).
Proof.
  rewrite (gt_spec _ _ _ Hord).
  destruct (lt_total _ _ _ Hord a p) as [Hlt|[->|Hgt]].
  - left. eauto using key_lt_asym, key_lt_not_eq.
  - right; left. rewrite key_eq_refl, (lt_irrefl _ _ _ Hord). done.
  - right; right. split_and!; [by apply key_lt_asym| |done].
    rewrite key_eq_sym. by apply key_lt_not_eq.
Qed.

Lemma key_le_refl a : key_le a a = true.
Proof. unfold key_le. rewrite key_eq_refl. apply orb_true_r. Qed.

Lemma key_lt_le a b : key_lt a b = true → key_le a b = true.
Proof. unfold key_le. by intros ->. Qed.

(** The three groups split the input. *)
Lemma partition_perm p (orders : list A) :
  less p orders ++ equal p orders ++ greater p orders ≡ₚ orders.
Proof.
  induction orders as [|o orders IH]; [done|]. simpl.
  destruct (key_trichotomy (key o) (key p)) as
    [(-> & -> & ->)|[(-> & -> & ->)|(-> & -> & ->)]]; simpl.
  - by rewrite IH.
  - by rewrite <- Permutation_middle, IH.
  - by rewrite <- !Permutation_middle, IH.
Qed.

Lemma pivot_not_less p (orders : list A) :
  p ∈ orders → length (less p orders) < length orders.
Proof.
  intros Hin. induction orders as [|o orders IH]; [by apply elem_of_nil in Hin|].
  simpl. apply elem_of_cons in Hin as [<-|Hin].
  - rewrite (lt_irrefl _ _ _ Hord).
    pose proof (filter_length_le (λ o, key_lt (key o) (key p)) orders). lia.
  - specialize (IH Hin). destruct (key_lt (key o) (key p)); simpl; lia.
Qed.

Lemma pivot_not_greater p (orders : list A) :
  p ∈ orders → length (greater p orders) < length orders.
Proof.
  intros Hin. induction orders as [|o orders IH]; [by apply elem_of_nil in Hin|].
  simpl. apply elem_of_cons in Hin as [<-|Hin].
  - rewrite (gt_spec _ _ _ Hord), (lt_irrefl _ _ _ Hord).
    pose proof (filter_length_le (λ o, key_gt (key o) (key p)) orders). lia.
  - specialize (IH Hin). destruct (key_gt (key o) (key p)); simpl; lia.
Qed.

(** With totally ordered keys the recursion is never deeper than the
    list is long. *)
Lemma sort_rec_total depth orders reverse :
  length orders ≤ depth → is_Some (sort_rec depth orders reverse).
Proof.
  revert orders. induction depth as [|depth IH]; intros orders Hlen.
  - rewrite sort_rec_short by lia. eauto.
  - destruct (Nat.le_gt_cases (length orders) 1) as [Hs|Hs].
    { rewrite sort_rec_short by done. eauto. }
    rewrite sort_rec_step by done.
    destruct (pivot_lookup orders Hs) as [pivot Hp]. rewrite Hp.
    assert (pivot ∈ orders) as Hin by (by eapply list_elem_of_lookup_2).
    destruct (IH (less pivot orders)) as [sl ->].
    { pose proof (pivot_not_less _ _ Hin). lia. }
    destruct (IH (greater pivot orders)) as [sg ->].
    { pose proof (pivot_not_greater _ _ Hin). lia. }
    eauto.
Qed.

(** The result is a rearrangement of the input, for both directions. *)
Lemma sort_rec_perm depth orders reverse result :
  sort_rec depth orders reverse = Some result → result ≡ₚ orders.
Proof.
  revert orders result.
  induction depth as [|depth IH]; intros orders result Hrun.
  - simpl in Hrun. destruct (length orders <=? 1); [|done].
    by injection Hrun as <-.
  - destruct (Nat.le_gt_cases (length orders) 1) as [Hs|Hs].
    { rewrite sort_rec_short in Hrun by done. by injection Hrun as <-. }
    rewrite sort_rec_step in Hrun by done.
    destruct (orders !! (length orders / 2)) as [pivot|]; [|done].
    destruct (sort_rec depth (less pivot orders) reverse) as [sl|] eqn:Hl;
      [|done].
    destruct (sort_rec depth (greater pivot orders) reverse) as [sg|] eqn:Hg;
      [|done].
    injection Hrun as <-.
    apply IH in Hl, Hg.
    assert (sl ++ equal pivot orders ++ sg ≡ₚ orders) as Hperm.
    { rewrite Hl, Hg. apply partition_perm. }
    destruct reverse; [|done].
    by rewrite <- Permutation_rev.
Qed.

Lemma sort_rec_elem depth orders reverse result x :
  sort_rec depth orders reverse = Some result → x ∈ result → x ∈ orders.
Proof. intros Hrun Hin. by rewrite <- (sort_rec_perm _ _ _ _ Hrun). Qed.

Lemma elem_of_less p (orders : list A) x :
  x ∈ less p orders → key_lt (key x) (key p) = true.
Proof. rewrite list_elem_of_In, filter_In. tauto. Qed.

Lemma elem_of_equal p (orders : list A) x :
  x ∈ equal p orders → key x = key p.
Proof.
  rewrite list_elem_of_In, filter_In. intros [_ Heq].
  by apply (eq_spec _ _ _ Hord).
Qed.

Lemma elem_of_greater p (orders : list A) x :
  x ∈ greater p orders → key_lt (key p) (key x) = true.
Proof.
  rewrite list_elem_of_In, filter_In, (gt_spec _ _ _ Hord). tauto.
Qed.

Lemma same_key_nondecreasing k (l : list A) :
  (∀ x, x ∈ l → key x = k) → nondecreasing l.
Proof.
  unfold UtilsSort.nondecreasing.
  induction l as [|x l IH]; intros Hall; simpl; constructor.
  - apply IH. intros y Hy. apply Hall. by right.
  - apply list.Forall_forall. intros b (y & -> & Hy)%list_elem_of_fmap.
    rewrite (Hall x), (Hall y); [apply key_le_refl|by right|by left].
Qed.

Lemma nondecreasing_app (l1 l2 : list A) :
  nondecreasing l1 → nondecreasing l2 →
  (∀ x y, x ∈ l1 → y ∈ l2 → key_le (key x) (key y) = true) →
  nondecreasing (l1 ++ l2).
Proof.
  unfold UtilsSort.nondecreasing. intros H1 H2 Hcross.
  rewrite fmap_app. apply StronglySorted_app_2; [|done..].
  intros a b (x & -> & Hx)%list_elem_of_fmap (y & -> & Hy)%list_elem_of_fmap.
  by apply Hcross.
Qed.

(** Ascending order: the keys of the result never decrease. *)
Lemma sort_rec_nondecreasing depth orders result :
  sort_rec depth orders false = Some result → nondecreasing result.
Proof.
  revert orders result.
  induction depth as [|depth IH]; intros orders result Hrun.
  - simpl in Hrun. destruct (Nat.leb_spec (length orders) 1) as [Hs|Hs]; [|done].
    injection Hrun as <-.
    destruct orders as [|x [|y orders]]; simpl in Hs; [| |lia];
      unfold UtilsSort.nondecreasing; simpl; repeat constructor.
  - destruct (Nat.le_gt_cases (length orders) 1) as [Hs|Hs].
    { rewrite sort_rec_short in Hrun by done. injection Hrun as <-.
      destruct orders as [|x [|y orders]]; simpl in Hs; [| |lia];
        unfold UtilsSort.nondecreasing; simpl; repeat constructor. }
    rewrite sort_rec_step in Hrun by done.
    destruct (orders !! (length orders / 2)) as [pivot|]; [|done].
    destruct (sort_rec depth (less pivot orders) false) as [sl|] eqn:Hl; [|done].
    destruct (sort_rec depth (greater pivot orders) false) as [sg|] eqn:Hg; [|done].
    injection Hrun as <-.
    apply nondecreasing_app; [by eapply IH|apply nondecreasing_app|].
    + apply (same_key_nondecreasing (key pivot)). apply elem_of_equal.
    + by eapply IH.
    + intros x y Hx Hy. apply elem_of_equal in Hx. rewrite Hx.
      apply key_lt_le, (elem_of_greater pivot orders).
      by eapply sort_rec_elem.
    + intros x y Hx Hy.
      assert (key_lt (key x) (key pivot) = true) as Hxp.
      { apply (elem_of_less pivot orders). by eapply sort_rec_elem. }
      apply elem_of_app in Hy as [Hy|Hy].
      * apply elem_of_equal in Hy. rewrite Hy. by apply key_lt_le.
      * apply key_lt_le, (lt_trans _ _ _ Hord _ (key pivot)); [done|].
        apply (elem_of_greater pivot orders). by eapply sort_rec_elem.
Qed.

Lemma filter_filter_all (p q : A → bool) (l : list A) :
  (∀ x, q x = true → p x = true) →
  List.filter q (List.filter p l) = List.filter q l.
Proof.
  intros Himp. induction l as [|x l IH]; [done|]. simpl.
  destruct (q x) eqn:Hq.
  - rewrite (Himp _ Hq). simpl. by rewrite Hq, IH.
  - destruct (p x); simpl; [rewrite Hq|]; apply IH.
Qed.

Lemma filter_filter_none (p q : A → bool) (l : list A) :
  (∀ x, q x = true → p x = false) →
  List.filter q (List.filter p l) = [].
Proof.
  intros Himp. induction l as [|x l IH]; [done|]. simpl.
  destruct (p x) eqn:Hp; [|done]. simpl.
  destruct (q x) eqn:Hq; [|done].
  rewrite (Himp _ Hq) in Hp. done.
Qed.

(** Splitting around a pivot keeps, for each key, the elements carrying
    it together and in order. *)
Lemma with_key_partition k p (orders : list A) :
  with_key k (less p orders) ++ with_key k (equal p orders) ++
    with_key k (greater p orders) = with_key k orders.
Proof.
  unfold UtilsSort.with_key.
  destruct (key_trichotomy k (key p)) as
    [(Hlt & Heq & Hgt)|[(Hlt & Heq & Hgt)|(Hlt & Heq & Hgt)]].
  - rewrite filter_filter_all, !filter_filter_none, !app_nil_r; [done|..];
      intros x ->%(eq_spec _ _ _ Hord); done.
  - rewrite (filter_filter_none (λ o, key_lt _ _)),
      (filter_filter_none (λ o, key_gt _ _)), filter_filter_all, app_nil_r;
      [done|..]; intros x ->%(eq_spec _ _ _ Hord); done.
  - rewrite (filter_filter_none (λ o, key_lt _ _)),
      (filter_filter_none (λ o, key_eq _ _)), filter_filter_all;
      [done|..]; intros x ->%(eq_spec _ _ _ Hord); done.
Qed.

(** Ascending order is stable: equal keys keep their input order. *)
Lemma sort_rec_stable depth orders result k :
  sort_rec depth orders false = Some result →
  with_key k result = with_key k orders.
Proof.
  revert orders result.
  induction depth as [|depth IH]; intros orders result Hrun.
  - simpl in Hrun. destruct (length orders <=? 1); [|done].
    by injection Hrun as <-.
  - destruct (Nat.le_gt_cases (length orders) 1) as [Hs|Hs].
    { rewrite sort_rec_short in Hrun by done. by injection Hrun as <-. }
    rewrite sort_rec_step in Hrun by done.
    destruct (orders !! (length orders / 2)) as [pivot|]; [|done].
    destruct (sort_rec depth (less pivot orders) false) as [sl|] eqn:Hl; [|done].
    destruct (sort_rec depth (greater pivot orders) false) as [sg|] eqn:Hg; [|done].
    injection Hrun as <-.
    unfold UtilsSort.with_key. rewrite !List.filter_app.
    fold (with_key k sl) (with_key k sg) (with_key k (equal pivot orders)).
    rewrite (IH _ _ Hl), (IH _ _ Hg). apply with_key_partition.
Qed.

Lemma sort_orders_total orders reverse :
  is_Some (sort_orders key key_lt key_eq key_gt orders reverse).
Proof. by apply sort_rec_total. Qed.

(** One level of the recursion, seen from the caller. *)
Lemma sorts_to_step orders reverse :
  1 < length orders →
  ∃ pivot sorted_less sorted_greater,
    orders !! (length orders / 2) = Some pivot ∧
    sorts_to key key_lt key_eq key_gt (less pivot orders) reverse sorted_less ∧
    sorts_to key key_lt key_eq key_gt (greater pivot orders) reverse sorted_greater ∧
    sort_orders key key_lt key_eq key_gt orders reverse =
      Some (let result := sorted_less ++ equal pivot orders ++ sorted_greater in
            if reverse then rev result else result).
Proof.
  intros Hlen. destruct (pivot_lookup orders Hlen) as [pivot Hp].
  assert (pivot ∈ orders) as Hin by (by eapply list_elem_of_lookup_2).
  destruct (sort_orders_total (less pivot orders) reverse) as [sl Hsl].
  destruct (sort_orders_total (greater pivot orders) reverse) as [sg Hsg].
  exists pivot, sl, sg. split_and!; [done|by apply sorts_to_intro..|].
  unfold sort_orders in *.
  replace (sort_rec (length orders) orders reverse)
    with (sort_rec (S (length orders - 1)) orders reverse) by (f_equal; lia).
  rewrite sort_rec_step, Hp by lia.
  pose proof (pivot_not_less _ _ Hin). pose proof (pivot_not_greater _ _ Hin).
  rewrite (sort_rec_mono _ (length orders - 1) _ _ _ Hsl),
    (sort_rec_mono _ (length orders - 1) _ _ _ Hsg) by lia.
  done.
Qed.

(** C1: with [reverse=False] the routine returns a sequence whose keys
    never decrease and in which elements with equal keys keep their input
    order; on more than one element it takes the pivot at index
    [len(orders) // 2], splits the input into the strictly-less, equal and
    strictly-greater groups (each in input order) and returns
    sorted(less) + equal + sorted(greater). *)
Theorem quicksort_orders_ascending (orders : list A) :
  ∃ result,
    sorts_to key key_lt key_eq key_gt orders false result ∧
    nondecreasing result ∧
    (∀ k, with_key k result = with_key k orders) ∧
    (1 < length orders →
     ∃ pivot sorted_less sorted_greater,
       orders !! (length orders / 2) = Some pivot ∧
       sorts_to key key_lt key_eq key_gt
         (List.filter (λ o, key_lt (key o) (key pivot)) orders) false sorted_less ∧
       sorts_to key key_lt key_eq key_gt
         (List.filter (λ o, key_gt (key o) (key pivot)) orders) false sorted_greater ∧
       result = sorted_less ++
                List.filter (λ o, key_eq (key o) (key pivot)) orders ++
                sorted_greater).
Proof.
  destruct (sort_orders_total orders false) as [result Hrun].
  exists result. split_and!.
  - by apply sorts_to_intro.
  - by eapply sort_rec_nondecreasing.
  - intros k. by eapply sort_rec_stable.
  - intros Hlen.
    destruct (sorts_to_step orders false Hlen) as (pivot & sl & sg & Hp & Hl & Hg & Heq).
    exists pivot, sl, sg. split_and!; [done..|].
    rewrite Hrun in Heq. by injection Heq.
Qed.

(** C10, as the code has it: when the keys are totally ordered by the
    three comparisons, the call returns, for both directions, a
    permutation of the input.  The order on the keys is needed: an order
    whose key is neither below, nor equal to, nor above the key of the
    pivot is in none of the three partitions. *)
Theorem quicksort_orders_permutation (orders : list A) (reverse : bool) :
  ∃ result,
    sorts_to key key_lt key_eq key_gt orders reverse result ∧
    result ≡ₚ orders.
Proof.
  destruct (sort_orders_total orders reverse) as [result Hrun].
  exists result. split; [by apply sorts_to_intro|by eapply sort_rec_perm].
Qed.

Lemma qs_returns (s : gmap loc (list A)) l orders reverse :
  s !! l = Some orders → returns (qs l reverse) s (λ _ _, True).
Proof.
  intros Hl. destruct (sort_orders_total orders reverse) as [result Hrun].
  eapply returns_weaken; [by eapply qs_refines|]. done.
Qed.

(** The reversal is applied to the concatenation at each level: the
    recursive calls receive the same flag. *)
Lemma sorts_to_reverse_step (orders : list A) :
  1 < length orders →
  ∃ pivot sorted_less sorted_greater,
    orders !! (length orders / 2) = Some pivot ∧
    sorts_to key key_lt key_eq key_gt
      (List.filter (λ o, key_lt (key o) (key pivot)) orders) true sorted_less ∧
    sorts_to key key_lt key_eq key_gt
      (List.filter (λ o, key_gt (key o) (key pivot)) orders) true sorted_greater ∧
    sorts_to key key_lt key_eq key_gt orders true
      (rev (sorted_less ++
            List.filter (λ o, key_eq (key o) (key pivot)) orders ++
            sorted_greater)).
Proof.
  intros Hlen.
  destruct (sorts_to_step orders true Hlen) as (pivot & sl & sg & Hp & Hl & Hg & Heq).
  exists pivot, sl, sg. split_and!; [done..|]. by apply sorts_to_intro.
Qed.
End ordered.

(** C9: whatever the key function and the flag, a call that returns has
    returned a list object that did not exist before, and every list
    object that existed, the input among them, holds what it held, so no
    later change of the returned list reaches the input; for at most one
    element the call returns a new list equal to the input; and with
    totally ordered keys the call returns. *)
Theorem quicksort_orders_non_mutating
    (s : gmap loc (list A)) (l : loc) (orders : list A) (reverse : bool) :
  s !! l = Some orders →
  (∀ r s', qs l reverse s = Some (r, s') →
     (r ∉ dom s) ∧ r ≠ l ∧
     (∀ l' v, s !! l' = Some v → s' !! l' = Some v) ∧
     s' !! l = Some orders ∧
     (∀ v, (<[r := v]> s') !! l = Some orders) ∧
     (∀ x, returns (py_append r x) s' (λ _ s'', s'' !! l = Some orders))) ∧
  (length orders ≤ 1 →
   returns (qs l reverse) s (λ r s', r ≠ l ∧ s' !! r = Some orders)) ∧
  (TotalOrder key_lt key_eq key_gt →
   returns (qs l reverse) s (λ r s', r ≠ l ∧ s' !! l = Some orders)).
Proof.
  intros Hl.
  assert (∀ r s', qs l reverse s = Some (r, s') →
                  r ≠ l ∧ s' !! l = Some orders) as Hkeep.
  { intros r s' (Hr & Hsub & _)%qs_frame.
    split; [congruence|by eapply lookup_weaken]. }
  split_and!.
  - intros r s' Hrun. destruct (Hkeep _ _ Hrun) as [Hne Hl'].
    apply qs_frame in Hrun as (Hr & Hsub & [v' Hr']).
    split_and!; [by apply not_elem_of_dom|done| |done| |].
    + intros l' v Hv. by eapply lookup_weaken.
    + intros v. by rewrite lookup_insert_ne.
    + intros x. unfold returns, py_append. rewrite Hr'.
      eexists _, _. split; [done|]. by rewrite lookup_insert_ne.
  - intros Hlen. destruct (qs_short s l orders reverse Hl Hlen) as (r & s' & Hrun & Hr).
    exists r, s'. split; [done|]. by destruct (Hkeep _ _ Hrun).
  - intros Hord. destruct (qs_returns Hord s l orders reverse Hl) as (r & s' & Hrun & _).
    exists r, s'. split; [done|]. by apply Hkeep.
Qed.
End value_level.

(** *** Integer timestamps as keys *)

Lemma Z_total_order : TotalOrder Z.ltb Z.eqb Z.gtb.
Proof.
  split.
  - apply Z.eqb_eq.
  - apply Z.gtb_ltb.
  - apply Z.ltb_irrefl.
  - intros a b c Hab%Z.ltb_lt Hbc%Z.ltb_lt. apply Z.ltb_lt. lia.
  - intros a b. rewrite !Z.ltb_lt. lia.
Qed.

(** Keys on which no comparison holds, as with [float('nan')], are not
    totally ordered, and orders are lost. *)
Example unordered_keys_lose_orders :
  sorts_to (λ o : nat, o) (λ _ _, false) (λ _ _, false) (λ _ _, false)
    [1; 2] false [].
Proof. apply sorts_to_intro. reflexivity. Qed.

(** Against a permutation for every key function: with keys [nan],
    [1.0] and [2.0] the pivot is the order with key [1.0], the order with
    key [nan] is neither less, nor equal, nor greater, and the call
    returns the two other orders, in either direction. *)
Lemma quicksort_orders_drops_nan_key :
  sorts_to snd float_lt float_eq float_gt orders_nan false
    (drop 1 orders_nan) ∧
  sorts_to snd float_lt float_eq float_gt orders_nan true
    (rev (drop 1 orders_nan)) ∧
  ¬ drop 1 orders_nan ≡ₚ orders_nan ∧
  ¬ rev (drop 1 orders_nan) ≡ₚ orders_nan.
Proof.
  split_and!.
  - apply sorts_to_intro. reflexivity.
  - apply sorts_to_intro. reflexivity.
  - intros Hperm%Permutation_length. discriminate.
  - intros Hperm%Permutation_length. discriminate.
Qed.

(** Reversing at each level does not yield a descending sequence: keys
    1 to 5 come back as 4, 5, 3, 1, 2. *)
Example reverse_of_five_keys :
  sorts_to (λ o : Z, o) Z.ltb Z.eqb Z.gtb [1; 2; 3; 4; 5]%Z true
    [4; 5; 3; 1; 2]%Z.
Proof. apply sorts_to_intro. reflexivity. Qed.

(** C2: with [reverse=True] the concatenation is reversed at each level
    of the recursion, the recursive calls receiving the same flag; on the
    three orders with keys 2, 1, 2 the descending result differs from the
    reversed ascending result. *)
Theorem quicksort_orders_reverse_every_level {A K : Type} (key : A → K)
    (key_lt key_eq key_gt : K → K → bool)
    (Hord : TotalOrder key_lt key_eq key_gt) :
  (∀ orders : list A, 1 < length orders →
   ∃ pivot sorted_less sorted_greater,
     orders !! (length orders / 2) = Some pivot ∧
     sorts_to key key_lt key_eq key_gt
       (List.filter (λ o, key_lt (key o) (key pivot)) orders) true sorted_less ∧
     sorts_to key key_lt key_eq key_gt
       (List.filter (λ o, key_gt (key o) (key pivot)) orders) true sorted_greater ∧
     sorts_to key key_lt key_eq key_gt orders true
       (rev (sorted_less ++
             List.filter (λ o, key_eq (key o) (key pivot)) orders ++
             sorted_greater))) ∧
  (∃ ascending descending,
     snd <$> orders_212 = [2; 1; 2]%Z ∧
     sorts_to snd Z.ltb Z.eqb Z.gtb orders_212 false ascending ∧
     sorts_to snd Z.ltb Z.eqb Z.gtb orders_212 true descending ∧
     ascending = [(1, 1%Z); (0, 2%Z); (2, 2%Z)] ∧
     descending = [(0, 2%Z); (2, 2%Z); (1, 1%Z)] ∧
     descending ≠ rev ascending).
Proof.
  split.
  - intros orders Hlen. by apply sorts_to_reverse_step.
  - exists [(1, 1%Z); (0, 2%Z); (2, 2%Z)], [(0, 2%Z); (2, 2%Z); (1, 1%Z)].
    split_and!; [done| | |done..].
    + apply sorts_to_intro. reflexivity.
    + apply sorts_to_intro. reflexivity.
Qed.

Lemma quicksort_orders_ascending_witness :
  ∃ result,
    sorts_to snd Z.ltb Z.eqb Z.gtb orders_212 false result ∧
    nondecreasing snd Z.ltb Z.eqb result ∧
    (∀ k, with_key snd Z.eqb k result = with_key snd Z.eqb k orders_212) ∧
    (1 < length orders_212 →
     ∃ pivot sorted_less sorted_greater,
       orders_212 !! (length orders_212 / 2) = Some pivot ∧
       sorts_to snd Z.ltb Z.eqb Z.gtb
         (List.filter (λ o, Z.ltb (snd o) (snd pivot)) orders_212) false sorted_less ∧
       sorts_to snd Z.ltb Z.eqb Z.gtb
         (List.filter (λ o, Z.gtb (snd o) (snd pivot)) orders_212) false sorted_greater ∧
       result = sorted_less ++
                List.filter (λ o, Z.eqb (snd o) (snd pivot)) orders_212 ++
                sorted_greater).
Proof.
  exact (quicksort_orders_ascending snd Z.ltb Z.eqb Z.gtb Z_total_order orders_212).
Defined.

Lemma quicksort_orders_permutation_witness :
  ∃ result,
    sorts_to snd Z.ltb Z.eqb Z.gtb orders_212 true result ∧
    result ≡ₚ orders_212.
Proof.
  exact (quicksort_orders_permutation snd Z.ltb Z.eqb Z.gtb Z_total_order
           orders_212 true).
Defined.

Lemma quicksort_orders_non_mutating_witness :
  (∀ r s', quicksort_orders snd Z.ltb Z.eqb Z.gtb 1%positive true
             {[ 1%positive := orders_212 ]} = Some (r, s') →
     (r ∉ dom ({[ 1%positive := orders_212 ]} : gmap loc (list (nat * Z)))) ∧
     r ≠ 1%positive ∧
     (∀ l' v, ({[ 1%positive := orders_212 ]} : gmap loc (list (nat * Z))) !! l'
                = Some v → s' !! l' = Some v) ∧
     s' !! 1%positive = Some orders_212 ∧
     (∀ v, (<[r := v]> s') !! 1%positive = Some orders_212) ∧
     (∀ x, returns (py_append r x) s'
             (λ _ s'', s'' !! 1%positive = Some orders_212))) ∧
  (length orders_212 ≤ 1 →
   returns (quicksort_orders snd Z.ltb Z.eqb Z.gtb 1%positive true)
     {[ 1%positive := orders_212 ]}
     (λ r s', r ≠ 1%positive ∧ s' !! r = Some orders_212)) ∧
  (TotalOrder Z.ltb Z.eqb Z.gtb →
   returns (quicksort_orders snd Z.ltb Z.eqb Z.gtb 1%positive true)
     {[ 1%positive := orders_212 ]}
     (λ r s', r ≠ 1%positive ∧ s' !! 1%positive = Some orders_212)).
Proof.
  apply (quicksort_orders_non_mutating snd Z.ltb Z.eqb Z.gtb).
  reflexivity.
Defined.

Lemma quicksort_orders_reverse_every_level_witness :
  (∀ orders : list (nat * Z), 1 < length orders →
   ∃ pivot sorted_less sorted_greater,
     orders !! (length orders / 2) = Some pivot ∧
     sorts_to snd Z.ltb Z.eqb Z.gtb
       (List.filter (λ o, Z.ltb (snd o) (snd pivot)) orders) true sorted_less ∧
     sorts_to snd Z.ltb Z.eqb Z.gtb
       (List.filter (λ o, Z.gtb (snd o) (snd pivot)) orders) true sorted_greater ∧
     sorts_to snd Z.ltb Z.eqb Z.gtb orders true
       (rev (sorted_less ++
             List.filter (λ o, Z.eqb (snd o) (snd pivot)) orders ++
             sorted_greater))) ∧
  (∃ ascending descending,
     snd <$> orders_212 = [2; 1; 2]%Z ∧
     sorts_to snd Z.ltb Z.eqb Z.gtb orders_212 false ascending ∧
     sorts_to snd Z.ltb Z.eqb Z.gtb orders_212 true descending ∧
     ascending = [(1, 1%Z); (0, 2%Z); (2, 2%Z)] ∧
     descending = [(0, 2%Z); (2, 2%Z); (1, 1%Z)] ∧
     descending ≠ rev ascending).
Proof.
  exact (quicksort_orders_reverse_every_level snd Z.ltb Z.eqb Z.gtb Z_total_order).
Defined.
End UtilsSortFacts.

(** ** Facts about the matcher *)

Module RegexFacts.
Import Regex.

Section matcher.
Context {U : Unicode}.

Lemma Matches_Fail s : ¬ Matches Fail s.
Proof. inversion 1. Qed.

Lemma Matches_Empty s : Matches Empty s ↔ s = [].
Proof. split; [by inversion 1|intros ->; constructor]. Qed.

Lemma Matches_Seq r1 r2 s :
  Matches (Seq r1 r2) s ↔ ∃ s1 s2, s = s1 ++ s2 ∧ Matches r1 s1 ∧ Matches r2 s2.
Proof.
  split.
  - inversion 1; subst; eauto.
  - intros (s1 & s2 & -> & H1 & H2). by constructor.
Qed.

Lemma Matches_Branch r1 r2 s :
  Matches (Branch r1 r2) s ↔ Matches r1 s ∨ Matches r2 s.
Proof.
  split.
  - inversion 1; subst; eauto.
  - intros [H|H]; [by apply MBranchL|by apply MBranchR].
Qed.

Lemma nullable_spec r : nullable r = true ↔ Matches r [].
Proof.
  induction r as [| |items|r1 IH1 r2 IH2|r1 IH1 r2 IH2|r IH]; simpl.
  - split; [done|by intros ?%Matches_Fail].
  - split; [constructor|done].
  - split; [done|inversion 1].
  - rewrite andb_true_iff, IH1, IH2, Matches_Seq. split.
    + intros [H1 H2]. by exists [], [].
    + intros (s1 & s2 & Heq & H1 & H2). symmetry in Heq.
      apply app_eq_nil in Heq as [-> ->]. done.
  - by rewrite orb_true_iff, IH1, IH2, Matches_Branch.
  - split; [constructor|done].
Qed.

(** A match of [Star r] on a non-empty string starts with a non-empty
    match of [r]. *)
Lemma Matches_Star_cons r c s :
  Matches (Star r) (c :: s) →
  ∃ s1 s2, s = s1 ++ s2 ∧ Matches r (c :: s1) ∧ Matches (Star r) s2.
Proof.
  intros H. remember (Star r) as r' eqn:Hr. remember (c :: s) as s' eqn:Hs.
  revert s Hs.
  induction H as [| | | | | |r0 t1 t2 H1 _ H2 IH2]; intros t Ht; try done.
  injection Hr as ->. destruct t1 as [|c' t1]; simpl in Ht.
  - by apply IH2.
  - injection Ht as -> <-. by exists t1, t2.
Qed.

Lemma deriv_spec c r s : Matches (deriv c r) s ↔ Matches r (c :: s).
Proof.
  revert s.
  induction r as [| |items|r1 IH1 r2 IH2|r1 IH1 r2 IH2|r IH]; intros s; simpl.
  - split; by intros ?%Matches_Fail.
  - split; [by intros ?%Matches_Fail|inversion 1].
  - destruct (existsb (item_matches c) items) eqn:Hin.
    + rewrite Matches_Empty. split; [intros ->; by constructor|by inversion 1].
    + split; [by intros ?%Matches_Fail|]. inversion 1; subst. congruence.
  - rewrite Matches_Branch, !Matches_Seq. split.
    + intros [(s1 & s2 & -> & H1 & H2)|H].
      * exists (c :: s1), s2. by rewrite <- IH1.
      * destruct (nullable r1) eqn:Hn; [|by apply Matches_Fail in H].
        exists [], (c :: s). by rewrite <- nullable_spec, <- IH2.
    + intros (s1 & s2 & Heq & H1 & H2). destruct s1 as [|c' s1]; simpl in Heq.
      * right. subst s2. apply nullable_spec in H1. rewrite H1. by apply IH2.
      * injection Heq as <- ->. left. exists s1, s2. by rewrite IH1.
  - by rewrite !Matches_Branch, IH1, IH2.
  - rewrite Matches_Seq. split.
    + intros (s1 & s2 & -> & H1 & H2). apply IH in H1.
      by apply (MStarApp r (c :: s1) s2).
    + intros (s1 & s2 & -> & H1 & H2)%Matches_Star_cons.
      exists s1, s2. by rewrite IH.
Qed.

(** The matcher decides the declarative semantics. *)
Lemma accepts_spec r s : accepts r s = true ↔ Matches r s.
Proof.
  revert r. induction s as [|c s IH]; intros r; simpl.
  - apply nullable_spec.
  - by rewrite IH, deriv_spec.
Qed.

Lemma re_match_spec r s : re_match r s = true ↔ PyMatches r s.
Proof.
  unfold re_match, PyMatches. rewrite orb_true_iff, accepts_spec.
  apply or_iff_compat_l.
  destruct (rev s) as [|c before] eqn:Hrev.
  - split; [done|]. intros (s' & -> & _).
    rewrite rev_app_distr in Hrev. done.
  - apply (f_equal (@rev _)) in Hrev. rewrite rev_involutive in Hrev.
    simpl in Hrev. subst s.
    rewrite andb_true_iff, N.eqb_eq, accepts_spec. split.
    + intros [-> H]. eauto.
    + intros (s' & [-> [= ->]]%app_inj_tail & H). done.
Qed.

Lemma re_match_false r s : re_match r s = false ↔ ¬ PyMatches r s.
Proof.
  rewrite <- re_match_spec. by destruct (re_match r s).
Qed.

End matcher.
End RegexFacts.

(** ** Facts about the domain model *)

Module ModelsFacts.
Import Regex RegexFacts Models.
Local Open Scope models_scope.

Local Arguments hex : simpl never.
Local Arguments uuid4_int : simpl never.
Local Arguments str_of : simpl never.

Lemma hex_length width v : length (hex width v) = width.
Proof.
  revert v. induction width as [|width IH]; intros v; [done|].
  change (hex (S width) v) with (hex width (v / 16)%N ++ [hex_digit (v mod 16)%N]).
  rewrite length_app, IH. simpl. lia.
Qed.

Lemma generated_id_nonempty random : hex 32 (uuid4_int random) ≠ [].
Proof.
  intros Heq. apply (f_equal length) in Heq. by rewrite hex_length in Heq.
Qed.

Lemma or_generated_nonempty v w : or_generated v w ≠ [].
Proof.
  destruct v as [[|c s]|]; simpl; first [done | apply generated_id_nonempty].
Qed.

(** A float that is at least zero is not below zero. *)
Lemma SFleb_zero_not_ltb (x : float) :
  SFleb (S754_zero false) x = true → SFltb x (S754_zero false) = false.
Proof. by destruct x as [[]|[]| |[] m e]. Qed.

Lemma fresh_heap_None (w : World) : heap w !! fresh (dom (heap w)) = None.
Proof. apply not_elem_of_dom, is_fresh. Qed.

Lemma lookup_fresh_ne (w : World) l o :
  heap w !! l = Some o → fresh (dom (heap w)) ≠ l.
Proof. intros Hl Heq. rewrite <- Heq, fresh_heap_None in Hl. done. Qed.

(** *** Product *)

(** C7: a price below zero makes the construction raise the validation
    error, and no reference to a product is returned; a price of at least
    zero makes it return a new product whose [sku] is a non-empty string,
    the caller's when one is supplied and a generated identifier
    otherwise. *)
Theorem Product_new_validates (name : str) (price : float) (sku : option str)
    (w : World) :
  (SFltb price (S754_zero false) = true →
   ∃ w', Product_new name price sku w =
           (Raise (ValidationError (str_of "Price cannot be negative")), w') ∧
         heap w ⊆ heap w') ∧
  (SFleb (S754_zero false) price = true →
   ∃ self w' s,
     Product_new name price sku w = (Ok self, w') ∧
     heap w !! self = None ∧
     heap w' = <[self := ProductObj {| Models.name := name;
                                       Models.price := price;
                                       Models.sku := Some s |}]> (heap w) ∧
     s ≠ [] ∧ s = or_generated sku w).
Proof.
  split.
  - intros Hneg. eexists. unfold Product_new, Product_post_init, bind,
      new_object, put, get_Product, raise. simpl.
    rewrite lookup_insert_eq. simpl. rewrite Hneg. split; [done|].
    simpl. rewrite insert_insert_eq. apply insert_subseteq, fresh_heap_None.
  - intros Hpos%SFleb_zero_not_ltb.
    exists (fresh (dom (heap w))).
    exists (with_heap
              (<[fresh (dom (heap w)) :=
                   ProductObj {| Models.name := name; Models.price := price;
                                 Models.sku := Some (or_generated sku w) |}]> (heap w))
              (if truthy sku then w else snd (_generate_id w))),
           (or_generated sku w).
    split_and!; [|apply fresh_heap_None| |apply or_generated_nonempty|done].
    + unfold Product_new, Product_post_init, bind, new_object, put, get_Product.
      simpl. rewrite lookup_insert_eq. simpl. rewrite Hpos.
      destruct sku as [[|c s]|]; simpl; unfold ret, with_heap; simpl;
        by rewrite !insert_insert_eq.
    + by destruct sku as [[|c s]|].
Qed.

(** *** OrderItem *)

Lemma OrderItem_cost_reads (self : loc) (i : OrderItem) (p : Product) (w : World) :
  heap w !! self = Some (OrderItemObj i) →
  heap w !! product i = Some (ProductObj p) →
  OrderItem_cost self w = float_mul_int (price p) (quantity i) w.
Proof.
  intros Hi Hp. unfold OrderItem_cost, bind, get_OrderItem, get_Product.
  by rewrite Hi, Hp.
Qed.

Lemma float_mul_int_run (x : float) (n : Z) (w : World) :
  float_mul_int x n w =
    (match binary_normalize 53 1024 n 0 false with
     | S754_infinity _ => Raise OverflowError
     | y => Ok (SFmul 53 1024 x y)
     end, w).
Proof.
  unfold float_mul_int, float_of_int, prec, emax.
  by destruct (binary_normalize 53 1024 n 0 false).
Qed.

(** C8: a quantity of zero or less makes the construction raise the
    validation error; a quantity above zero makes it return a new item.
    In whatever world [cost()] is then called, it returns the binary64
    product of the price the product has in that world and the quantity
    converted to binary64, so a price assigned in between is the one
    used; a quantity too large for binary64 makes it raise
    [OverflowError], as [price * quantity] does. *)
Theorem OrderItem_new_validates (product : loc) (quantity : Z) (w : World) :
  ((quantity ≤ 0)%Z →
   ∃ w', OrderItem_new product quantity w =
           (Raise (ValidationError (str_of "Quantity must be > 0")), w') ∧
         heap w ⊆ heap w') ∧
  ((0 < quantity)%Z →
   ∃ self w',
     OrderItem_new product quantity w = (Ok self, w') ∧
     heap w !! self = None ∧
     heap w' = <[self := OrderItemObj {| Models.product := product;
                                         Models.quantity := quantity |}]> (heap w) ∧
     (∀ w'' p,
        heap w'' !! self = heap w' !! self →
        heap w'' !! product = Some (ProductObj p) →
        OrderItem_cost self w'' =
          (match binary_normalize 53 1024 quantity 0 false with
           | S754_infinity _ => Raise OverflowError
           | q => Ok (SFmul 53 1024 (price p) q)
           end, w'')) ∧
     (∀ w'' p v,
        heap w'' !! self = heap w' !! self →
        heap w'' !! product = Some (ProductObj p) →
        product ≠ self →
        ∃ w3, Product_set_price product v w'' = (Ok tt, w3) ∧
              heap w3 !! product =
                Some (ProductObj {| name := name p; price := v;
                                    sku := sku p |}) ∧
              OrderItem_cost self w3 =
                (match binary_normalize 53 1024 quantity 0 false with
                 | S754_infinity _ => Raise OverflowError
                 | q => Ok (SFmul 53 1024 v q)
                 end, w3))).
Proof.
  split.
  - intros Hq%Z.leb_le. eexists.
    unfold OrderItem_new, OrderItem_post_init, bind, new_object, put,
      get_OrderItem, raise. simpl.
    rewrite lookup_insert_eq. simpl. rewrite Hq. split; [done|].
    simpl. rewrite insert_insert_eq. apply insert_subseteq, fresh_heap_None.
  - intros Hq. assert ((quantity <=? 0)%Z = false) as Hq' by lia.
    exists (fresh (dom (heap w))).
    unfold OrderItem_new, OrderItem_post_init, bind, new_object, put,
      get_OrderItem. simpl.
    rewrite lookup_insert_eq. simpl. rewrite Hq'. simpl.
    eexists. split_and!; [done|apply fresh_heap_None| | |].
    + simpl. by rewrite insert_insert_eq.
    + intros w'' p Hself Hp. simpl in Hself.
      rewrite lookup_insert_eq in Hself.
      rewrite (OrderItem_cost_reads _ _ _ _ Hself Hp).
      apply float_mul_int_run.
    + intros w'' p v Hself Hp Hne. simpl in Hself.
      rewrite lookup_insert_eq in Hself.
      unfold Product_set_price, bind, get_Product, put. rewrite Hp.
      eexists. split_and!; [done| |].
      * simpl. apply lookup_insert_eq.
      * rewrite <- float_mul_int_run.
        apply (OrderItem_cost_reads _
                 {| Models.product := product; Models.quantity := quantity |}
                 {| name := name p; price := v; sku := sku p |}); simpl.
        -- by rewrite lookup_insert_ne.
        -- apply lookup_insert_eq.
Qed.

(** *** Person and Customer *)

Section person.
Context {U : Unicode}.

Lemma get_Person_inv self p w w' :
  get_Person self w = (Ok p, w') →
  w' = w ∧
  (heap w !! self = Some (PersonObj p) ∨
   ∃ c, heap w !! self = Some (CustomerObj c) ∧ person c = p).
Proof.
  unfold get_Person. intros Hget.
  destruct (heap w !! self) as [[]|]; simplify_eq; eauto.
Qed.

Lemma put_Person_get self p q w :
  get_Person self w = (Ok p, w) →
  ∃ w', put_Person self q w = (Ok tt, w') ∧
        get_Person self w' = (Ok q, w') ∧
        (∀ l, l ≠ self → heap w' !! l = heap w !! l).
Proof.
  intros [_ [Hp|(c & Hc & _)]]%get_Person_inv; unfold put_Person, put;
    rewrite ?Hp, ?Hc; eexists; (split_and!; [done| |]).
  - unfold get_Person. simpl. by rewrite lookup_insert_eq.
  - intros l Hne. simpl. by rewrite lookup_insert_ne.
  - unfold get_Person. simpl. by rewrite lookup_insert_eq.
  - intros l Hne. simpl. by rewrite lookup_insert_ne.
Qed.

Lemma email_setter_rejects self value w :
  ¬ PyMatches EMAIL_RE value →
  Person_email_setter self value w =
    (Raise (ValidationError (str_of "Invalid email: " ++ value)), w).
Proof.
  intros Hno%re_match_false. unfold Person_email_setter. by rewrite Hno.
Qed.

Lemma phone_setter_rejects self value w :
  ¬ PyMatches PHONE_RE value →
  Person_phone_setter self value w =
    (Raise (ValidationError (str_of "Invalid phone number: " ++ value)), w).
Proof.
  intros Hno%re_match_false. unfold Person_phone_setter. by rewrite Hno.
Qed.

Lemma email_setter_accepts self p value w :
  get_Person self w = (Ok p, w) →
  PyMatches EMAIL_RE value →
  ∃ w', Person_email_setter self value w = (Ok tt, w') ∧
        get_Person self w' =
          (Ok {| _name := _name p; _email := Some value; _phone := _phone p |}, w') ∧
        (∀ l, l ≠ self → heap w' !! l = heap w !! l).
Proof.
  intros Hget Hyes%re_match_spec.
  destruct (put_Person_get self p
              {| _name := _name p; _email := Some value; _phone := _phone p |}
              w Hget) as (w' & Hput & Hget' & Hframe).
  exists w'. split_and!; [|done..].
  unfold Person_email_setter. rewrite Hyes. simpl. unfold bind. by rewrite Hget.
Qed.

Lemma phone_setter_accepts self p value w :
  get_Person self w = (Ok p, w) →
  PyMatches PHONE_RE value →
  ∃ w', Person_phone_setter self value w = (Ok tt, w') ∧
        get_Person self w' =
          (Ok {| _name := _name p; _email := _email p; _phone := Some value |}, w') ∧
        (∀ l, l ≠ self → heap w' !! l = heap w !! l).
Proof.
  intros Hget Hyes%re_match_spec.
  destruct (put_Person_get self p
              {| _name := _name p; _email := _email p; _phone := Some value |}
              w Hget) as (w' & Hput & Hget' & Hframe).
  exists w'. split_and!; [|done..].
  unfold Person_phone_setter. rewrite Hyes. simpl. unfold bind. by rewrite Hget.
Qed.

(** C3: on a person or a customer, assigning a string that the email
    (phone) pattern does not match raises the validation error and leaves
    the world, the stored value with it, as it was; assigning a string
    that the pattern matches returns and stores it, the other contact
    field and every other object staying as they were. *)
Theorem Person_setters_validate (self : loc) (p : Person) (value : str)
    (w : World) :
  get_Person self w = (Ok p, w) →
  (¬ PyMatches EMAIL_RE value →
   Person_email_setter self value w =
     (Raise (ValidationError (str_of "Invalid email: " ++ value)), w)) ∧
  (PyMatches EMAIL_RE value →
   ∃ w', Person_email_setter self value w = (Ok tt, w') ∧
         Person_email self w' = (Ok (Some value), w') ∧
         Person_phone self w' = (Ok (_phone p), w') ∧
         (∀ l, l ≠ self → heap w' !! l = heap w !! l)) ∧
  (¬ PyMatches PHONE_RE value →
   Person_phone_setter self value w =
     (Raise (ValidationError (str_of "Invalid phone number: " ++ value)), w)) ∧
  (PyMatches PHONE_RE value →
   ∃ w', Person_phone_setter self value w = (Ok tt, w') ∧
         Person_phone self w' = (Ok (Some value), w') ∧
         Person_email self w' = (Ok (_email p), w') ∧
         (∀ l, l ≠ self → heap w' !! l = heap w !! l)).
Proof.
  intros Hget. split_and!.
  - apply email_setter_rejects.
  - intros Hyes.
    destruct (email_setter_accepts _ _ _ _ Hget Hyes) as (w' & Hset & Hget' & Hframe).
    exists w'. unfold Person_email, Person_phone, bind. by rewrite Hget'.
  - apply phone_setter_rejects.
  - intros Hyes.
    destruct (phone_setter_accepts _ _ _ _ Hget Hyes) as (w' & Hset & Hget' & Hframe).
    exists w'. unfold Person_email, Person_phone, bind. by rewrite Hget'.
Qed.

Lemma after_base_get name w :
  get_Person (fresh (dom (heap w))) (after_base_assignments name w) =
    (Ok {| _name := name; _email := None; _phone := None |},
     after_base_assignments name w).
Proof.
  unfold get_Person, after_base_assignments. simpl.
  by rewrite lookup_insert_eq.
Qed.

Lemma Customer_new_unfold name email phone city customer_id w :
  Customer_new name email phone city customer_id w =
    let self := fresh (dom (heap w)) in
    match (do! match email with
               | Some (c :: value) => Person_email_setter self (c :: value)
               | _ => ret tt
               end in
           do! match phone with
               | Some (c :: value) => Person_phone_setter self (c :: value)
               | _ => ret tt
               end in
           let! id := match customer_id with
                      | Some (c :: id) => ret (c :: id)
                      | _ => _generate_id
                      end in
           let! p := get_Person self in
           put self (CustomerObj {| person := p; city := city;
                                    customer_id := id; _orders := [] |}))
            (after_base_assignments name w) with
    | (Ok _, w') => (Ok self, w')
    | (Raise e, w') => (Raise e, w')
    end.
Proof.
  unfold Customer_new, Customer_init, Person_init, bind, new_object, put,
    after_base_assignments. simpl. rewrite insert_insert_eq.
  unfold with_heap. simpl.
  repeat match goal with
         | |- context [match ?m ?w with _ => _ end] =>
           destruct (m w) as [[] ?]
         end; done.
Qed.

Lemma with_heap_id (w : World) : with_heap (heap w) w = w.
Proof. by destruct w. Qed.

Lemma email_step self p email w :
  heap w !! self = Some (PersonObj p) →
  acceptable EMAIL_RE email →
  match email with
  | Some (c :: value) => Person_email_setter self (c :: value)
  | _ => ret tt
  end w =
    (Ok tt,
     with_heap (<[self := PersonObj {| _name := _name p;
                                       _email := if truthy email then email
                                                 else _email p;
                                       _phone := _phone p |}]> (heap w)) w).
Proof.
  intros Hself Hok. destruct email as [[|c value]|]; simpl.
  - destruct p. simpl. by rewrite insert_id, with_heap_id.
  - simpl in Hok. apply re_match_spec in Hok.
    unfold Person_email_setter. rewrite Hok. simpl.
    unfold bind, get_Person. rewrite Hself.
    unfold put_Person. by rewrite Hself.
  - destruct p. simpl. by rewrite insert_id, with_heap_id.
Qed.

Lemma phone_step self p phone w :
  heap w !! self = Some (PersonObj p) →
  acceptable PHONE_RE phone →
  match phone with
  | Some (c :: value) => Person_phone_setter self (c :: value)
  | _ => ret tt
  end w =
    (Ok tt,
     with_heap (<[self := PersonObj {| _name := _name p;
                                       _email := _email p;
                                       _phone := if truthy phone then phone
                                                 else _phone p |}]> (heap w)) w).
Proof.
  intros Hself Hok. destruct phone as [[|c value]|]; simpl.
  - destruct p. simpl. by rewrite insert_id, with_heap_id.
  - simpl in Hok. apply re_match_spec in Hok.
    unfold Person_phone_setter. rewrite Hok. simpl.
    unfold bind, get_Person. rewrite Hself.
    unfold put_Person. by rewrite Hself.
  - destruct p. simpl. by rewrite insert_id, with_heap_id.
Qed.

(** C6, as the code has it: an email or phone argument that is a
    non-empty string goes through the setter of the property, the email
    first, and a validation error of the setter is the outcome of the
    construction, which then returns no customer; with arguments that are
    absent, empty or matched by their pattern the construction returns a
    new customer holding the non-empty ones. *)
Theorem Customer_new_validates (name : str) (email phone city : option str)
    (customer_id : option str) (w : World) :
  (∀ e, email = Some e → e ≠ [] → ¬ PyMatches EMAIL_RE e →
   ∃ self w0 err,
     err = ValidationError (str_of "Invalid email: " ++ e) ∧
     Person_email_setter self e w0 = (Raise err, w0) ∧
     Customer_new name email phone city customer_id w = (Raise err, w0) ∧
     heap w ⊆ heap w0 ∧ heap w0 !! self = Some
       (PersonObj {| _name := name; _email := None; _phone := None |})) ∧
  (∀ p, acceptable EMAIL_RE email →
        phone = Some p → p ≠ [] → ¬ PyMatches PHONE_RE p →
   ∃ self w1 err,
     err = ValidationError (str_of "Invalid phone number: " ++ p) ∧
     Person_phone_setter self p w1 = (Raise err, w1) ∧
     Customer_new name email phone city customer_id w = (Raise err, w1) ∧
     heap w ⊆ heap w1 ∧ heap w1 !! self = Some
       (PersonObj {| _name := name; _email := supplied email; _phone := None |})) ∧
  (acceptable EMAIL_RE email → acceptable PHONE_RE phone →
   ∃ self w',
     Customer_new name email phone city customer_id w = (Ok self, w') ∧
     heap w !! self = None ∧
     heap w' = <[self := CustomerObj
                   {| person := {| _name := name; _email := supplied email;
                                   _phone := supplied phone |};
                      city := city;
                      customer_id := or_generated customer_id w;
                      _orders := [] |}]> (heap w)).
Proof.
  pose proof (fresh_heap_None w) as Hfresh.
  assert (heap (after_base_assignments name w) !! fresh (dom (heap w)) =
          Some (PersonObj {| _name := name; _email := None; _phone := None |}))
    as Hbase.
  { unfold after_base_assignments. simpl. by rewrite lookup_insert_eq. }
  split_and!.
  - intros e -> Hne Hno. destruct e as [|c value]; [done|].
    exists (fresh (dom (heap w))), (after_base_assignments name w),
      (ValidationError (str_of "Invalid email: " ++ c :: value)).
    split; [done|].
    rewrite Customer_new_unfold. cbv zeta. unfold bind.
    rewrite !email_setter_rejects by done.
    split_and!; [done..| |done].
    unfold after_base_assignments. cbn [heap with_heap].
    by apply insert_subseteq.
  - intros p Hemail -> Hne Hno. destruct p as [|c value]; [done|].
    exists (fresh (dom (heap w))),
      (with_heap
         (<[fresh (dom (heap w)) :=
              PersonObj {| _name := name; _email := supplied email;
                           _phone := None |}]>
            (heap (after_base_assignments name w)))
         (after_base_assignments name w)),
      (ValidationError (str_of "Invalid phone number: " ++ c :: value)).
    split; [done|].
    rewrite Customer_new_unfold. cbv zeta. unfold bind.
    rewrite (email_step _ _ _ _ Hbase Hemail).
    rewrite !phone_setter_rejects by done.
    split_and!; [done..| |].
    + unfold after_base_assignments. cbn [heap with_heap].
      rewrite insert_insert_eq. by apply insert_subseteq.
    + cbn [heap with_heap]. by rewrite lookup_insert_eq.
  - intros Hemail Hphone.
    assert (∀ w2 : World, heap w2 = heap w →
            ∃ w', (Ok (fresh (dom (heap w))),
                   with_heap
                     (<[fresh (dom (heap w)) := CustomerObj
                          {| person := {| _name := name;
                                          _email := if truthy email then email else None;
                                          _phone := if truthy phone then phone else None |};
                             city := city;
                             customer_id := or_generated customer_id w;
                             _orders := [] |}]>
                        (<[fresh (dom (heap w)) := PersonObj
                             {| _name := name;
                                _email := if truthy email then email else None;
                                _phone := if truthy phone then phone else None |}]>
                           (<[fresh (dom (heap w)) := PersonObj
                                {| _name := name;
                                   _email := if truthy email then email else None;
                                   _phone := None |}]>
                              (<[fresh (dom (heap w)) := PersonObj
                                   {| _name := name; _email := None;
                                      _phone := None |}]> (heap w2)))))
                     w2) = (Ok (fresh (dom (heap w))), w') ∧
                  heap w' = <[fresh (dom (heap w)) := CustomerObj
                     {| person := {| _name := name; _email := supplied email;
                                     _phone := supplied phone |};
                        city := city;
                        customer_id := or_generated customer_id w;
                        _orders := [] |}]> (heap w)) as Hfinal.
    { intros w2 Hw2. eexists. split; [done|].
      cbn [heap with_heap]. by rewrite !insert_insert_eq, Hw2. }
    exists (fresh (dom (heap w))).
    rewrite Customer_new_unfold. cbv zeta. unfold bind.
    rewrite (email_step _ _ _ _ Hbase Hemail).
    erewrite phone_step; [|cbn [heap with_heap]; apply lookup_insert_eq|done].
    destruct customer_id as [[|c id]|]; cbn [ret _generate_id];
      unfold get_Person, put; cbn [heap with_heap after_base_assignments];
      rewrite lookup_insert_eq; cbn [_name _email _phone].
    + destruct (Hfinal (snd (_generate_id w)) eq_refl) as (w' & Heq & Hheap).
      exists w'. split_and!; [|done..]. rewrite <- Heq. reflexivity.
    + destruct (Hfinal w eq_refl) as (w' & Heq & Hheap).
      exists w'. split_and!; [|done..]. rewrite <- Heq. reflexivity.
    + destruct (Hfinal (snd (_generate_id w)) eq_refl) as (w' & Heq & Hheap).
      exists w'. split_and!; [|done..]. rewrite <- Heq. reflexivity.
Qed.

End person.

(** *** Order *)

Lemma Order_new_unfold add_order customer items created_at order_id w :
  Order_new add_order customer items created_at order_id w =
    let self := fresh (dom (heap w)) in
    match add_order customer self
            (before_registration customer items created_at order_id w) with
    | (Ok _, w') => (Ok self, w')
    | (Raise e, w') =>
      if isinstance_Exception e then (Ok self, w') else (Raise e, w')
    end.
Proof.
  assert (∀ w0 : World,
            with_heap (<[fresh (dom (heap w)) :=
                           OrderObj (new_order customer items created_at order_id w)]>
                         (<[fresh (dom (heap w)) := NewObject]> (heap w))) w0 =
            {| heap := <[fresh (dom (heap w)) :=
                          OrderObj (new_order customer items created_at order_id w)]>
                         (heap w);
               urandom := urandom w0; urandom_calls := urandom_calls w0;
               clock := clock w0; clock_reads := clock_reads w0 |}) as Hput.
  { intros w0. unfold with_heap. by rewrite insert_insert_eq. }
  unfold Order_new, Order_init, bind, new_object, put, try_except_Exception.
  cbv zeta.
  destruct order_id as [[|c id]|], created_at as [t|];
    cbn [ret _generate_id utcnow heap with_heap urandom urandom_calls
         clock clock_reads];
    unfold new_order, or_generated, or_now in Hput;
    cbn [heap with_heap urandom urandom_calls clock clock_reads] in Hput;
    rewrite Hput;
    unfold before_registration, new_order, or_generated, or_now;
    cbn [truthy heap with_heap urandom urandom_calls clock clock_reads];
    match goal with
    | |- context [add_order customer ?self ?w1] =>
      destruct (add_order customer self w1) as [[[]|e] w2]
    end; try destruct (isinstance_Exception e); reflexivity.
Qed.

(** C4, as the code has it: before the registration is attempted the new
    order has its identifier, customer, items and creation time; the
    construction then returns the order when [add_order] returns and when
    it raises an exception derived from [Exception], which is swallowed;
    an exception that is not derived from [Exception] leaves the
    constructor, and no order is returned. *)
Theorem Order_new_swallows_Exception (add_order : loc → loc → M unit)
    (customer : loc) (items : option (list loc))
    (created_at : option datetime) (order_id : option str) (w : World) :
  ∃ self w1,
    heap w !! self = None ∧
    heap w1 = <[self := OrderObj (new_order customer items created_at order_id w)]>
                (heap w) ∧
    Models.order_id (new_order customer items created_at order_id w) ≠ [] ∧
    ∀ outcome w2, add_order customer self w1 = (outcome, w2) →
      Order_new add_order customer items created_at order_id w =
        (match outcome with
         | Ok _ => Ok self
         | Raise e => if isinstance_Exception e then Ok self else Raise e
         end, w2).
Proof.
  exists (fresh (dom (heap w))),
    (before_registration customer items created_at order_id w).
  split_and!; [apply fresh_heap_None|done|apply or_generated_nonempty|].
  intros outcome w2 Hreg. rewrite Order_new_unfold. cbv zeta. rewrite Hreg.
  destruct outcome as [[]|e]; [done|]. by destruct (isinstance_Exception e).
Qed.

(** C5: constructing an order against a customer returns a new order and
    appends it to the customer's list, so [orders()] is the previous list
    followed by this very order; from an empty list it has length one and
    its element is the constructed order. *)
Theorem Order_new_registers (customer : loc) (c : Customer)
    (items : option (list loc)) (created_at : option datetime)
    (order_id : option str) (w : World) :
  heap w !! customer = Some (CustomerObj c) →
  ∃ self w',
    Order_new Customer_add_order customer items created_at order_id w =
      (Ok self, w') ∧
    heap w !! self = None ∧
    heap w' !! self =
      Some (OrderObj (new_order customer items created_at order_id w)) ∧
    Customer_orders customer w' = (Ok (_orders c ++ [self]), w') ∧
    (_orders c = [] →
     ∃ registered, Customer_orders customer w' = (Ok registered, w') ∧
                   length registered = 1 ∧ registered !! 0 = Some self).
Proof.
  intros Hc. pose proof (lookup_fresh_ne _ _ _ Hc) as Hne.
  exists (fresh (dom (heap w))). eexists.
  assert (heap (before_registration customer items created_at order_id w)
            !! customer = Some (CustomerObj c)) as Hc'.
  { unfold before_registration. cbn [heap]. by rewrite lookup_insert_ne. }
  rewrite Order_new_unfold. cbv zeta.
  unfold Customer_add_order at 1. unfold bind, get_Customer, put.
  rewrite Hc'.
  assert (∀ w', heap w' !! customer =
                  Some (CustomerObj {| person := person c; city := city c;
                                       customer_id := customer_id c;
                                       _orders := _orders c ++ [fresh (dom (heap w))] |}) →
          Customer_orders customer w' = (Ok (_orders c ++ [fresh (dom (heap w))]), w'))
    as Horders.
  { intros w' Hw'. unfold Customer_orders, bind, get_Customer. by rewrite Hw'. }
  split_and!; [done|apply fresh_heap_None| | |].
  - cbn [heap with_heap before_registration].
    rewrite lookup_insert_ne by done. apply lookup_insert_eq.
  - apply Horders. cbn [heap with_heap]. apply lookup_insert_eq.
  - intros Hempty. eexists. split.
    + apply Horders. cbn [heap with_heap]. apply lookup_insert_eq.
    + by rewrite Hempty.
Qed.

(** *** The unit tests and other concrete runs *)

Example not_an_email_rejected :
  ¬ PyMatches (U := ascii_only) EMAIL_RE (str_of "not-an-email").
Proof. by apply re_match_false. Qed.

Example abc_phone_rejected :
  ¬ PyMatches (U := ascii_only) PHONE_RE (str_of "abc").
Proof. by apply re_match_false. Qed.

Example example_email_accepted :
  PyMatches (U := ascii_only) EMAIL_RE (str_of "a@example.com").
Proof. by apply re_match_spec. Qed.

Example example_phone_accepted :
  PyMatches (U := ascii_only) PHONE_RE (str_of "+1234567890").
Proof. by apply re_match_spec. Qed.

(** [$] also stands before a final newline. *)
Example email_with_final_newline_accepted :
  PyMatches (U := ascii_only) EMAIL_RE (str_of "a@b.c" ++ [newline]).
Proof. by apply re_match_spec. Qed.

Example test_order_and_items :
  fst (order_and_items empty_world) = Ok ([4%positive], 4%positive, twenty).
Proof. vm_compute. reflexivity. Qed.

Lemma Person_setters_validate_witness :
  (¬ PyMatches (U := ascii_only) EMAIL_RE (str_of "not-an-email") →
   Person_email_setter (U := ascii_only) 1%positive (str_of "not-an-email")
     ivan_world =
     (Raise (ValidationError (str_of "Invalid email: " ++ str_of "not-an-email")),
      ivan_world)) ∧
  (PyMatches (U := ascii_only) EMAIL_RE (str_of "not-an-email") →
   ∃ w', Person_email_setter (U := ascii_only) 1%positive
           (str_of "not-an-email") ivan_world = (Ok tt, w') ∧
         Person_email 1%positive w' = (Ok (Some (str_of "not-an-email")), w') ∧
         Person_phone 1%positive w' = (Ok (_phone ivan), w') ∧
         (∀ l, l ≠ 1%positive → heap w' !! l = heap ivan_world !! l)) ∧
  (¬ PyMatches (U := ascii_only) PHONE_RE (str_of "not-an-email") →
   Person_phone_setter (U := ascii_only) 1%positive (str_of "not-an-email")
     ivan_world =
     (Raise (ValidationError
               (str_of "Invalid phone number: " ++ str_of "not-an-email")),
      ivan_world)) ∧
  (PyMatches (U := ascii_only) PHONE_RE (str_of "not-an-email") →
   ∃ w', Person_phone_setter (U := ascii_only) 1%positive
           (str_of "not-an-email") ivan_world = (Ok tt, w') ∧
         Person_phone 1%positive w' = (Ok (Some (str_of "not-an-email")), w') ∧
         Person_email 1%positive w' = (Ok (_email ivan), w') ∧
         (∀ l, l ≠ 1%positive → heap w' !! l = heap ivan_world !! l)).
Proof.
  apply (Person_setters_validate (U := ascii_only) 1%positive ivan
           (str_of "not-an-email") ivan_world).
  vm_compute. reflexivity.
Defined.

Lemma Customer_new_skips_empty_email :
  ∃ self w',
    Customer_new (U := ascii_only) (str_of "Ivan") (Some []) None None None
      empty_world = (Ok self, w') ∧
    Person_email self w' = (Ok None, w') ∧
    Person_email_setter (U := ascii_only) self [] w' =
      (Raise (ValidationError (str_of "Invalid email: " ++ [])), w').
Proof.
  exists 1%positive,
    (snd (Customer_new (U := ascii_only) (str_of "Ivan") (Some []) None None
            None empty_world)).
  split_and!; vm_compute; reflexivity.
Qed.

Lemma Order_new_KeyboardInterrupt_escapes :
  ∃ self w1,
    interrupted_add_order 1%positive self w1 = (Raise KeyboardInterrupt, w1) ∧
    Order_new interrupted_add_order 1%positive None None None ivan_world =
      (Raise KeyboardInterrupt, w1).
Proof.
  exists 2%positive,
    (before_registration 1%positive None None None ivan_world).
  split; [reflexivity|]. rewrite Order_new_unfold. reflexivity.
Qed.

(** A person passed as the customer: the registration raises
    [AttributeError], and the order is returned. *)
Lemma Order_new_swallows_Exception_witness :
  ∃ self w',
    Order_new Customer_add_order 1%positive None (Some 5%Z) None person_world =
      (Ok self, w') ∧
    heap w' !! self =
      Some (OrderObj (new_order 1%positive None (Some 5%Z) None person_world)) ∧
    heap w' !! 1%positive = Some (PersonObj ivan).
Proof.
  destruct (Order_new_swallows_Exception Customer_add_order 1%positive None
              (Some 5%Z) None person_world) as (self & w1 & Hfresh & Hheap & _ & Hrun).
  assert (heap person_world !! 1%positive = Some (PersonObj ivan)) as Hperson
    by (vm_compute; reflexivity).
  assert (self ≠ 1%positive) as Hne.
  { intros Heq. rewrite Heq in Hfresh. unfold loc in *. congruence. }
  assert (heap w1 !! 1%positive = Some (PersonObj ivan)) as Hperson1.
  { rewrite Hheap. by rewrite lookup_insert_ne. }
  exists self, w1. split_and!; [|by rewrite Hheap, lookup_insert_eq|done].
  apply (Hrun (Raise AttributeError) w1).
  unfold Customer_add_order, bind, get_Customer. unfold loc in *.
  by rewrite Hperson1.
Defined.

Lemma Order_new_registers_witness :
  ∃ self w',
    Order_new Customer_add_order 1%positive None None None ivan_world =
      (Ok self, w') ∧
    heap ivan_world !! self = None ∧
    heap w' !! self =
      Some (OrderObj (new_order 1%positive None None None ivan_world)) ∧
    Customer_orders 1%positive w' = (Ok ([] ++ [self]), w') ∧
    (([] : list loc) = [] →
     ∃ registered, Customer_orders 1%positive w' = (Ok registered, w') ∧
                   length registered = 1 ∧ registered !! 0 = Some self).
Proof.
  apply (Order_new_registers 1%positive
           {| person := ivan; city := None;
              customer_id := or_generated None empty_world;
              _orders := [] |} None None None ivan_world).
  vm_compute. reflexivity.
Defined.

Lemma Product_new_validates_witness :
  (∃ w', Product_new (str_of "X") minus_one None empty_world =
           (Raise (ValidationError (str_of "Price cannot be negative")), w') ∧
         heap empty_world ⊆ heap w') ∧
  (∃ self w' s,
     Product_new (str_of "Widget") ten None empty_world = (Ok self, w') ∧
     heap empty_world !! self = None ∧
     heap w' = <[self := ProductObj {| name := str_of "Widget"; price := ten;
                                       sku := Some s |}]> (heap empty_world) ∧
     s ≠ [] ∧ s = or_generated None empty_world).
Proof.
  split.
  - apply (Product_new_validates (str_of "X") minus_one None empty_world).
    reflexivity.
  - apply (Product_new_validates (str_of "Widget") ten None empty_world).
    reflexivity.
Defined.

Lemma OrderItem_new_validates_witness :
  (∃ w', OrderItem_new 1%positive 0 widget_world =
           (Raise (ValidationError (str_of "Quantity must be > 0")), w') ∧
         heap widget_world ⊆ heap w') ∧
  (∃ self w',
     OrderItem_new 1%positive 2 widget_world = (Ok self, w') ∧
     heap widget_world !! self = None ∧
     OrderItem_cost self w' = (Ok twenty, w') ∧
     ∃ w3, Product_set_price 1%positive twenty w' = (Ok tt, w3) ∧
           OrderItem_cost self w3 = (Ok forty, w3)).
Proof.
  split.
  - apply (OrderItem_new_validates 1%positive 0 widget_world). lia.
  - destruct (OrderItem_new_validates 1%positive 2 widget_world) as [_ Hpos].
    destruct Hpos as (self & w' & Hnew & Hfresh & Hheap & Hcost & Hset); [lia|].
    assert (heap widget_world !! 1%positive =
            Some (ProductObj {| name := str_of "Widget"; price := ten;
                                sku := Some (or_generated None empty_world) |}))
      as Hwidget by (vm_compute; reflexivity).
    assert (1%positive ≠ self) as Hne.
    { intros <-. unfold loc in *. rewrite Hwidget in Hfresh. discriminate. }
    assert (heap w' !! 1%positive =
            Some (ProductObj {| name := str_of "Widget"; price := ten;
                                sku := Some (or_generated None empty_world) |}))
      as Hp.
    { rewrite Hheap. unfold loc in *. rewrite lookup_insert_ne by done.
      exact Hwidget. }
    exists self, w'. split_and!; [exact Hnew|exact Hfresh| |].
    + rewrite (Hcost w' _ eq_refl Hp). reflexivity.
    + destruct (Hset w' _ twenty eq_refl Hp Hne) as (w3 & Hsp & _ & Hc3).
      exists w3. split; [exact Hsp|]. rewrite Hc3. reflexivity.
Defined.

Lemma Customer_new_validates_witness :
  (∃ self w0 err,
     err = ValidationError (str_of "Invalid email: " ++ str_of "not-an-email") ∧
     Person_email_setter (U := ascii_only) self (str_of "not-an-email") w0 =
       (Raise err, w0) ∧
     Customer_new (U := ascii_only) (str_of "Ivan")
       (Some (str_of "not-an-email")) None None None empty_world =
       (Raise err, w0) ∧
     heap empty_world ⊆ heap w0 ∧
     heap w0 !! self = Some (PersonObj ivan)) ∧
  (∃ self w',
     Customer_new (U := ascii_only) (str_of "Ann")
       (Some (str_of "a@example.com")) (Some (str_of "+1234567890")) None None
       empty_world = (Ok self, w') ∧
     heap empty_world !! self = None ∧
     heap w' = <[self := CustomerObj
                   {| person := {| _name := str_of "Ann";
                                   _email := supplied (Some (str_of "a@example.com"));
                                   _phone := supplied (Some (str_of "+1234567890")) |};
                      city := None;
                      customer_id := or_generated None empty_world;
                      _orders := [] |}]> (heap empty_world)).
Proof.
  split.
  - destruct (Customer_new_validates (U := ascii_only) (str_of "Ivan")
                (Some (str_of "not-an-email")) None None None empty_world)
      as [Hemail _].
    apply (Hemail (str_of "not-an-email")); [reflexivity|discriminate|].
    apply not_an_email_rejected.
  - destruct (Customer_new_validates (U := ascii_only) (str_of "Ann")
                (Some (str_of "a@example.com")) (Some (str_of "+1234567890"))
                None None empty_world) as (_ & _ & Hok).
    apply Hok; [apply example_email_accepted|apply example_phone_accepted].
Defined.

End ModelsFacts.

(** ** Further facts about the ordering routine *)

Module UtilsSortMore.
Import PyList UtilsSort UtilsSortFacts.

Section more.
Context {A K : Type}.
Variable key : A → K.
Variables key_lt key_eq key_gt : K → K → bool.
Hypothesis Hord : TotalOrder key_lt key_eq key_gt.

Abbreviation sorts := (sorts_to key key_lt key_eq key_gt).
Abbreviation sort := (sort_orders key key_lt key_eq key_gt).
Abbreviation key_le := (UtilsSort.key_le key_lt key_eq).
Abbreviation nondecreasing := (UtilsSort.nondecreasing key key_lt key_eq).
Abbreviation with_key := (UtilsSort.with_key key key_eq).

(** What a call returns is what the algorithm on values computes. *)
Lemma sorts_to_value orders reverse result :
  sorts orders reverse result → sort orders reverse = Some result.
Proof.
  intros Hsorts.
  destruct (sort_orders_total key key_lt key_eq key_gt Hord orders reverse)
    as [value Hvalue].
  destruct (Hsorts {[ 1%positive := orders ]} 1%positive)
    as (r & s' & Hrun & Hr); [apply lookup_singleton_eq|].
  destruct (qs_refines key key_lt key_eq key_gt {[ 1%positive := orders ]}
              1%positive orders reverse value)
    as (r' & s'' & Hrun' & _ & _ & Hr'); [apply lookup_singleton_eq|done|].
  rewrite Hrun in Hrun'. injection Hrun' as <- <-. congruence.
Qed.

Lemma with_key_cons k x (l : list A) :
  with_key k (x :: l) =
    if key_eq (key x) k then x :: with_key k l else with_key k l.
Proof. reflexivity. Qed.

Lemma elem_of_with_key k x (l : list A) :
  x ∈ with_key k l → x ∈ l ∧ key x = k.
Proof.
  unfold UtilsSort.with_key. rewrite !list_elem_of_In, filter_In.
  intros [Hin Heq]. split; [done|]. by apply (eq_spec _ _ _ Hord).
Qed.

Lemma nondecreasing_cons x (l : list A) :
  nondecreasing (x :: l) →
  nondecreasing l ∧ ∀ y, y ∈ l → key_le (key x) (key y) = true.
Proof.
  unfold UtilsSort.nondecreasing. rewrite fmap_cons, StronglySorted_cons.
  intros [Hall Hsorted]. split; [done|]. intros y Hy.
  rewrite list.Forall_forall in Hall. apply Hall.
  apply list_elem_of_fmap. eauto.
Qed.

Lemma key_le_antisym a b :
  key_le a b = true → key_le b a = true → a = b.
Proof.
  unfold UtilsSort.key_le.
  destruct (key_trichotomy key key_lt key_eq key_gt Hord a b)
    as [(Hlt & Heq & _)|[(_ & Heq & _)|(Hlt & Heq & Hgt)]].
  - intros _. rewrite (key_lt_asym key key_lt key_eq key_gt Hord a b Hlt).
    rewrite (key_eq_sym key key_lt key_eq key_gt Hord), Heq. done.
  - intros _ _. by apply (eq_spec _ _ _ Hord).
  - by rewrite Hlt, Heq.
Qed.

(** A sequence with non-decreasing keys is determined by the elements it
    has under each key, in their order. *)
Lemma sorted_stable_unique (l1 l2 : list A) :
  nondecreasing l1 → nondecreasing l2 →
  (∀ k, with_key k l1 = with_key k l2) → l1 = l2.
Proof.
  revert l2. induction l1 as [|x l1 IH]; intros l2 Hs1 Hs2 Hsame.
  - destruct l2 as [|y l2]; [done|].
    specialize (Hsame (key y)). rewrite with_key_cons in Hsame.
    by rewrite (key_eq_refl key key_lt key_eq key_gt Hord) in Hsame.
  - destruct l2 as [|y l2].
    { specialize (Hsame (key x)). rewrite with_key_cons in Hsame.
      by rewrite (key_eq_refl key key_lt key_eq key_gt Hord) in Hsame. }
    apply nondecreasing_cons in Hs1 as [Hs1 Hx].
    apply nondecreasing_cons in Hs2 as [Hs2 Hy].
    assert (key y = key x) as Hkey.
    { destruct (key_eq (key y) (key x)) eqn:Hyx;
        [by apply (eq_spec _ _ _ Hord)|].
      pose proof (Hsame (key x)) as Hkx. pose proof (Hsame (key y)) as Hky.
      rewrite !with_key_cons in Hkx, Hky.
      rewrite Hyx, (key_eq_refl key key_lt key_eq key_gt Hord) in Hkx.
      rewrite (key_eq_sym key key_lt key_eq key_gt Hord), Hyx,
        (key_eq_refl key key_lt key_eq key_gt Hord) in Hky.
      assert (x ∈ l2) as Hx2.
      { eapply elem_of_with_key. rewrite <- Hkx. by left. }
      assert (y ∈ l1) as Hy1.
      { eapply elem_of_with_key. rewrite Hky. by left. }
      symmetry. apply key_le_antisym; auto. }
    pose proof (Hsame (key x)) as Hkx. rewrite !with_key_cons, Hkey in Hkx.
    rewrite (key_eq_refl key key_lt key_eq key_gt Hord) in Hkx.
    injection Hkx as <- Htail. f_equal. apply IH; [done..|].
    intros k. specialize (Hsame k). rewrite !with_key_cons in Hsame.
    destruct (key_eq (key x) k); [by injection Hsame|done].
Qed.

Lemma sorts_false_spec orders result :
  sort orders false = Some result →
  nondecreasing result ∧ ∀ k, with_key k result = with_key k orders.
Proof.
  intros Hrun. split.
  - by eapply sort_rec_nondecreasing.
  - intros k. by eapply sort_rec_stable.
Qed.

Lemma sorts_candidate orders candidate :
  nondecreasing candidate →
  (∀ k, with_key k candidate = with_key k orders) →
  sorts orders false candidate.
Proof.
  intros Hsorted Hsame.
  destruct (sort_orders_total key key_lt key_eq key_gt Hord orders false)
    as [result Hrun].
  destruct (sorts_false_spec _ _ Hrun) as [Hres Hstable].
  assert (candidate = result) as ->.
  { apply sorted_stable_unique; [done..|]. intros k. by rewrite Hsame, Hstable. }
  by apply sorts_to_intro.
Qed.

(** X1: with [reverse=False] the routine returns the one arrangement of
    the input that has non-decreasing keys and keeps orders of equal key
    in input order: any sequence with these two properties is what the
    call returns. *)
Theorem quicksort_orders_is_the_stable_sort (orders candidate : list A) :
  nondecreasing candidate →
  (∀ k, with_key k candidate = with_key k orders) →
  sorts_to key key_lt key_eq key_gt orders false candidate ∧
  (∀ result, sorts_to key key_lt key_eq key_gt orders false result →
             result = candidate).
Proof.
  intros Hsorted Hsame. split; [by apply sorts_candidate|].
  intros result Hres%sorts_to_value.
  pose proof (sorts_to_value _ _ _ (sorts_candidate _ _ Hsorted Hsame)).
  congruence.
Qed.

(** X2: an input whose keys are already non-decreasing comes back in the
    same order, so sorting the result of an ascending sort again changes
    nothing. *)
Theorem quicksort_orders_sorted_input (orders : list A) :
  (nondecreasing orders →
   sorts_to key key_lt key_eq key_gt orders false orders) ∧
  (∀ result, sorts_to key key_lt key_eq key_gt orders false result →
             sorts_to key key_lt key_eq key_gt result false result).
Proof.
  split.
  - intros Hsorted. by apply sorts_candidate.
  - intros result Hres%sorts_to_value.
    destruct (sorts_false_spec _ _ Hres) as [Hsorted _].
    by apply sorts_candidate.
Qed.

(** X3: with [reverse=True] and more than one order, the result begins
    with the orders whose key is greater than the pivot's, continues with
    the orders that have the pivot's key in reversed input order, and ends
    with the orders whose key is smaller. *)
Theorem quicksort_orders_reverse_top_level (orders result : list A) :
  1 < length orders →
  sorts_to key key_lt key_eq key_gt orders true result →
  ∃ pivot above below,
    orders !! (length orders / 2) = Some pivot ∧
    result = above ++ rev (with_key (key pivot) orders) ++ below ∧
    above ≡ₚ List.filter (λ o, key_gt (key o) (key pivot)) orders ∧
    below ≡ₚ List.filter (λ o, key_lt (key o) (key pivot)) orders ∧
    Forall (λ o, key_lt (key pivot) (key o) = true) above ∧
    Forall (λ o, key_lt (key o) (key pivot) = true) below.
Proof.
  intros Hlen Hres%sorts_to_value.
  destruct (sorts_to_step key key_lt key_eq key_gt Hord orders true Hlen)
    as (pivot & sl & sg & Hp & Hl%sorts_to_value & Hg%sorts_to_value & Heq).
  rewrite Hres in Heq. injection Heq as ->.
  apply (sort_rec_perm key key_lt key_eq key_gt Hord) in Hl, Hg.
  exists pivot, (rev sg), (rev sl).
  assert (rev sg ≡ₚ List.filter (λ o, key_gt (key o) (key pivot)) orders)
    as Habove by (by rewrite <- Permutation_rev).
  assert (rev sl ≡ₚ List.filter (λ o, key_lt (key o) (key pivot)) orders)
    as Hbelow by (by rewrite <- Permutation_rev).
  split_and!; [done| |done|done| |].
  - cbv zeta. rewrite !rev_app_distr. by rewrite <- (assoc_L (++)).
  - apply list.Forall_forall. intros o Ho. rewrite Habove in Ho.
    by apply (elem_of_greater key key_lt key_eq key_gt Hord pivot orders).
  - apply list.Forall_forall. intros o Ho. rewrite Hbelow in Ho.
    by apply (elem_of_less key key_lt key_eq key_gt Hord pivot orders).
Qed.

Lemma filter_all (p : A → bool) (l : list A) :
  (∀ x, x ∈ l → p x = true) → List.filter p l = l.
Proof.
  induction l as [|x l IH]; intros Hall; [done|]. simpl.
  rewrite (Hall x) by (by left). f_equal. apply IH.
  intros y Hy. apply Hall. by right.
Qed.

Lemma filter_none (p : A → bool) (l : list A) :
  (∀ x, x ∈ l → p x = false) → List.filter p l = [].
Proof.
  induction l as [|x l IH]; intros Hall; [done|]. simpl.
  rewrite (Hall x) by (by left). apply IH.
  intros y Hy. apply Hall. by right.
Qed.

(** X4: when all orders have the same key, [reverse=False] returns them
    in input order and [reverse=True] returns them in reversed input
    order. *)
Theorem quicksort_orders_equal_keys (orders : list A) :
  (∀ x y, x ∈ orders → y ∈ orders → key x = key y) →
  sorts_to key key_lt key_eq key_gt orders false orders ∧
  sorts_to key key_lt key_eq key_gt orders true (rev orders).
Proof.
  intros Hsame.
  assert (∀ reverse, sort orders reverse =
                     Some (if reverse then rev orders else orders)) as Hrun.
  { intros reverse. unfold sort_orders.
    destruct (Nat.le_gt_cases (length orders) 1) as [Hs|Hs].
    { rewrite sort_rec_short by done. f_equal.
      destruct reverse; [|done].
      by destruct orders as [|x [|y orders]]; simpl in Hs; [| |lia]. }
    destruct (pivot_lookup key key_lt key_eq key_gt orders Hs) as [pivot Hp].
    assert (pivot ∈ orders) as Hin by (by eapply list_elem_of_lookup_2).
    replace (length orders) with (S (length orders - 1)) at 1 by lia.
    rewrite sort_rec_step, Hp by done.
    rewrite (filter_none (λ o, key_lt (key o) (key pivot))),
      (filter_none (λ o, key_gt (key o) (key pivot))),
      (filter_all (λ o, key_eq (key o) (key pivot))).
    - rewrite !sort_rec_short by (simpl; lia). cbv zeta.
      by rewrite app_nil_r.
    - intros x Hx. rewrite (Hsame x pivot) by done.
      apply (key_eq_refl key key_lt key_eq key_gt Hord).
    - intros x Hx. rewrite (gt_spec _ _ _ Hord), (Hsame x pivot) by done.
      apply (lt_irrefl _ _ _ Hord).
    - intros x Hx. rewrite (Hsame x pivot) by done.
      apply (lt_irrefl _ _ _ Hord). }
  split; apply sorts_to_intro, Hrun.
Qed.

End more.

Lemma quicksort_orders_is_the_stable_sort_witness :
  sorts_to snd Z.ltb Z.eqb Z.gtb orders_212 false
    [(1, 1%Z); (0, 2%Z); (2, 2%Z)] ∧
  (∀ result, sorts_to snd Z.ltb Z.eqb Z.gtb orders_212 false result →
             result = [(1, 1%Z); (0, 2%Z); (2, 2%Z)]).
Proof.
  apply (quicksort_orders_is_the_stable_sort snd Z.ltb Z.eqb Z.gtb
           Z_total_order orders_212 [(1, 1%Z); (0, 2%Z); (2, 2%Z)]).
  - apply (sorts_false_spec snd Z.ltb Z.eqb Z.gtb Z_total_order orders_212).
    reflexivity.
  - apply (sorts_false_spec snd Z.ltb Z.eqb Z.gtb Z_total_order orders_212).
    reflexivity.
Defined.

Lemma quicksort_orders_sorted_input_witness :
  (nondecreasing snd Z.ltb Z.eqb [(1, 1%Z); (0, 2%Z); (2, 2%Z)] →
   sorts_to snd Z.ltb Z.eqb Z.gtb [(1, 1%Z); (0, 2%Z); (2, 2%Z)] false
     [(1, 1%Z); (0, 2%Z); (2, 2%Z)]) ∧
  (∀ result,
     sorts_to snd Z.ltb Z.eqb Z.gtb [(1, 1%Z); (0, 2%Z); (2, 2%Z)] false result →
     sorts_to snd Z.ltb Z.eqb Z.gtb result false result).
Proof.
  exact (quicksort_orders_sorted_input snd Z.ltb Z.eqb Z.gtb Z_total_order
           [(1, 1%Z); (0, 2%Z); (2, 2%Z)]).
Defined.

Lemma quicksort_orders_reverse_top_level_witness :
  ∃ pivot above below,
    orders_212 !! (length orders_212 / 2) = Some pivot ∧
    [(0, 2%Z); (2, 2%Z); (1, 1%Z)] =
      above ++ rev (with_key snd Z.eqb (snd pivot) orders_212) ++ below ∧
    above ≡ₚ List.filter (λ o, Z.gtb (snd o) (snd pivot)) orders_212 ∧
    below ≡ₚ List.filter (λ o, Z.ltb (snd o) (snd pivot)) orders_212 ∧
    Forall (λ o, Z.ltb (snd pivot) (snd o) = true) above ∧
    Forall (λ o, Z.ltb (snd o) (snd pivot) = true) below.
Proof.
  apply (quicksort_orders_reverse_top_level snd Z.ltb Z.eqb Z.gtb
           Z_total_order orders_212 [(0, 2%Z); (2, 2%Z); (1, 1%Z)]).
  - simpl. lia.
  - apply sorts_to_intro. reflexivity.
Defined.

Lemma quicksort_orders_equal_keys_witness :
  sorts_to snd Z.ltb Z.eqb Z.gtb [(0, 2%Z); (2, 2%Z)] false
    [(0, 2%Z); (2, 2%Z)] ∧
  sorts_to snd Z.ltb Z.eqb Z.gtb [(0, 2%Z); (2, 2%Z)] true
    (rev [(0, 2%Z); (2, 2%Z)]).
Proof.
  apply (quicksort_orders_equal_keys snd Z.ltb Z.eqb Z.gtb Z_total_order).
  intros x y Hx Hy.
  apply elem_of_cons in Hx as [->|Hx]; [|apply list_elem_of_singleton in Hx as ->];
    (apply elem_of_cons in Hy as [->|Hy];
       [|apply list_elem_of_singleton in Hy as ->]); reflexivity.
Defined.

End UtilsSortMore.

(** ** The contact patterns read as shapes *)

Module ContactShapesFacts.
Import Regex RegexFacts ContactShapes Models ModelsFacts.

Section shapes.
Context {U : Unicode}.

Abbreviation in_items items := (λ c, existsb (item_matches c) items = true).

Lemma Matches_CharIn items s :
  Matches (CharIn items) s ↔ ∃ c, s = [c] ∧ in_items items c.
Proof.
  split.
  - inversion 1; subst. eauto.
  - intros (c & -> & Hc). by constructor.
Qed.

Lemma Matches_Star_CharIn items s :
  Matches (Star (CharIn items)) s ↔ Forall (in_items items) s.
Proof.
  split.
  - intros H. remember (Star (CharIn items)) as r eqn:Hr.
    induction H as [| | | | | |r0 t1 t2 H1 _ H2 IH2]; try done.
    injection Hr as ->. apply Matches_CharIn in H1 as (c & -> & Hc).
    constructor; [done|]. by apply IH2.
  - induction 1 as [|c s Hc Hs IH]; [constructor|].
    apply (MStarApp _ [c] s); [by constructor|done].
Qed.

Lemma Matches_power_CharIn n items s :
  Matches (power n (CharIn items)) s ↔ length s = n ∧ Forall (in_items items) s.
Proof.
  revert s. induction n as [|n IH]; intros s; simpl.
  - rewrite Matches_Empty. split.
    + intros ->. by split.
    + intros [Hlen _]. by destruct s.
  - rewrite Matches_Seq. split.
    + intros (s1 & s2 & -> & (c & -> & Hc)%Matches_CharIn & [Hlen Hall]%IH).
      simpl. split; [by rewrite Hlen|by constructor].
    + intros [Hlen Hall]. destruct s as [|c s]; [done|].
      apply Forall_cons in Hall as [Hc Hall]. injection Hlen as Hlen.
      exists [c], s. split_and!; [done|by constructor|by apply IH].
Qed.

Lemma Matches_upto_CharIn n items s :
  Matches (upto n (CharIn items)) s ↔ length s ≤ n ∧ Forall (in_items items) s.
Proof.
  revert s. induction n as [|n IH]; intros s; simpl.
  - rewrite Matches_Empty. split.
    + intros ->. by split.
    + intros [Hlen _]. destruct s; [done|simpl in Hlen; lia].
  - rewrite Matches_Branch, Matches_Empty, Matches_Seq. split.
    + intros [->|(s1 & s2 & -> & (c & -> & Hc)%Matches_CharIn & [Hlen Hall]%IH)].
      * split; [simpl; lia|done].
      * simpl. split; [lia|by constructor].
    + intros [Hlen Hall]. destruct s as [|c s]; [by left|]. right.
      apply Forall_cons in Hall as [Hc Hall]. simpl in Hlen.
      exists [c], s. split_and!; [done|by constructor|apply IH; split; [lia|done]].
Qed.

Lemma Matches_plus_CharIn items s :
  Matches (plus (CharIn items)) s ↔ s ≠ [] ∧ Forall (in_items items) s.
Proof.
  unfold plus, max_repeat. rewrite Matches_Seq. split.
  - intros (s1 & s2 & -> & [Hlen Hall1]%Matches_power_CharIn &
            Hall2%Matches_Star_CharIn).
    split; [by destruct s1|by apply Forall_app].
  - intros [Hne Hall]. destruct s as [|c s]; [done|].
    apply Forall_cons in Hall as [Hc Hall].
    exists [c], s. split_and!; [done| |by apply Matches_Star_CharIn].
    apply Matches_power_CharIn. split; [done|by constructor].
Qed.

Lemma Matches_literal c s : Matches (CharIn [Literal c]) s ↔ s = [c].
Proof.
  rewrite Matches_CharIn. simpl. split.
  - intros (c' & -> & Hc). rewrite orb_false_r in Hc.
    by apply N.eqb_eq in Hc as ->.
  - intros ->. exists c. by rewrite N.eqb_refl.
Qed.

Lemma in_word_dot_hyphen c :
  existsb (item_matches c) [Category_word; Literal 46%N; Literal 45%N] =
    is_word_dot_hyphen c.
Proof.
  unfold is_word_dot_hyphen, is_word. simpl.
  by rewrite orb_false_r, !orb_assoc.
Qed.

Lemma in_word c : existsb (item_matches c) [Category_word] = is_word c.
Proof. unfold is_word. simpl. by rewrite orb_false_r. Qed.

Lemma in_digit c : existsb (item_matches c) [Category_digit] = isdecimal c.
Proof. simpl. by rewrite orb_false_r. Qed.

Lemma Forall_ext_eq (f g : char → bool) (s : str) :
  (∀ c, f c = g c) →
  Forall (λ c, f c = true) s ↔ Forall (λ c, g c = true) s.
Proof.
  intros Hfg. apply Forall_proper; [|done]. intros c. by rewrite Hfg.
Qed.

Lemma Matches_EMAIL_RE s : Matches EMAIL_RE s ↔ email_shape s.
Proof.
  unfold EMAIL_RE, email_shape.
  change (lit "@") with [Literal 64%N]. change (lit ".") with [Literal 46%N].
  change (Category_word :: lit ".-")
    with [Category_word; Literal 46%N; Literal 45%N].
  split.
  - intros (local & s1 & -> & [Hl1 Hl2]%Matches_plus_CharIn & H1)%Matches_Seq.
    apply Matches_Seq in H1 as (at_ & s2 & -> & ->%Matches_literal & H2).
    apply Matches_Seq in H2 as (domain & s3 & -> & [Hd1 Hd2]%Matches_plus_CharIn & H3).
    apply Matches_Seq in H3 as (dot & tld & -> & ->%Matches_literal &
                                [Ht1 Ht2]%Matches_plus_CharIn).
    exists local, domain, tld. split_and!; [done..| |done| |done|].
    + by apply (Forall_ext_eq _ _ _ in_word_dot_hyphen).
    + by apply (Forall_ext_eq _ _ _ in_word_dot_hyphen).
    + by apply (Forall_ext_eq _ _ _ in_word).
  - intros (local & domain & tld & -> & Hl1 & Hl2 & Hd1 & Hd2 & Ht1 & Ht2).
    apply MSeq.
    { apply Matches_plus_CharIn. split; [done|].
      by apply (Forall_ext_eq _ _ _ in_word_dot_hyphen). }
    apply MSeq; [by apply Matches_literal|].
    apply MSeq.
    { apply Matches_plus_CharIn. split; [done|].
      by apply (Forall_ext_eq _ _ _ in_word_dot_hyphen). }
    apply MSeq; [by apply Matches_literal|].
    apply Matches_plus_CharIn. split; [done|].
    by apply (Forall_ext_eq _ _ _ in_word).
Qed.

Lemma Matches_PHONE_RE s : Matches PHONE_RE s ↔ phone_shape s.
Proof.
  unfold PHONE_RE, phone_shape, optional, max_repeat.
  change (lit "+") with [Literal 43%N].
  change (15 - 7) with 8. change (1 - 0) with 1.
  split.
  - intros (sign & digits & -> & Hsign & Hdigits)%Matches_Seq.
    apply Matches_Seq in Hsign as (e & sign' & -> & ->%Matches_Empty & Hsign).
    apply Matches_Seq in Hdigits
      as (d1 & d2 & -> & [Hlen1 Hall1]%Matches_power_CharIn &
          [Hlen2 Hall2]%Matches_upto_CharIn).
    exists sign', (d1 ++ d2). split_and!; [done| | |rewrite length_app; lia..].
    + simpl in Hsign. apply Matches_Branch in Hsign as [->%Matches_Empty|Hsign];
        [by left|right].
      apply Matches_Seq in Hsign as (a & b & -> & ->%Matches_literal & ->%Matches_Empty).
      done.
    + apply Forall_app. split; by apply (Forall_ext_eq _ _ _ in_digit).
  - intros (sign & digits & -> & Hsign & Hall & Hlo & Hhi).
    apply MSeq.
    + apply (MSeq _ _ [] sign); [constructor|]. simpl.
      destruct Hsign as [->| ->]; [apply MBranchL; constructor|].
      apply MBranchR. apply (MSeq _ _ [43%N] []); [|constructor].
      by apply Matches_literal.
    + rewrite <- (take_drop 7 digits).
      rewrite <- (take_drop 7 digits) in Hall.
      apply Forall_app in Hall as [Hall1 Hall2].
      apply MSeq.
      * apply Matches_power_CharIn. split.
        -- rewrite length_take. lia.
        -- by apply (Forall_ext_eq _ _ _ in_digit).
      * apply Matches_upto_CharIn. split.
        -- rewrite length_drop. lia.
        -- by apply (Forall_ext_eq _ _ _ in_digit).
Qed.

(** X7: the email pattern accepts exactly the strings made of one or more
    word, dot or hyphen characters, an at sign, one or more word, dot or
    hyphen characters, a dot and one or more word characters, possibly
    followed by one newline. *)
Theorem email_pattern_shape (s : str) :
  re_match EMAIL_RE s = true ↔ up_to_final_newline email_shape s.
Proof.
  rewrite re_match_spec. unfold PyMatches, up_to_final_newline.
  rewrite Matches_EMAIL_RE. apply or_iff_compat_l.
  split; intros (s' & -> & Hs'); exists s'; by rewrite ?Matches_EMAIL_RE in *.
Qed.

(** X8: the phone pattern accepts exactly the strings made of an optional
    plus sign and 7 to 15 decimal digits, possibly followed by one
    newline. *)
Theorem phone_pattern_shape (s : str) :
  re_match PHONE_RE s = true ↔ up_to_final_newline phone_shape s.
Proof.
  rewrite re_match_spec. unfold PyMatches, up_to_final_newline.
  rewrite Matches_PHONE_RE. apply or_iff_compat_l.
  split; intros (s' & -> & Hs'); exists s'; by rewrite ?Matches_PHONE_RE in *.
Qed.

(** X9: a well-formed address or number followed by a newline passes the
    setter, and the getter then returns it with the newline. *)
Theorem setters_keep_final_newline (self : loc) (p : Person) (value : str)
    (w : World) :
  get_Person self w = (Ok p, w) →
  (email_shape value →
   ∃ w', Person_email_setter self (value ++ [newline]) w = (Ok tt, w') ∧
         Person_email self w' = (Ok (Some (value ++ [newline])), w')) ∧
  (phone_shape value →
   ∃ w', Person_phone_setter self (value ++ [newline]) w = (Ok tt, w') ∧
         Person_phone self w' = (Ok (Some (value ++ [newline])), w')).
Proof.
  intros Hget. split.
  - intros Hshape%Matches_EMAIL_RE.
    destruct (email_setter_accepts self p (value ++ [newline]) w Hget)
      as (w' & Hset & Hget' & _); [right; eauto|].
    exists w'. split; [done|].
    unfold Person_email, bind. by rewrite Hget'.
  - intros Hshape%Matches_PHONE_RE.
    destruct (phone_setter_accepts self p (value ++ [newline]) w Hget)
      as (w' & Hset & Hget' & _); [right; eauto|].
    exists w'. split; [done|].
    unfold Person_phone, bind. by rewrite Hget'.
Qed.

End shapes.

Lemma example_email_shape :
  email_shape (U := ascii_only) (str_of "a@example.com").
Proof.
  apply Matches_EMAIL_RE, accepts_spec. reflexivity.
Qed.

Lemma example_phone_shape :
  phone_shape (U := ascii_only) (str_of "+1234567890").
Proof.
  apply Matches_PHONE_RE, accepts_spec. reflexivity.
Qed.

Lemma setters_keep_final_newline_witness :
  (email_shape (U := ascii_only) (str_of "a@example.com") →
   ∃ w', Person_email_setter (U := ascii_only) 1%positive
           (str_of "a@example.com" ++ [newline]) ivan_world = (Ok tt, w') ∧
         Person_email 1%positive w' =
           (Ok (Some (str_of "a@example.com" ++ [newline])), w')) ∧
  (phone_shape (U := ascii_only) (str_of "a@example.com") →
   ∃ w', Person_phone_setter (U := ascii_only) 1%positive
           (str_of "a@example.com" ++ [newline]) ivan_world = (Ok tt, w') ∧
         Person_phone 1%positive w' =
           (Ok (Some (str_of "a@example.com" ++ [newline])), w')).
Proof.
  apply (setters_keep_final_newline (U := ascii_only) 1%positive ivan
           (str_of "a@example.com") ivan_world).
  vm_compute. reflexivity.
Defined.

End ContactShapesFacts.

(** ** Facts about the rest of the domain model *)

Module ModelsRestFacts.
Import Regex RegexFacts Models ModelsFacts ModelsRest.
Local Open Scope models_scope.

Local Arguments hex : simpl never.
Local Arguments uuid4_int : simpl never.
Local Arguments str_of : simpl never.

Section clients.
Context {U : Unicode} {B : Builtins}.

(** *** Calls that only read *)

Lemma reads_ret {X} (x : X) : reads (ret x).
Proof. done. Qed.

Lemma reads_raise {X} e : reads (@raise X e).
Proof. done. Qed.

Lemma reads_bind {X Y} (m : M X) (f : X → M Y) :
  reads m → (∀ x, reads (f x)) → reads (bind m f).
Proof.
  intros Hm Hf w. unfold bind. specialize (Hm w).
  destruct (m w) as [[x|e] w']; simpl in Hm; subst w'; [apply Hf|done].
Qed.

Lemma reads_get_Person self : reads (get_Person self).
Proof. intros w. unfold get_Person. by destruct (heap w !! self) as [[]|]. Qed.

Lemma reads_get_Customer self : reads (get_Customer self).
Proof. intros w. unfold get_Customer. by destruct (heap w !! self) as [[]|]. Qed.

Lemma reads_get_Order self : reads (get_Order self).
Proof. intros w. unfold get_Order. by destruct (heap w !! self) as [[]|]. Qed.

Lemma reads_get_OrderItem self : reads (get_OrderItem self).
Proof. intros w. unfold get_OrderItem. by destruct (heap w !! self) as [[]|]. Qed.

Lemma reads_get_Product self : reads (get_Product self).
Proof. intros w. unfold get_Product. by destruct (heap w !! self) as [[]|]. Qed.

Lemma reads_for_each {X Y} (f : X → M Y) (l : list X) :
  (∀ x, reads (f x)) → reads (for_each f l).
Proof.
  intros Hf. induction l as [|x l IH]; simpl; [apply reads_ret|].
  apply reads_bind; [done|]. intros y.
  apply reads_bind; [done|]. intros ys. apply reads_ret.
Qed.

Lemma reads_float_mul_int x n : reads (float_mul_int x n).
Proof.
  unfold float_mul_int. destruct (float_of_int n);
    [apply reads_ret|apply reads_raise].
Qed.

Lemma reads_OrderItem_cost self : reads (OrderItem_cost self).
Proof.
  apply reads_bind; [apply reads_get_OrderItem|]. intros i.
  apply reads_bind; [apply reads_get_Product|]. intros p.
  apply reads_float_mul_int.
Qed.

Lemma reads_Order_total_cost self : reads (Order_total_cost self).
Proof.
  apply reads_bind; [apply reads_get_Order|]. intros o.
  apply reads_bind; [apply reads_for_each, reads_OrderItem_cost|].
  intros costs. apply reads_ret.
Qed.

Lemma reads_Customer_total_spent self : reads (Customer_total_spent self).
Proof.
  apply reads_bind; [apply reads_get_Customer|]. intros c.
  apply reads_bind; [apply reads_for_each, reads_Order_total_cost|].
  intros totals. apply reads_ret.
Qed.

Lemma reads_Person_contact_summary self : reads (Person_contact_summary self).
Proof.
  apply reads_bind; [apply reads_get_Person|]. intros p. apply reads_ret.
Qed.

Lemma reads_Customer_contact_summary self :
  reads (Customer_contact_summary self).
Proof.
  apply reads_bind; [apply reads_get_Customer|]. intros c.
  apply reads_bind; [apply reads_Person_contact_summary|]. intros base.
  apply reads_ret.
Qed.

Lemma reads_contact_summary self : reads (contact_summary self).
Proof.
  intros w. unfold contact_summary.
  destruct (heap w !! self) as [[]|]; try done.
  - apply reads_Person_contact_summary.
  - apply reads_Customer_contact_summary.
Qed.

Lemma reads_Customer_orders self : reads (Customer_orders self).
Proof.
  apply reads_bind; [apply reads_get_Customer|]. intros c. apply reads_ret.
Qed.

Lemma reads_Order_items self : reads (Order_items self).
Proof.
  apply reads_bind; [apply reads_get_Order|]. intros o. apply reads_ret.
Qed.

(** *** Calls that change the heap *)

Lemma effect_refl w : effect w w.
Proof. by apply effect_none. Qed.

Lemma effect_reads {X} (m : M X) w : reads m → effect w (snd (m w)).
Proof. intros Hm. rewrite Hm. apply effect_refl. Qed.

Lemma grows_refl o : grows o o.
Proof. destruct o; simpl; done. Qed.

Lemma contacts_ok_none name :
  contacts_ok {| _name := name; _email := None; _phone := None |}.
Proof. split; by intros x [=]. Qed.

Lemma contacts_ok_email p value :
  contacts_ok p → PyMatches EMAIL_RE value →
  contacts_ok {| _name := _name p; _email := Some value; _phone := _phone p |}.
Proof.
  intros [He Hp] Hm. split; simpl; [|done]. by intros e [= <-].
Qed.

Lemma contacts_ok_phone p value :
  contacts_ok p → PyMatches PHONE_RE value →
  contacts_ok {| _name := _name p; _email := _email p; _phone := Some value |}.
Proof.
  intros [He Hp] Hm. split; simpl; [done|]. by intros e [= <-].
Qed.

Lemma effect_email_setter self value w :
  effect w (snd (Person_email_setter self value w)).
Proof.
  unfold Person_email_setter.
  destruct (re_match EMAIL_RE value) eqn:Hm; simpl; [|apply effect_refl].
  apply re_match_spec in Hm.
  unfold bind, get_Person.
  destruct (heap w !! self) as [[| |p|c| |]|] eqn:Hself;
    try apply effect_refl; unfold put_Person; rewrite Hself.
  - eapply effect_update; [done| | |done]; simpl; [done|].
    intros Hok. by apply contacts_ok_email.
  - eapply effect_update; [done| | |done]; simpl; [done|].
    intros [Hok Hid]. split; [|done]. by apply contacts_ok_email.
Qed.

Lemma effect_phone_setter self value w :
  effect w (snd (Person_phone_setter self value w)).
Proof.
  unfold Person_phone_setter.
  destruct (re_match PHONE_RE value) eqn:Hm; simpl; [|apply effect_refl].
  apply re_match_spec in Hm.
  unfold bind, get_Person.
  destruct (heap w !! self) as [[| |p|c| |]|] eqn:Hself;
    try apply effect_refl; unfold put_Person; rewrite Hself.
  - eapply effect_update; [done| | |done]; simpl; [done|].
    intros Hok. by apply contacts_ok_phone.
  - eapply effect_update; [done| | |done]; simpl; [done|].
    intros [Hok Hid]. split; [|done]. by apply contacts_ok_phone.
Qed.

Lemma effect_add_order self order w :
  effect w (snd (Customer_add_order self order w)).
Proof.
  unfold Customer_add_order, bind, get_Customer.
  destruct (heap w !! self) as [[| | |c| |]|] eqn:Hself; try apply effect_refl.
  eapply effect_update; [done| | |done]; simpl; [|done].
  split_and!; [done..|]. by apply prefix_app_r.
Qed.

Lemma effect_add_item self item w :
  effect w (snd (Order_add_item self item w)).
Proof.
  unfold Order_add_item, bind, get_Order.
  destruct (heap w !! self) as [[| | | | |o]|] eqn:Hself; try apply effect_refl.
  eapply effect_update; [done| | |done]; simpl; [|done].
  split_and!; [done..|]. by apply prefix_app_r.
Qed.

Lemma effect_Product_new name price sku w :
  effect w (snd (Product_new name price sku w)).
Proof.
  unfold Product_new, Product_post_init, bind, new_object, put, get_Product.
  simpl. rewrite lookup_insert_eq. simpl.
  destruct (SFltb price (S754_zero false)); simpl.
  - eapply effect_new; [apply fresh_heap_None| |]; simpl;
      [|by rewrite insert_insert_eq]. done.
  - destruct (truthy sku); simpl.
    + eapply effect_new; [apply fresh_heap_None| |]; simpl;
        [|by rewrite insert_insert_eq]. done.
    + eapply effect_new; [apply fresh_heap_None| |]; simpl;
        [|by rewrite !insert_insert_eq]. done.
Qed.

Lemma effect_OrderItem_new product quantity w :
  effect w (snd (OrderItem_new product quantity w)).
Proof.
  unfold OrderItem_new, OrderItem_post_init, bind, new_object, put,
    get_OrderItem.
  simpl. rewrite lookup_insert_eq. simpl.
  destruct (quantity <=? 0)%Z; simpl;
    (eapply effect_new; [apply fresh_heap_None| |]; simpl;
     [|by rewrite insert_insert_eq]; done).
Qed.

(** The two conditional assignments of [Person.__init__] on a person. *)
Lemma email_cond self email w p :
  heap w !! self = Some (PersonObj p) → contacts_ok p →
  ∃ r w' p',
    match email with
    | Some (c :: value) => Person_email_setter self (c :: value)
    | _ => ret tt
    end w = (r, w') ∧
    heap w' = <[self := PersonObj p']> (heap w) ∧
    contacts_ok p' ∧ _name p' = _name p.
Proof.
  intros Hself Hok.
  assert (∃ r w' p', @ret unit tt w = (r, w') ∧
                     heap w' = <[self := PersonObj p']> (heap w) ∧
                     contacts_ok p' ∧ _name p' = _name p) as Hskip.
  { exists (Ok tt), w, p. split_and!; [done| |done..]. by rewrite insert_id. }
  destruct email as [[|c value]|]; [done| |done].
  unfold Person_email_setter.
  destruct (re_match EMAIL_RE (c :: value)) eqn:Hm; simpl.
  - apply re_match_spec in Hm. unfold bind, get_Person. rewrite Hself.
    unfold put_Person. rewrite Hself. eexists _, _, _.
    split_and!; [done..|by apply contacts_ok_email|done].
  - exists (Raise (ValidationError (str_of "Invalid email: " ++ c :: value))), w, p.
    split_and!; [done| |done..]. by rewrite insert_id.
Qed.

Lemma phone_cond self phone w p :
  heap w !! self = Some (PersonObj p) → contacts_ok p →
  ∃ r w' p',
    match phone with
    | Some (c :: value) => Person_phone_setter self (c :: value)
    | _ => ret tt
    end w = (r, w') ∧
    heap w' = <[self := PersonObj p']> (heap w) ∧
    contacts_ok p' ∧ _name p' = _name p.
Proof.
  intros Hself Hok.
  assert (∃ r w' p', @ret unit tt w = (r, w') ∧
                     heap w' = <[self := PersonObj p']> (heap w) ∧
                     contacts_ok p' ∧ _name p' = _name p) as Hskip.
  { exists (Ok tt), w, p. split_and!; [done| |done..]. by rewrite insert_id. }
  destruct phone as [[|c value]|]; [done| |done].
  unfold Person_phone_setter.
  destruct (re_match PHONE_RE (c :: value)) eqn:Hm; simpl.
  - apply re_match_spec in Hm. unfold bind, get_Person. rewrite Hself.
    unfold put_Person. rewrite Hself. eexists _, _, _.
    split_and!; [done..|by apply contacts_ok_phone|done].
  - exists (Raise (ValidationError
                     (str_of "Invalid phone number: " ++ c :: value))), w, p.
    split_and!; [done| |done..]. by rewrite insert_id.
Qed.

(** [Person.__init__] leaves a person with valid contacts at [self]. *)
Lemma Person_init_effect self name email phone w :
  ∃ r w' p',
    Person_init self name email phone w = (r, w') ∧
    heap w' = <[self := PersonObj p']> (heap w) ∧
    contacts_ok p' ∧ _name p' = name.
Proof.
  unfold Person_init, bind, put. cbn [fst snd].
  set (w0 := with_heap _ w).
  assert (heap w0 !! self =
          Some (PersonObj {| _name := name; _email := None; _phone := None |}))
    as Hself by apply lookup_insert_eq.
  destruct (email_cond self email w0 _ Hself (contacts_ok_none name))
    as (r1 & w1 & p1 & Heq1 & Hheap1 & Hok1 & Hname1).
  match goal with
  | |- context [let (_, _) := ?t in _] => destruct t as [r1' w1'] eqn:E1
  end.
  pose proof (eq_trans (eq_sym E1) Heq1) as [= -> ->]. clear E1 Heq1.
  destruct r1 as [[]|e].
  - assert (heap w1 !! self = Some (PersonObj p1)) as Hself1.
    { rewrite Hheap1. apply lookup_insert_eq. }
    destruct (phone_cond self phone w1 _ Hself1 Hok1)
      as (r2 & w2 & p2 & Heq2 & Hheap2 & Hok2 & Hname2).
    exists r2, w2, p2. split_and!; [exact Heq2| |done|by rewrite Hname2, Hname1].
    rewrite Hheap2, Hheap1. subst w0. cbn [heap with_heap].
    by rewrite !insert_insert_eq.
  - exists (Raise e), w1, p1. split_and!; [done| |done..].
    rewrite Hheap1. subst w0. cbn [heap with_heap].
    by rewrite !insert_insert_eq.
Qed.

Lemma effect_Person_new name email phone w :
  effect w (snd (Person_new name email phone w)).
Proof.
  unfold Person_new, bind, new_object.
  set (w0 := with_heap _ w).
  destruct (Person_init_effect (fresh (dom (heap w))) name email phone w0)
    as (r & w' & p' & -> & Hheap & Hok & _).
  assert (heap w' = <[fresh (dom (heap w)) := PersonObj p']> (heap w)) as Hheap'.
  { rewrite Hheap. subst w0. cbn [heap with_heap]. by rewrite insert_insert_eq. }
  destruct r as [[]|e]; simpl;
    (eapply effect_new; [apply fresh_heap_None| |done]; done).
Qed.

Lemma generated_or_given (customer_id : option str) w :
  ∃ id w', match customer_id with
           | Some (c :: id) => ret (c :: id)
           | _ => _generate_id
           end w = (Ok id, w') ∧ heap w' = heap w ∧ id ≠ [].
Proof.
  destruct customer_id as [[|c id]|]; simpl; eexists _, _;
    (split_and!; [done|done|]); first [done|apply generated_id_nonempty].
Qed.

Lemma effect_Customer_new name email phone city customer_id w :
  effect w (snd (Customer_new name email phone city customer_id w)).
Proof.
  unfold Customer_new, Customer_init, bind, new_object.
  set (w0 := with_heap _ w).
  destruct (Person_init_effect (fresh (dom (heap w))) name email phone w0)
    as (r & w1 & p1 & -> & Hheap1 & Hok1 & _).
  assert (heap w1 = <[fresh (dom (heap w)) := PersonObj p1]> (heap w)) as Hheap1'.
  { rewrite Hheap1. subst w0. cbn [heap with_heap]. by rewrite insert_insert_eq. }
  destruct r as [[]|e]; simpl.
  2: { eapply effect_new; [apply fresh_heap_None| |done]. done. }
  destruct (generated_or_given customer_id w1) as (id & w2 & -> & Hheap2 & Hid).
  unfold get_Person, put. rewrite Hheap2, Hheap1', lookup_insert_eq. simpl.
  eapply effect_new; [apply fresh_heap_None| |].
  2: { simpl. rewrite Hheap2, Hheap1'. by rewrite insert_insert_eq. }
  done.
Qed.

Lemma effect_Order_new customer items created_at order_id w :
  effect w (snd (Order_new Customer_add_order customer items created_at
                   order_id w)).
Proof.
  rewrite Order_new_unfold. cbv zeta.
  set (w1 := before_registration customer items created_at order_id w).
  assert (effect w w1) as Hnew.
  { eapply effect_new; [apply fresh_heap_None| |done].
    simpl. apply or_generated_nonempty. }
  pose proof (effect_add_order customer (fresh (dom (heap w))) w1) as Hreg.
  destruct (Customer_add_order customer (fresh (dom (heap w))) w1)
    as [[[]|e] w2]; simpl in Hreg.
  - by eapply effect_seq.
  - destruct (isinstance_Exception e); by eapply effect_seq.
Qed.

(** Whatever the call, its effect on the heap is of the allowed kind. *)
Lemma effect_exec c w : effect w (exec c w).
Proof.
  destruct c; simpl.
  - apply effect_Person_new.
  - apply effect_Customer_new.
  - apply effect_email_setter.
  - apply effect_phone_setter.
  - apply effect_add_order.
  - apply effect_Product_new.
  - apply effect_OrderItem_new.
  - apply effect_Order_new.
  - apply effect_add_item.
  - apply effect_reads, reads_Customer_orders.
  - apply effect_reads, reads_Order_items.
  - apply effect_reads, reads_OrderItem_cost.
  - apply effect_reads, reads_Order_total_cost.
  - apply effect_reads, reads_Customer_total_spent.
  - apply effect_reads, reads_contact_summary.
Qed.

Lemma effect_exec_all calls w : effect w (exec_all calls w).
Proof.
  revert w. induction calls as [|c calls IH]; intros w; simpl.
  - apply effect_refl.
  - eapply effect_seq; [apply effect_exec|apply IH].
Qed.

Lemma effect_heap_ok w w' : effect w w' → heap_ok w → heap_ok w'.
Proof.
  induction 1 as [w w' Hsame|w w' l o Hl Ho Hheap|w w' l o o' Hl Hg Ho Hheap|
                  w w1 w' _ IH1 _ IH2]; intros Hok.
  - intros l o. rewrite Hsame. apply Hok.
  - intros l' o'. rewrite Hheap.
    destruct (decide (l = l')) as [<-|Hne].
    + rewrite lookup_insert_eq. by intros [= <-].
    + rewrite lookup_insert_ne by done. apply Hok.
  - intros l' o''. rewrite Hheap.
    destruct (decide (l = l')) as [<-|Hne].
    + rewrite lookup_insert_eq. intros [= <-]. apply Ho. by eapply Hok.
    + rewrite lookup_insert_ne by done. apply Hok.
  - auto.
Qed.

Lemma grows_trans o1 o2 o3 : grows o1 o2 → grows o2 o3 → grows o1 o3.
Proof.
  destruct o1, o2; simpl; try done; destruct o3; simpl; try done.
  - congruence.
  - congruence.
  - intros (-> & -> & -> & Hp1) (-> & -> & -> & Hp2).
    split_and!; [done..|]. by etrans.
  - congruence.
  - intros (-> & -> & -> & Hp1) (-> & -> & -> & Hp2).
    split_and!; [done..|]. by etrans.
Qed.

Lemma effect_evolves w w' : effect w w' → evolves w w'.
Proof.
  induction 1 as [w w' Hsame|w w' l o Hl Ho Hheap|w w' l o o' Hl Hg Ho Hheap|
                  w w1 w' _ IH1 _ IH2].
  - intros l o Hlo. exists o. rewrite Hsame. split; [done|apply grows_refl].
  - intros l' o' Hlo. exists o'. rewrite Hheap. split; [|apply grows_refl].
    rewrite lookup_insert_ne; [done|]. intros ->. congruence.
  - intros l' o'' Hlo. rewrite Hheap.
    destruct (decide (l = l')) as [<-|Hne].
    + exists o'. rewrite lookup_insert_eq. split; [done|]. congruence.
    + exists o''. rewrite lookup_insert_ne by done. split; [done|apply grows_refl].
  - intros l o Hlo. destruct (IH1 l o Hlo) as (o1 & Hl1 & Hg1).
    destruct (IH2 l o1 Hl1) as (o2 & Hl2 & Hg2).
    exists o2. split; [done|]. by eapply grows_trans.
Qed.

Lemma heap_ok_empty : heap_ok empty_world.
Proof. intros l o. unfold empty_world. simpl. by rewrite lookup_empty. Qed.

(** X5: whatever calls a client makes, in a world whose stored contacts
    match their patterns they still do afterwards, so the getters of
    [email] and [phone] only ever return [None] or a string that the
    pattern matches; customers and orders keep a non-empty identifier. *)
Theorem contacts_stay_valid (calls : list call) (w : World) :
  heap_ok w →
  heap_ok (exec_all calls w) ∧
  (∀ self e, fst (Person_email self (exec_all calls w)) = Ok (Some e) →
             PyMatches EMAIL_RE e) ∧
  (∀ self n, fst (Person_phone self (exec_all calls w)) = Ok (Some n) →
             PyMatches PHONE_RE n).
Proof.
  intros Hok.
  pose proof (effect_heap_ok _ _ (effect_exec_all calls w) Hok) as Hok'.
  split_and!; [done| |].
  - intros self e. unfold Person_email, bind, get_Person.
    destruct (heap (exec_all calls w) !! self) as [[| |p|c| |]|] eqn:Hself;
      try done; simpl; intros [= He].
    + by apply (Hok' _ _ Hself).
    + by apply (Hok' _ _ Hself).
  - intros self n. unfold Person_phone, bind, get_Person.
    destruct (heap (exec_all calls w) !! self) as [[| |p|c| |]|] eqn:Hself;
      try done; simpl; intros [= He].
    + by apply (Hok' _ _ Hself).
    + by apply (Hok' _ _ Hself).
Qed.

(** X6: no call of a client removes an object or changes a name, an
    identifier, a city, the customer or creation time of an order, a
    product or an order item; a customer's list of orders and an order's
    list of items keep what they had and only get longer at the end. *)
Theorem objects_only_grow (calls : list call) (w : World) :
  evolves w (exec_all calls w).
Proof. apply effect_evolves, effect_exec_all. Qed.

(** *** Orders and their items *)

Lemma Order_new_returns customer items created_at order_id w :
  ∃ w',
    Order_new Customer_add_order customer items created_at order_id w =
      (Ok (fresh (dom (heap w))), w') ∧
    heap w' !! fresh (dom (heap w)) =
      Some (OrderObj (new_order customer items created_at order_id w)) ∧
    (∀ c, heap w !! customer = Some (CustomerObj c) →
          heap w' !! customer =
            Some (CustomerObj {| person := person c; city := city c;
                                 customer_id := customer_id c;
                                 _orders := _orders c ++ [fresh (dom (heap w))] |})).
Proof.
  rewrite Order_new_unfold. cbv zeta.
  set (self := fresh (dom (heap w))).
  set (w1 := before_registration customer items created_at order_id w).
  assert (heap w1 !! self =
          Some (OrderObj (new_order customer items created_at order_id w)))
    as Hself by apply lookup_insert_eq.
  assert (∀ c, heap w !! customer = Some (CustomerObj c) →
               heap w1 !! customer = Some (CustomerObj c)) as Hkeep.
  { intros c Hc. subst w1. unfold before_registration. cbn [heap].
    rewrite lookup_insert_ne; [done|]. intros Heq. subst self.
    rewrite <- Heq, fresh_heap_None in Hc. done. }
  unfold Customer_add_order, bind, get_Customer, put.
  destruct (heap w1 !! customer) as [[| | |c| |]|] eqn:Hc; simpl;
    try (exists w1; split_and!; [done|done|];
         intros c' Hc'; by specialize (Hkeep _ Hc')).
  assert (customer ≠ self) as Hne.
  { intros Heq. rewrite Heq, Hself in Hc. done. }
  eexists. split_and!; [done| |].
  - cbn [heap with_heap]. by rewrite lookup_insert_ne.
  - intros c' Hc'. specialize (Hkeep _ Hc'). injection Hkeep as <-.
    cbn [heap with_heap]. apply lookup_insert_eq.
Qed.

(** X10: constructing an order with the [add_order] of class [Customer]
    always returns a new order, also when the customer argument is not a
    customer; [items()] of the new order is the list that was passed, or
    the empty list when none or an empty one was passed; a customer
    passed in has the order at the end of its list. *)
Theorem Order_new_always_returns (customer : loc) (items : option (list loc))
    (created_at : option datetime) (order_id : option str) (w : World) :
  ∃ self w',
    Order_new Customer_add_order customer items created_at order_id w =
      (Ok self, w') ∧
    heap w !! self = None ∧
    Order_items self w' =
      (Ok match items with
          | Some (i :: items) => i :: items
          | _ => []
          end, w') ∧
    (∀ c, heap w !! customer = Some (CustomerObj c) →
          Customer_orders customer w' = (Ok (_orders c ++ [self]), w')) ∧
    ((∀ c, heap w !! customer ≠ Some (CustomerObj c)) →
     ∀ l, l ≠ self → heap w' !! l = heap w !! l).
Proof.
  destruct (Order_new_returns customer items created_at order_id w)
    as (w' & Hnew & Hself & Hcust).
  exists (fresh (dom (heap w))), w'.
  split_and!; [done|apply fresh_heap_None| | |].
  - unfold Order_items, bind, get_Order. by rewrite Hself.
  - intros c Hc. unfold Customer_orders, bind, get_Customer.
    by rewrite (Hcust c Hc).
  - intros Hnot l Hne. rewrite Order_new_unfold in Hnew. cbv zeta in Hnew.
    unfold Customer_add_order, bind, get_Customer in Hnew.
    destruct (decide (customer = fresh (dom (heap w)))) as [->|Hne'].
    + unfold before_registration in Hnew at 1. cbn [heap] in Hnew.
      rewrite lookup_insert_eq in Hnew. injection Hnew as <-.
      cbn [heap before_registration]. by rewrite lookup_insert_ne.
    + unfold before_registration in Hnew at 1. cbn [heap] in Hnew.
      rewrite lookup_insert_ne in Hnew by done.
      destruct (heap w !! customer) as [[| | |c| |]|] eqn:Hc;
        try (injection Hnew as <-; cbn [heap before_registration];
             by rewrite lookup_insert_ne).
      by destruct (Hnot c).
Qed.

(** X11: [add_item] on an order appends the item: [items()] then returns
    the previous list followed by it and no other object changes; on
    anything that is not an order it raises [AttributeError] and changes
    nothing. *)
Theorem Order_add_item_appends (self item : loc) (w : World) :
  (∀ o, heap w !! self = Some (OrderObj o) →
   ∃ w', Order_add_item self item w = (Ok tt, w') ∧
         Order_items self w' = (Ok (_items o ++ [item]), w') ∧
         (∀ l, l ≠ self → heap w' !! l = heap w !! l)) ∧
  ((∀ o, heap w !! self ≠ Some (OrderObj o)) →
   Order_add_item self item w = (Raise AttributeError, w)).
Proof.
  split.
  - intros o Ho. unfold Order_add_item, bind, get_Order, put. rewrite Ho.
    eexists. split_and!; [done| |].
    + unfold Order_items, bind, get_Order. cbn [heap with_heap].
      by rewrite lookup_insert_eq.
    + intros l Hne. cbn [heap with_heap]. by rewrite lookup_insert_ne.
  - intros Hnot. unfold Order_add_item, bind, get_Order.
    destruct (heap w !! self) as [[| | | | |o]|] eqn:Ho; try done.
    by destruct (Hnot o).
Qed.

(** *** Totals *)

Lemma Order_total_cost_run self o w :
  heap w !! self = Some (OrderObj o) →
  Order_total_cost self w =
    match for_each OrderItem_cost (_items o) w with
    | (Ok costs, w') => (Ok (py_sum (Float <$> costs)), w')
    | (Raise e, w') => (Raise e, w')
    end.
Proof.
  intros Ho. unfold Order_total_cost, bind, get_Order. rewrite Ho.
  by destruct (for_each OrderItem_cost (_items o) w) as [[costs|e] w'].
Qed.

(** X12: [total_cost] never changes the world; for an order without items
    it returns the int 0, and for an order with one item it returns the
    float [0.0 + price * quantity]. *)
Theorem Order_total_cost_small (self : loc) (o : Order) (w : World) :
  heap w !! self = Some (OrderObj o) →
  snd (Order_total_cost self w) = w ∧
  (_items o = [] → Order_total_cost self w = (Ok Zero, w)) ∧
  (∀ item i p q,
     _items o = [item] →
     heap w !! item = Some (OrderItemObj i) →
     heap w !! product i = Some (ProductObj p) →
     float_of_int (quantity i) = Some q →
     Order_total_cost self w =
       (Ok (Float (SFadd prec emax (S754_zero false)
                     (SFmul prec emax (price p) q))), w)).
Proof.
  intros Ho. split_and!.
  - apply reads_Order_total_cost.
  - intros Hitems. rewrite (Order_total_cost_run _ _ _ Ho), Hitems. done.
  - intros item i p q Hitems Hi Hp Hq.
    rewrite (Order_total_cost_run _ _ _ Ho), Hitems. simpl.
    unfold bind. rewrite (OrderItem_cost_reads _ _ _ _ Hi Hp).
    unfold float_mul_int. rewrite Hq. done.
Qed.

(** X13: [total_spent] never changes the world, on whatever object and
    in whatever world it is called, whether it returns or raises; for a
    customer none of whose orders has an item, a customer without orders
    among them, it returns the int 0. *)
Theorem Customer_total_spent_zero (self : loc) (w : World) :
  snd (Customer_total_spent self w) = w ∧
  (∀ c, heap w !! self = Some (CustomerObj c) →
        (∀ o, o ∈ _orders c →
              ∃ order, heap w !! o = Some (OrderObj order) ∧
                       _items order = []) →
        Customer_total_spent self w = (Ok Zero, w)).
Proof.
  split; [apply reads_Customer_total_spent|]. intros c Hc Hempty.
  unfold Customer_total_spent, bind, get_Customer. rewrite Hc.
  assert (for_each Order_total_cost (_orders c) w =
          (Ok (replicate (length (_orders c)) Zero), w)) as ->.
  { induction (_orders c) as [|o orders IH]; [done|]. simpl. unfold bind.
    destruct (Hempty o) as (order & Ho & Hitems); [by left|].
    rewrite (Order_total_cost_run _ _ _ Ho), Hitems. simpl.
    rewrite IH; [done|]. intros o' Ho'. apply Hempty. by right. }
  unfold ret. do 2 f_equal.
  induction (length (_orders c)) as [|n IH]; [done|]. simpl. exact IH.
Qed.

(** *** Summaries *)

(** X14: after an order is constructed against a customer, the summary of
    the customer is its name, its identifier, the number of its orders,
    now one more, and the summary line of the person it is, in which an
    absent or empty contact shows as a dash. *)
Theorem contact_summary_after_order (customer : loc) (c : Customer)
    (items : option (list loc)) (created_at : option datetime)
    (order_id : option str) (w : World) :
  heap w !! customer = Some (CustomerObj c) →
  contact_summary customer w =
    (Ok (customer_prefix c (length (_orders c)) ++ person_line (person c)), w) ∧
  ∃ self w',
    Order_new Customer_add_order customer items created_at order_id w =
      (Ok self, w') ∧
    contact_summary customer w' =
      (Ok (customer_prefix c (S (length (_orders c))) ++ person_line (person c)),
       w').
Proof.
  intros Hc.
  assert (∀ w0 c0, heap w0 !! customer = Some (CustomerObj c0) →
          contact_summary customer w0 =
            (Ok (customer_prefix c0 (length (_orders c0)) ++
                 person_line (person c0)), w0)) as Hsummary.
  { intros w0 c0 Hc0.
    assert (get_Person customer w0 = (Ok (person c0), w0)) as Hperson.
    { unfold get_Person. by rewrite Hc0. }
    assert (get_Customer customer w0 = (Ok c0, w0)) as Hcustomer.
    { unfold get_Customer. by rewrite Hc0. }
    unfold contact_summary, Customer_contact_summary, Person_contact_summary.
    rewrite Hc0. unfold bind. rewrite Hcustomer, Hperson.
    unfold ret, customer_prefix, person_line. do 2 f_equal.
    by rewrite <- !(assoc_L (++)). }
  split; [by apply Hsummary|].
  destruct (Order_new_returns customer items created_at order_id w)
    as (w' & Hnew & _ & Hcust).
  exists (fresh (dom (heap w))), w'. split; [done|].
  rewrite (Hsummary _ _ (Hcust c Hc)). cbn [person _orders customer_id].
  rewrite length_app. simpl. by rewrite Nat.add_1_r.
Qed.

End clients.

(** *** Concrete runs *)

Example total_cost_of_two_widgets :
  fst (Order_total_cost (B := plain_sum) 4%positive shop_world) =
    Ok (Float twenty).
Proof. vm_compute. reflexivity. Qed.

Example summary_of_ann :
  fst (contact_summary 1%positive shop_world) =
    Ok (str_of "Ann (c1) " ++ [em_dash] ++ str_of " orders: 1 " ++ [em_dash] ++
        str_of " Ann | email: a@example.com | phone: " ++ [em_dash]).
Proof. vm_compute. reflexivity. Qed.

Lemma contacts_stay_valid_witness :
  heap_ok (U := ascii_only) sample_world ∧
  (∀ self e, fst (Person_email self sample_world) = Ok (Some e) →
             PyMatches (U := ascii_only) EMAIL_RE e) ∧
  (∀ self n, fst (Person_phone self sample_world) = Ok (Some n) →
             PyMatches (U := ascii_only) PHONE_RE n).
Proof.
  apply (contacts_stay_valid (U := ascii_only) (B := plain_sum) sample_calls
           empty_world).
  apply heap_ok_empty.
Defined.

Lemma Order_add_item_appends_witness :
  ∃ w', Order_add_item 4%positive 3%positive shop_world = (Ok tt, w') ∧
        Order_items 4%positive w' = (Ok ([3%positive] ++ [3%positive]), w') ∧
        (∀ l, l ≠ 4%positive → heap w' !! l = heap shop_world !! l).
Proof.
  destruct (Order_add_item_appends 4%positive 3%positive shop_world)
    as [Happend _].
  apply (Happend order_4). vm_compute. reflexivity.
Defined.

Lemma Order_total_cost_small_witness :
  snd (Order_total_cost (B := plain_sum) 4%positive shop_world) = shop_world ∧
  (_items order_4 = [] →
   Order_total_cost (B := plain_sum) 4%positive shop_world =
     (Ok Zero, shop_world)) ∧
  (∀ item i p q,
     _items order_4 = [item] →
     heap shop_world !! item = Some (OrderItemObj i) →
     heap shop_world !! product i = Some (ProductObj p) →
     float_of_int (quantity i) = Some q →
     Order_total_cost (B := plain_sum) 4%positive shop_world =
       (Ok (Float (SFadd prec emax (S754_zero false)
                     (SFmul prec emax (price p) q))), shop_world)).
Proof.
  apply (Order_total_cost_small (B := plain_sum) 4%positive order_4 shop_world).
  vm_compute. reflexivity.
Defined.

Lemma Customer_total_spent_zero_witness :
  snd (Customer_total_spent (B := plain_sum) 1%positive shop_world) =
    shop_world ∧
  Customer_total_spent (B := plain_sum) 5%positive shop_world =
    (Ok Zero, shop_world).
Proof.
  split.
  - apply (Customer_total_spent_zero (B := plain_sum) 1%positive shop_world).
  - apply (proj2 (Customer_total_spent_zero (B := plain_sum) 5%positive
                    shop_world) bob).
    + vm_compute. reflexivity.
    + intros o Ho. apply list_elem_of_singleton in Ho as ->.
      exists order_6. split; [vm_compute; reflexivity|reflexivity].
Defined.

Lemma contact_summary_after_order_witness :
  contact_summary 1%positive shop_world =
    (Ok (customer_prefix ann (length (_orders ann)) ++ person_line (person ann)),
     shop_world) ∧
  ∃ self w',
    Order_new Customer_add_order 1%positive None None None shop_world =
      (Ok self, w') ∧
    contact_summary 1%positive w' =
      (Ok (customer_prefix ann (S (length (_orders ann))) ++
           person_line (person ann)), w').
Proof.
  apply (contact_summary_after_order 1%positive ann None None None shop_world).
  vm_compute. reflexivity.
Defined.

Lemma Order_new_always_returns_witness :
  ∃ self w',
    Order_new Customer_add_order 1%positive None None None shop_world =
      (Ok self, w') ∧
    Customer_orders 1%positive w' = (Ok (_orders ann ++ [self]), w').
Proof.
  destruct (Order_new_always_returns 1%positive None None None shop_world)
    as (self & w' & Hnew & _ & _ & Horders & _).
  exists self, w'. split; [exact Hnew|]. apply Horders.
  vm_compute. reflexivity.
Defined.

End ModelsRestFacts.

(** ** Facts about the handlers of the form *)

Module GuiFacts.
Import Regex RegexFacts Models ModelsFacts ModelsRest ModelsRestFacts Gui.
Local Open Scope models_scope.

Local Arguments hex : simpl never.
Local Arguments uuid4_int : simpl never.
Local Arguments str_of : simpl never.

Section handlers.
Context {U : Unicode} {B : Builtins} {T : Toolkit}.

(** *** The constructors, as the handlers call them *)

Lemma truthy_or_none s : truthy (or_none s) = true ∨ or_none s = None.
Proof. destruct s; [by right|by left]. Qed.

Lemma supplied_or_none s : supplied (or_none s) = or_none s.
Proof. by destruct s. Qed.

Lemma or_none_Some s e : or_none s = Some e → e ≠ [].
Proof. destruct s; [done|]. by intros [= <-]. Qed.

Lemma acceptable_dec (r : regex) (v : option str) :
  acceptable r v ∨ ∃ e, v = Some e ∧ e ≠ [] ∧ ¬ PyMatches r e.
Proof.
  destruct v as [[|c value]|]; simpl; [by left| |by left].
  destruct (re_match r (c :: value)) eqn:Hm.
  - left. by apply re_match_spec.
  - right. exists (c :: value). split_and!; [done..|]. by apply re_match_false.
Qed.

Lemma acceptable_Some (r : regex) e :
  e ≠ [] → acceptable r (Some e) → PyMatches r e.
Proof. by destruct e. Qed.

Lemma Customer_new_cases name email phone city customer_id w :
  (∃ e w', email = Some e ∧ e ≠ [] ∧ ¬ PyMatches EMAIL_RE e ∧
     Customer_new name email phone city customer_id w =
       (Raise (ValidationError (str_of "Invalid email: " ++ e)), w') ∧
     heap w ⊆ heap w') ∨
  (∃ p w', acceptable EMAIL_RE email ∧ phone = Some p ∧ p ≠ [] ∧
     ¬ PyMatches PHONE_RE p ∧
     Customer_new name email phone city customer_id w =
       (Raise (ValidationError (str_of "Invalid phone number: " ++ p)), w') ∧
     heap w ⊆ heap w') ∨
  (acceptable EMAIL_RE email ∧ acceptable PHONE_RE phone ∧
   ∃ w', Customer_new name email phone city customer_id w =
           (Ok (fresh (dom (heap w))), w') ∧
         heap w' = <[fresh (dom (heap w)) := CustomerObj
                       {| person := {| _name := name; _email := supplied email;
                                       _phone := supplied phone |};
                          city := city;
                          customer_id := or_generated customer_id w;
                          _orders := [] |}]> (heap w)).
Proof.
  pose proof (fresh_heap_None w) as Hfresh.
  assert (heap (after_base_assignments name w) !! fresh (dom (heap w)) =
          Some (PersonObj {| _name := name; _email := None; _phone := None |}))
    as Hbase.
  { unfold after_base_assignments. simpl. by rewrite lookup_insert_eq. }
  rewrite Customer_new_unfold. cbv zeta. unfold bind.
  destruct (acceptable_dec EMAIL_RE email) as [Hemail|(e & -> & Hne & Hno)].
  2:{ left. destruct e as [|c value]; [done|].
      eexists _, _. split_and!; [done..| |].
      - by rewrite !email_setter_rejects.
      - unfold after_base_assignments. cbn [heap with_heap].
        by apply insert_subseteq. }
  right. rewrite (email_step _ _ _ _ Hbase Hemail).
  destruct (acceptable_dec PHONE_RE phone) as [Hphone|(p & -> & Hne & Hno)].
  2:{ left. destruct p as [|c value]; [done|].
      eexists _, _. split_and!; [done..| |].
      - by rewrite !phone_setter_rejects.
      - unfold after_base_assignments. cbn [heap with_heap].
        rewrite insert_insert_eq. by apply insert_subseteq. }
  right. split_and!; [done..|].
  erewrite phone_step; [|cbn [heap with_heap]; apply lookup_insert_eq|done].
  destruct customer_id as [[|c id]|]; cbn [ret _generate_id];
    unfold get_Person, put; cbn [heap with_heap after_base_assignments];
    rewrite lookup_insert_eq; cbn [_name _email _phone];
    (eexists; split; [reflexivity|]); cbn [heap with_heap];
    by rewrite !insert_insert_eq.
Qed.

Lemma Product_new_run name price w :
  Product_new name price None w =
    if SFltb price (S754_zero false)
    then (Raise (ValidationError (str_of "Price cannot be negative")),
          with_heap (<[fresh (dom (heap w)) :=
                         ProductObj {| Models.name := name;
                                       Models.price := price;
                                       Models.sku := None |}]> (heap w)) w)
    else (Ok (fresh (dom (heap w))),
          with_heap (<[fresh (dom (heap w)) :=
                         ProductObj {| Models.name := name;
                                       Models.price := price;
                                       Models.sku := Some (or_generated None w) |}]>
                       (heap w))
            (snd (_generate_id w))).
Proof.
  unfold Product_new, Product_post_init, bind, new_object, put, get_Product.
  simpl. rewrite lookup_insert_eq. simpl.
  destruct (SFltb price (S754_zero false)); simpl; unfold with_heap; simpl;
    by rewrite !insert_insert_eq.
Qed.

Lemma OrderItem_new_run product quantity w :
  OrderItem_new product quantity w =
    (if (quantity <=? 0)%Z
     then Raise (ValidationError (str_of "Quantity must be > 0"))
     else Ok (fresh (dom (heap w))),
     with_heap (<[fresh (dom (heap w)) :=
                    OrderItemObj {| Models.product := product;
                                    Models.quantity := quantity |}]> (heap w)) w).
Proof.
  unfold OrderItem_new, OrderItem_post_init, bind, new_object, put,
    get_OrderItem.
  simpl. rewrite lookup_insert_eq. simpl.
  destruct (quantity <=? 0)%Z; simpl; unfold with_heap; simpl;
    by rewrite !insert_insert_eq.
Qed.

Lemma Order_new_on_customer customer c items created_at order_id w :
  heap w !! customer = Some (CustomerObj c) →
  Order_new Customer_add_order customer items created_at order_id w =
    (Ok (fresh (dom (heap w))),
     with_heap
       (<[customer := CustomerObj
            {| person := person c; city := city c;
               customer_id := customer_id c;
               _orders := _orders c ++ [fresh (dom (heap w))] |}]>
          (heap (before_registration customer items created_at order_id w)))
       (before_registration customer items created_at order_id w)).
Proof.
  intros Hc. rewrite Order_new_unfold. cbv zeta.
  unfold Customer_add_order, bind, get_Customer, put.
  assert (heap (before_registration customer items created_at order_id w)
            !! customer = Some (CustomerObj c)) as ->; [|done].
  cbn [heap before_registration]. rewrite lookup_insert_ne; [done|].
  intros Heq. rewrite <- Heq, fresh_heap_None in Hc. done.
Qed.

(** *** The handlers in terms of the constructors *)

Lemma add_customer_run c_name c_email c_phone c_city app w :
  add_customer c_name c_email c_phone c_city (app, w) =
    match Customer_new (strip c_name) (or_none (strip c_email))
            (or_none (strip c_phone)) (or_none (strip c_city)) None w with
    | (Ok cust, w') =>
      match heap w' !! cust with
      | Some (CustomerObj c) =>
        (Ok tt,
         (show (showinfo (str_of "OK") (str_of "Customer added"))
            (insert_customer_line
               (customer_id c ++ str_of " | " ++ _name (person c) ++
                str_of " | " ++ or_hyphen (city c))
               (register_customer (customer_id c) cust app)), w'))
      | _ => (Ok tt, (show (showerror (str_of "Error") (exn_text AttributeError))
                        app, w'))
      end
    | (Raise e, w') =>
      if isinstance_Exception e then report e (app, w')
      else (Raise e, (app, w'))
    end.
Proof.
  unfold add_customer, try_catch, g_bind, lift. cbn [fst snd].
  destruct (Customer_new _ _ _ _ _ w) as [[cust|e] w']; [|done].
  unfold get_Customer, Person_name, bind, get_Person, ret.
  destruct (heap w' !! cust) as [[| | |c| |]|] eqn:Hc;
    unfold modify, report, str_exn; cbv beta iota zeta delta [fst snd];
    rewrite ?Hc; done.
Qed.

Lemma add_product_run p_name p_price app w :
  add_product p_name p_price (app, w) =
    match float_of_str (strip p_price) with
    | None =>
      (Ok tt, (show (showerror (str_of "Error") (str_of "Invalid price")) app, w))
    | Some price =>
      if SFltb price (S754_zero false)
      then (Ok tt,
            (show (showerror (str_of "Validation error")
                     (str_of "Price cannot be negative")) app,
             snd (Product_new (strip p_name) price None w)))
      else (Ok tt,
            (show (showinfo (str_of "OK") (str_of "Product added"))
               (insert_product_line
                  (or_generated None w ++ str_of " | " ++ strip p_name ++
                   str_of " | " ++ format_2f price)
                  (register_product (Some (or_generated None w))
                     (fresh (dom (heap w))) app)),
             snd (Product_new (strip p_name) price None w)))
    end.
Proof.
  unfold add_product. destruct (float_of_str (strip p_price)) as [price|]; [|done].
  unfold try_catch, g_bind, lift. cbn [fst snd].
  rewrite Product_new_run.
  destruct (SFltb price (S754_zero false)); [done|].
  unfold get_Product, modify. cbn [fst snd heap with_heap].
  rewrite lookup_insert_eq. done.
Qed.

Lemma create_order_run o_customer_id o_sku o_qty app w qty cust prod c p :
  quantity_of (strip o_qty) = Some qty →
  customers app !! strip o_customer_id = Some cust →
  products app !! Some (strip o_sku) = Some prod →
  heap w !! cust = Some (CustomerObj c) →
  heap w !! prod = Some (ProductObj p) →
  create_order o_customer_id o_sku o_qty (app, w) =
    let w1 := snd (OrderItem_new prod qty w) in
    if (qty <=? 0)%Z
    then (Ok tt, (show (showerror (str_of "Validation error")
                          (str_of "Quantity must be > 0")) app, w1))
    else
      let order := fresh (dom (heap w1)) in
      let w3 := snd (Order_new Customer_add_order cust
                       (Some [fresh (dom (heap w))])
                       (Some (clock w (clock_reads w))) None
                       (snd (utcnow w1))) in
      match float_of_int qty with
      | Some q =>
        (Ok tt,
         (show (showinfo (str_of "OK") (str_of "Order created"))
            (insert_order_line
               (or_generated None w ++ str_of " | " ++ _name (person c) ++
                str_of " | " ++
                format_2f (SFadd prec emax (S754_zero false)
                             (SFmul prec emax (price p) q)))
               (register_order (or_generated None w) order app)), w3))
      | None =>
        (Ok tt,
         (show (showerror (str_of "Error") (exn_text OverflowError))
            (register_order (or_generated None w) order app), w3))
      end.
Proof.
  intros Hqty Hcid Hsku Hc Hp.
  pose proof (fresh_heap_None w) as Hfresh.
  set (item := fresh (dom (heap w))) in *.
  assert (cust ≠ item) as Hci by (intros ->; congruence).
  assert (prod ≠ item) as Hpi by (intros ->; congruence).
  assert (cust ≠ prod) as Hcp by (intros ->; congruence).
  unfold create_order. rewrite Hqty.
  unfold g_bind at 1. unfold read_app at 1. cbn [fst snd].
  rewrite Hcid, Hsku.
  unfold try_catch, g_bind, lift. cbn [fst snd].
  rewrite OrderItem_new_run. fold item. cbv zeta.
  destruct (qty <=? 0)%Z; [done|]. cbn [fst snd].
  set (w1 := with_heap _ w).
  assert (heap w1 !! cust = Some (CustomerObj c)) as Hc1.
  { subst w1. cbn [heap with_heap]. by rewrite lookup_insert_ne. }
  assert (utcnow w1 = (Ok (clock w (clock_reads w)), snd (utcnow w1))) as ->
    by done.
  cbn [fst snd].
  set (w2 := snd (utcnow w1)).
  assert (heap w2 = heap w1) as Hw2 by done.
  assert (heap w2 !! cust = Some (CustomerObj c)) as Hc2 by by rewrite Hw2.
  rewrite (Order_new_on_customer _ _ _ _ _ _ Hc2).
  set (order := fresh (dom (heap w2))).
  assert (fresh (dom (heap w1)) = order) as -> by done.
  pose proof (fresh_heap_None w2) as Hfresh2. fold order in Hfresh2.
  assert (cust ≠ order) as Hco by (intros ->; congruence).
  assert (item ≠ order) as Hio.
  { intros Heq. rewrite <- Heq, Hw2 in Hfresh2. subst w1.
    cbn [heap with_heap] in Hfresh2. by rewrite lookup_insert_eq in Hfresh2. }
  assert (prod ≠ order) as Hpo.
  { intros Heq. rewrite <- Heq, Hw2 in Hfresh2. subst w1.
    cbn [heap with_heap] in Hfresh2.
    rewrite lookup_insert_ne in Hfresh2 by done. congruence. }
  set (w3 := with_heap _ _).
  assert (heap w3 !! order =
          Some (OrderObj (new_order cust (Some [item])
                            (Some (clock w (clock_reads w))) None w2)))
    as Horder.
  { subst w3. cbn [heap with_heap before_registration].
    rewrite lookup_insert_ne by done. by rewrite lookup_insert_eq. }
  assert (heap w3 !! cust =
          Some (CustomerObj {| person := person c; city := city c;
                               customer_id := customer_id c;
                               _orders := _orders c ++ [order] |})) as Hcust.
  { subst w3. cbn [heap with_heap]. by rewrite lookup_insert_eq. }
  assert (heap w3 !! item =
          Some (OrderItemObj {| product := prod; quantity := qty |})) as Hitem.
  { subst w3. cbn [heap with_heap before_registration].
    rewrite !lookup_insert_ne by done. rewrite Hw2. subst w1.
    cbn [heap with_heap]. by rewrite lookup_insert_eq. }
  assert (heap w3 !! prod = Some (ProductObj p)) as Hprod.
  { subst w3. cbn [heap with_heap before_registration].
    rewrite !lookup_insert_ne by done. rewrite Hw2. subst w1.
    cbn [heap with_heap]. by rewrite lookup_insert_ne. }
  clearbody w3.
  unfold get_Order, Person_name, Order_total_cost, bind, get_Person, get_Order,
    for_each, OrderItem_cost, bind, get_OrderItem, get_Product, float_mul_int,
    modify, report, str_exn, ret, raise.
  repeat (cbv beta iota zeta delta [fst snd new_order _items product quantity];
          first [rewrite Horder|rewrite Hcust|rewrite Hitem|rewrite Hprod]).
  destruct (float_of_int qty) as [q|]; done.
Qed.

(** *** The registries *)

Lemma registries_ok_evolves app w w' :
  registries_ok (app, w) → evolves w w' → registries_ok (app, w').
Proof.
  intros (Hcs & Hps & Hos) Hev. cbn [fst snd] in *. split_and!; cbn [fst snd].
  - intros id l Hl. destruct (Hcs id l Hl) as (c & Hc & Hid).
    destruct (Hev l _ Hc) as (o' & Ho' & Hg).
    destruct o' as [| | |c'| |]; try done.
    destruct Hg as (_ & _ & Hid' & _). exists c'. split; [done|congruence].
  - intros k l Hl. destruct (Hps k l Hl) as (p & Hp & Hk & Hprice).
    destruct (Hev l _ Hp) as (o' & Ho' & Hg).
    destruct o' as [|p'| | | |]; try done. simpl in Hg. subst p'.
    by exists p.
  - intros id l Hl. destruct (Hos id l Hl) as (o & c & Ho & Hid & Hc & Hin).
    destruct (Hev l _ Ho) as (o' & Ho' & Hg).
    destruct o' as [| | | | |o']; try done.
    destruct Hg as (Hid' & Hcust' & _ & _).
    destruct (Hev _ _ Hc) as (c' & Hc' & Hg').
    destruct c' as [| | |c'| |]; try done.
    destruct Hg' as (_ & _ & _ & [k Hk]).
    exists o', c'. split_and!; [done|congruence|by rewrite Hcust'|].
    rewrite Hk. apply elem_of_app. by left.
Qed.

Lemma registries_ok_same app app' w :
  customers app' = customers app → products app' = products app →
  orders app' = orders app →
  registries_ok (app, w) → registries_ok (app', w).
Proof.
  unfold registries_ok. cbn [fst snd]. by intros -> -> ->.
Qed.

Lemma registries_ok_customer app w id cust c :
  registries_ok (app, w) →
  heap w !! cust = Some (CustomerObj c) → customer_id c = id →
  registries_ok (register_customer id cust app, w).
Proof.
  intros (Hcs & Hps & Hos) Hc Hid. split_and!; cbn [fst snd] in *; [|done..].
  intros id' l. unfold register_customer. cbn [customers].
  destruct (decide (id = id')) as [<-|Hne].
  - rewrite lookup_insert_eq. intros [= <-]. by exists c.
  - rewrite lookup_insert_ne by done. apply Hcs.
Qed.

Lemma registries_ok_product app w k prod p :
  registries_ok (app, w) →
  heap w !! prod = Some (ProductObj p) → sku p = k →
  SFltb (price p) (S754_zero false) = false →
  registries_ok (register_product k prod app, w).
Proof.
  intros (Hcs & Hps & Hos) Hp Hk Hprice.
  split_and!; cbn [fst snd] in *; [done| |done].
  intros k' l. unfold register_product. cbn [products].
  destruct (decide (k = k')) as [<-|Hne].
  - rewrite lookup_insert_eq. intros [= <-]. by exists p.
  - rewrite lookup_insert_ne by done. apply Hps.
Qed.

Lemma registries_ok_order app w id order o c :
  registries_ok (app, w) →
  heap w !! order = Some (OrderObj o) → order_id o = id →
  heap w !! customer o = Some (CustomerObj c) → order ∈ _orders c →
  registries_ok (register_order id order app, w).
Proof.
  intros (Hcs & Hps & Hos) Ho Hid Hc Hin.
  split_and!; cbn [fst snd] in *; [done..|].
  intros id' l. unfold register_order. cbn [orders].
  destruct (decide (id = id')) as [<-|Hne].
  - rewrite lookup_insert_eq. intros [= <-]. by exists o, c.
  - rewrite lookup_insert_ne by done. apply Hos.
Qed.

Lemma length_show d app :
  length (dialogs (show d app)) = S (length (dialogs app)).
Proof. unfold show. cbn [dialogs]. rewrite length_app. simpl. lia. Qed.

Lemma effect_utcnow w : effect w (snd (utcnow w)).
Proof. by apply effect_none. Qed.

Lemma add_customer_step c_name c_email c_phone c_city app w :
  registries_ok (app, w) →
  ∃ s', add_customer c_name c_email c_phone c_city (app, w) = (Ok tt, s') ∧
        registries_ok s' ∧
        length (dialogs (fst s')) = S (length (dialogs app)).
Proof.
  intros Hok. rewrite add_customer_run.
  pose proof (effect_evolves _ _
                (effect_Customer_new (strip c_name) (or_none (strip c_email))
                   (or_none (strip c_phone)) (or_none (strip c_city)) None w))
    as Hev.
  destruct (Customer_new_cases (strip c_name) (or_none (strip c_email))
              (or_none (strip c_phone)) (or_none (strip c_city)) None w)
    as [(e & w' & _ & _ & _ & Hnew & _)|
        [(p & w' & _ & _ & _ & _ & Hnew & _)|(_ & _ & w' & Hnew & Hheap)]];
    rewrite Hnew in Hev |- *; cbn [snd] in Hev.
  - eexists. split; [done|]. cbn [fst snd]. split; [|by rewrite length_show].
    eapply registries_ok_same; [..|by eapply registries_ok_evolves]; done.
  - eexists. split; [done|]. cbn [fst snd]. split; [|by rewrite length_show].
    eapply registries_ok_same; [..|by eapply registries_ok_evolves]; done.
  - rewrite Hheap, lookup_insert_eq. eexists. split; [done|]. cbn [fst snd].
    split; [|by rewrite length_show].
    eapply registries_ok_same;
      [..|eapply registries_ok_customer;
          [by eapply registries_ok_evolves| |done]]; [done..|].
    by rewrite Hheap, lookup_insert_eq.
Qed.

Lemma add_product_step p_name p_price app w :
  registries_ok (app, w) →
  ∃ s', add_product p_name p_price (app, w) = (Ok tt, s') ∧
        registries_ok s' ∧
        length (dialogs (fst s')) = S (length (dialogs app)).
Proof using U B T.
  intros Hok. rewrite add_product_run.
  destruct (float_of_str (strip p_price)) as [price|].
  2:{ eexists. split; [done|]. cbn [fst snd]. split; [|by rewrite length_show].
      by eapply registries_ok_same. }
  pose proof (effect_evolves _ _ (effect_Product_new (strip p_name) price None w))
    as Hev.
  destruct (SFltb price (S754_zero false)) eqn:Hsign.
  - eexists. split; [done|]. cbn [fst snd]. split; [|by rewrite length_show].
    eapply registries_ok_same; [..|by eapply registries_ok_evolves]; done.
  - eexists. split; [done|]. cbn [fst snd]. split; [|by rewrite length_show].
    apply (registries_ok_same
             (register_product (Some (or_generated None w))
                (fresh (dom (heap w))) app)); [done..|].
    apply (registries_ok_product _ _ _ _
             {| name := strip p_name; price := price;
                sku := Some (or_generated None w) |});
      [by eapply registries_ok_evolves| |done|done].
    rewrite Product_new_run, Hsign. cbn [snd heap with_heap].
    by rewrite lookup_insert_eq.
Qed.

Lemma create_order_step o_customer_id o_sku o_qty app w :
  registries_ok (app, w) →
  ∃ s', create_order o_customer_id o_sku o_qty (app, w) = (Ok tt, s') ∧
        registries_ok s' ∧
        length (dialogs (fst s')) = S (length (dialogs app)).
Proof using U B T.
  intros Hok.
  destruct (quantity_of (strip o_qty)) as [qty|] eqn:Hqty.
  2:{ unfold create_order. rewrite Hqty. eexists. split; [done|].
      cbn [fst snd]. split; [|by rewrite length_show].
      by eapply registries_ok_same. }
  destruct (customers app !! strip o_customer_id) as [cust|] eqn:Hcid.
  2:{ unfold create_order. rewrite Hqty. unfold g_bind, read_app.
      cbn [fst snd]. rewrite Hcid. eexists. split; [done|].
      cbn [fst snd]. split; [|by rewrite length_show].
      by eapply registries_ok_same. }
  destruct (products app !! Some (strip o_sku)) as [prod|] eqn:Hsku.
  2:{ unfold create_order. rewrite Hqty. unfold g_bind, read_app.
      cbn [fst snd]. rewrite Hcid, Hsku. eexists. split; [done|].
      cbn [fst snd]. split; [|by rewrite length_show].
      by eapply registries_ok_same. }
  pose proof Hok as (Hcs & Hps & _). cbn [fst snd] in Hcs, Hps.
  destruct (Hcs _ _ Hcid) as (c & Hc & _).
  destruct (Hps _ _ Hsku) as (p & Hp & _).
  rewrite (create_order_run _ _ _ _ _ _ _ _ _ _ Hqty Hcid Hsku Hc Hp).
  cbv zeta.
  pose proof (effect_OrderItem_new prod qty w) as Heff1.
  destruct (qty <=? 0)%Z.
  { eexists. split; [done|]. cbn [fst snd]. split; [|by rewrite length_show].
    eapply registries_ok_same;
      [..|by eapply registries_ok_evolves, effect_evolves]; done. }
  rewrite OrderItem_new_run in Heff1 |- *. cbn [snd] in Heff1 |- *.
  pose proof (fresh_heap_None w) as Hfresh.
  set (item := fresh (dom (heap w))) in *.
  set (w1 := with_heap _ w) in *.
  assert (cust ≠ item) as Hci by (intros ->; congruence).
  assert (heap (snd (utcnow w1)) !! cust = Some (CustomerObj c)) as Hc1.
  { cbn [snd utcnow heap w1 with_heap]. by rewrite lookup_insert_ne. }
  pose proof (effect_Order_new cust (Some [item])
                (Some (clock w (clock_reads w))) None (snd (utcnow w1)))
    as Heff3.
  pose proof (effect_evolves _ _
                (effect_seq _ _ _ Heff1
                   (effect_seq _ _ _ (effect_utcnow w1) Heff3))) as Hev.
  rewrite (Order_new_on_customer _ _ _ _ _ _ Hc1) in Hev |- *.
  cbn [snd] in Hev |- *.
  pose proof (fresh_heap_None w1) as Hfresh1.
  set (order := fresh (dom (heap w1))) in *.
  assert (fresh (dom (heap (snd (utcnow w1)))) = order) as Horder by done.
  rewrite Horder in Hev |- *.
  assert (cust ≠ order) as Hco.
  { intros ->. cbn [snd utcnow heap] in Hc1. congruence. }
  set (w3 := with_heap (<[cust := _]> _) _) in *.
  assert (registries_ok (register_order (or_generated None w) order app, w3))
    as Hok3.
  { eapply (registries_ok_order _ _ _ _
              (new_order cust (Some [item]) (Some (clock w (clock_reads w)))
                 None (snd (utcnow w1))));
      [exact (registries_ok_evolves _ _ _ Hok Hev)| |done| |].
    - subst w3. cbn [heap with_heap before_registration].
      rewrite lookup_insert_ne by done. rewrite Horder.
      by rewrite lookup_insert_eq.
    - subst w3. cbn [heap with_heap new_order customer].
      by rewrite lookup_insert_eq.
    - cbn [_orders]. apply elem_of_app. right. by apply list_elem_of_singleton. }
  destruct (float_of_int qty) as [q|]; eexists; (split; [done|]);
    cbn [fst snd]; (split; [|by rewrite length_show]);
    by eapply registries_ok_same.
Qed.

(** *** What the user sees *)

(** X15: [add_customer] never raises and shows one dialog.  The fields
    are stripped and an empty email, phone or city is passed as [None].
    An email that its pattern does not match gives the dialog
    "Validation error" with the message of the setter, and so does a
    phone, the email being checked first; the registry and the list box
    stay as they were.  Otherwise the new customer is filed in
    [customers] under its generated identifier, the line "id | name |
    city" is added to the list box, with "-" for no city, and "Customer
    added" is shown. *)
Theorem add_customer_outcomes (c_name c_email c_phone c_city : str)
    (app : App) (w : World) :
  let name := strip c_name in
  let email := or_none (strip c_email) in
  let phone := or_none (strip c_phone) in
  let city := or_none (strip c_city) in
  let id := or_generated None w in
  (∀ e, email = Some e → ¬ PyMatches EMAIL_RE e →
   ∃ w', add_customer c_name c_email c_phone c_city (app, w) =
           (Ok tt, (show (showerror (str_of "Validation error")
                            (str_of "Invalid email: " ++ e)) app, w')) ∧
         heap w ⊆ heap w') ∧
  (∀ p, acceptable EMAIL_RE email → phone = Some p → ¬ PyMatches PHONE_RE p →
   ∃ w', add_customer c_name c_email c_phone c_city (app, w) =
           (Ok tt, (show (showerror (str_of "Validation error")
                            (str_of "Invalid phone number: " ++ p)) app, w')) ∧
         heap w ⊆ heap w') ∧
  (acceptable EMAIL_RE email → acceptable PHONE_RE phone →
   ∃ cust w',
     add_customer c_name c_email c_phone c_city (app, w) =
       (Ok tt,
        (show (showinfo (str_of "OK") (str_of "Customer added"))
           (insert_customer_line
              (id ++ str_of " | " ++ name ++ str_of " | " ++ or_hyphen city)
              (register_customer id cust app)), w')) ∧
     heap w !! cust = None ∧
     heap w' = <[cust := CustomerObj
                   {| person := {| _name := name; _email := email;
                                   _phone := phone |};
                      Models.city := city; customer_id := id;
                      _orders := [] |}]> (heap w)).
Proof.
  intros name email phone city id.
  pose proof (Customer_new_cases name email phone city None w) as Hcases.
  split_and!.
  - intros e He Hno. rewrite add_customer_run. fold name email phone city.
    pose proof (or_none_Some _ _ He) as Hne.
    destruct Hcases as [(e' & w' & He' & _ & _ & -> & Hsub)|
                        [(p & w' & Hacc & _)|(Hacc & _)]].
    + rewrite He in He'. injection He' as <-. by exists w'.
    + rewrite He in Hacc. destruct (Hno (acceptable_Some _ _ Hne Hacc)).
    + rewrite He in Hacc. destruct (Hno (acceptable_Some _ _ Hne Hacc)).
  - intros p Hemail Hp Hno. rewrite add_customer_run.
    fold name email phone city.
    pose proof (or_none_Some _ _ Hp) as Hne.
    destruct Hcases as [(e' & w' & He' & Hne' & Hno' & _)|
                        [(p' & w' & _ & Hp' & _ & _ & -> & Hsub)|(_ & Hacc & _)]].
    + rewrite He' in Hemail. destruct (Hno' (acceptable_Some _ _ Hne' Hemail)).
    + rewrite Hp in Hp'. injection Hp' as <-. by exists w'.
    + rewrite Hp in Hacc. destruct (Hno (acceptable_Some _ _ Hne Hacc)).
  - intros Hemail Hphone. rewrite add_customer_run.
    fold name email phone city.
    destruct Hcases as [(e' & w' & He' & Hne' & Hno' & _)|
                        [(p' & w' & _ & Hp' & Hne' & Hno' & _)|
                         (_ & _ & w' & -> & Hheap)]].
    + rewrite He' in Hemail. destruct (Hno' (acceptable_Some _ _ Hne' Hemail)).
    + rewrite Hp' in Hphone. destruct (Hno' (acceptable_Some _ _ Hne' Hphone)).
    + exists (fresh (dom (heap w))), w'. rewrite Hheap, lookup_insert_eq.
      cbn [customer_id person _name Models.city].
      subst email phone. rewrite !supplied_or_none.
      split_and!; [done|apply fresh_heap_None|done].
Qed.

(** X16: [add_product] never raises and shows one dialog.  A price field
    that [float] does not read gives "Invalid price" and nothing else
    happens; a price below zero gives "Validation error" with the message
    of the model and the registry and the list box stay as they were;
    any other price, a NaN among them, files the new product in
    [products] under its generated [sku], adds the line "sku | name |
    price" and shows "Product added". *)
Theorem add_product_outcomes (p_name p_price : str) (app : App) (w : World) :
  let name := strip p_name in
  let id := or_generated None w in
  (float_of_str (strip p_price) = None →
   add_product p_name p_price (app, w) =
     (Ok tt, (show (showerror (str_of "Error") (str_of "Invalid price")) app, w))) ∧
  (∀ price, float_of_str (strip p_price) = Some price →
   (SFltb price (S754_zero false) = true →
    ∃ w', add_product p_name p_price (app, w) =
            (Ok tt, (show (showerror (str_of "Validation error")
                             (str_of "Price cannot be negative")) app, w')) ∧
          heap w ⊆ heap w') ∧
   (SFltb price (S754_zero false) = false →
    ∃ prod w',
      add_product p_name p_price (app, w) =
        (Ok tt,
         (show (showinfo (str_of "OK") (str_of "Product added"))
            (insert_product_line
               (id ++ str_of " | " ++ name ++ str_of " | " ++ format_2f price)
               (register_product (Some id) prod app)), w')) ∧
      heap w !! prod = None ∧
      heap w' = <[prod := ProductObj {| Models.name := name;
                                        Models.price := price;
                                        sku := Some id |}]> (heap w))).
Proof.
  intros name id. split.
  - intros Hnone. rewrite add_product_run. by rewrite Hnone.
  - intros price Hprice. split; intros Hsign.
    + eexists. rewrite add_product_run, Hprice, Hsign. split; [done|].
      rewrite Product_new_run, Hsign. cbn [snd heap with_heap].
      apply insert_subseteq, fresh_heap_None.
    + exists (fresh (dom (heap w))). eexists.
      rewrite add_product_run, Hprice, Hsign.
      split_and!; [done|apply fresh_heap_None|].
      by rewrite Product_new_run, Hsign.
Qed.

(** X17: what [create_order] refuses, each time with one dialog, the
    registries and list boxes staying as they were.  The quantity is read
    first: a field that [int] does not read gives "Invalid quantity"
    whatever the other fields hold.  Then an unknown customer identifier
    gives "Customer not found", then an unknown SKU "Product not found".
    A quantity of zero or less gives "Validation error" with the message
    of the model. *)
Theorem create_order_refusals (o_customer_id o_sku o_qty : str) (app : App)
    (w : World) :
  let cid := strip o_customer_id in
  let sku := strip o_sku in
  (quantity_of (strip o_qty) = None →
   create_order o_customer_id o_sku o_qty (app, w) =
     (Ok tt, (show (showerror (str_of "Error") (str_of "Invalid quantity"))
                app, w))) ∧
  (∀ qty, quantity_of (strip o_qty) = Some qty →
   customers app !! cid = None →
   create_order o_customer_id o_sku o_qty (app, w) =
     (Ok tt, (show (showerror (str_of "Error") (str_of "Customer not found"))
                app, w))) ∧
  (∀ qty cust, quantity_of (strip o_qty) = Some qty →
   customers app !! cid = Some cust →
   products app !! Some sku = None →
   create_order o_customer_id o_sku o_qty (app, w) =
     (Ok tt, (show (showerror (str_of "Error") (str_of "Product not found"))
                app, w))) ∧
  (∀ qty cust prod, quantity_of (strip o_qty) = Some qty →
   customers app !! cid = Some cust →
   products app !! Some sku = Some prod →
   (qty ≤ 0)%Z →
   ∃ w', create_order o_customer_id o_sku o_qty (app, w) =
           (Ok tt, (show (showerror (str_of "Validation error")
                            (str_of "Quantity must be > 0")) app, w')) ∧
         heap w ⊆ heap w').
Proof.
  intros cid sku. split_and!.
  - intros Hqty. unfold create_order. by rewrite Hqty.
  - intros qty Hqty Hcid. unfold create_order. rewrite Hqty.
    unfold g_bind, read_app. cbn [fst snd]. fold cid. by rewrite Hcid.
  - intros qty cust Hqty Hcid Hsku. unfold create_order. rewrite Hqty.
    unfold g_bind, read_app. cbn [fst snd]. fold cid sku.
    by rewrite Hcid, Hsku.
  - intros qty cust prod Hqty Hcid Hsku Hle%Z.leb_le.
    unfold create_order. rewrite Hqty.
    unfold g_bind at 1. unfold read_app at 1. cbn [fst snd]. fold cid sku.
    rewrite Hcid, Hsku.
    unfold try_catch, g_bind, lift. cbn [fst snd].
    rewrite OrderItem_new_run, Hle. eexists. split; [done|].
    cbn [heap with_heap]. apply insert_subseteq, fresh_heap_None.
Qed.

(** X18: [create_order] for a registered customer and product and a
    quantity above zero creates an item of the product and an order of
    the customer holding that item, stamps the order with one reading of
    the clock, appends it to the orders of the customer and files it in
    [orders] under its generated identifier; nothing else changes in the
    heap.  When the quantity converts to a float the line "id | name |
    total" is added and "Order created" is shown; when it is too large,
    the total raises [OverflowError], which is shown as "Error": the order
    stays filed and with the customer, but no line is added. *)
Theorem create_order_creates (o_customer_id o_sku o_qty : str) (app : App)
    (w : World) (qty : Z) (cust prod : loc) (c : Customer) (p : Product) :
  quantity_of (strip o_qty) = Some qty →
  (0 < qty)%Z →
  customers app !! strip o_customer_id = Some cust →
  products app !! Some (strip o_sku) = Some prod →
  heap w !! cust = Some (CustomerObj c) →
  heap w !! prod = Some (ProductObj p) →
  let id := or_generated None w in
  ∃ item order w',
    heap w !! item = None ∧ heap w !! order = None ∧ item ≠ order ∧
    heap w' =
      <[cust := CustomerObj {| person := person c; city := city c;
                               customer_id := customer_id c;
                               _orders := _orders c ++ [order] |}]>
        (<[order := OrderObj {| order_id := id; customer := cust;
                                _items := [item];
                                created_at := clock w (clock_reads w) |}]>
           (<[item := OrderItemObj {| product := prod; quantity := qty |}]>
              (heap w))) ∧
    clock_reads w' = S (clock_reads w) ∧
    (∀ q, float_of_int qty = Some q →
     create_order o_customer_id o_sku o_qty (app, w) =
       (Ok tt,
        (show (showinfo (str_of "OK") (str_of "Order created"))
           (insert_order_line
              (id ++ str_of " | " ++ _name (person c) ++ str_of " | " ++
               format_2f (SFadd prec emax (S754_zero false)
                            (SFmul prec emax (price p) q)))
              (register_order id order app)), w'))) ∧
    (float_of_int qty = None →
     create_order o_customer_id o_sku o_qty (app, w) =
       (Ok tt,
        (show (showerror (str_of "Error") (exn_text OverflowError))
           (register_order id order app), w'))).
Proof.
  intros Hqty Hpos Hcid Hsku Hc Hp id.
  assert ((qty <=? 0)%Z = false) as Hpos' by lia.
  pose proof (fresh_heap_None w) as Hfresh.
  set (item := fresh (dom (heap w))) in *.
  set (w1 := with_heap (<[item := OrderItemObj {| product := prod;
                                                  quantity := qty |}]>
                          (heap w)) w).
  assert (snd (OrderItem_new prod qty w) = w1) as Hw1
    by by rewrite OrderItem_new_run.
  pose proof (fresh_heap_None w1) as Hfresh1.
  set (order := fresh (dom (heap w1))) in *.
  assert (cust ≠ item) as Hci by (intros ->; congruence).
  assert (heap (snd (utcnow w1)) !! cust = Some (CustomerObj c)) as Hc1.
  { cbn [snd utcnow heap w1 with_heap]. by rewrite lookup_insert_ne. }
  exists item, order,
    (snd (Order_new Customer_add_order cust (Some [item])
            (Some (clock w (clock_reads w))) None (snd (utcnow w1)))).
  rewrite (create_order_run _ _ _ _ _ _ _ _ _ _ Hqty Hcid Hsku Hc Hp).
  cbv zeta. rewrite Hpos', Hw1. fold item order.
  rewrite (Order_new_on_customer _ _ _ _ _ _ Hc1). cbn [snd].
  split_and!; [done| | |done|done| |].
  - cbn [heap w1 with_heap] in Hfresh1.
    by apply lookup_insert_None in Hfresh1 as [? _].
  - intros Heq. rewrite <- Heq in Hfresh1. cbn [heap w1 with_heap] in Hfresh1.
    by rewrite lookup_insert_eq in Hfresh1.
  - intros q ->. done.
  - intros ->. done.
Qed.

(** X19: whatever buttons are pressed with whatever field contents,
    no handler lets an exception out, each press shows exactly one
    dialog, and the registries stay consistent with the objects: an entry
    of [customers] refers to a customer with that identifier, an entry of
    [products] to a product with that [sku] and a price that is not
    negative, and an entry of [orders] to an order with that identifier
    that is in the list of orders of its customer. *)
Theorem registries_stay_consistent (events : list event) (s : App * World) :
  registries_ok s →
  ∃ s', handle_all events s = (Ok tt, s') ∧ registries_ok s' ∧
        length (dialogs (fst s')) = length (dialogs (fst s)) + length events.
Proof.
  revert s. induction events as [|e events IH]; intros s Hok.
  - exists s. simpl. split_and!; [done..|lia].
  - assert (∃ s1, handle e s = (Ok tt, s1) ∧ registries_ok s1 ∧
                  length (dialogs (fst s1)) = S (length (dialogs (fst s))))
      as (s1 & Hrun & Hok1 & Hlen1).
    { destruct s as [app w], e; cbn [handle fst].
      - by apply add_customer_step.
      - by apply add_product_step.
      - by apply create_order_step. }
    destruct (IH s1 Hok1) as (s' & Hrun' & Hok' & Hlen').
    exists s'. simpl. rewrite Hrun. split_and!; [done..|]. lia.
Qed.

End handlers.

(** *** The sample session *)

Example sample_session_dialogs :
  dialogs (fst (snd (handle_all (U := ascii_only) (B := plain_sum)
                       (T := sample_toolkit) sample_session
                       (empty_app, empty_world)))) =
    [showinfo (str_of "OK") (str_of "Customer added");
     showerror (str_of "Validation error") (str_of "Invalid email: not-an-email");
     showinfo (str_of "OK") (str_of "Product added");
     showerror (str_of "Error") (str_of "Invalid price");
     showinfo (str_of "OK") (str_of "Order created")].
Proof. vm_compute. reflexivity. Qed.

Example sample_session_lines :
  orders_list (fst (snd (handle_all (U := ascii_only) (B := plain_sum)
                           (T := sample_toolkit) sample_session
                           (empty_app, empty_world)))) =
    [sample_id ++ str_of " | Ann | ?"].
Proof. vm_compute. reflexivity. Qed.

Lemma registries_ok_shop : registries_ok (shop_app, shop_world).
Proof.
  split_and!; cbn [fst snd shop_app customers products orders].
  - intros id l [<- <-]%lookup_singleton_Some. by exists ann.
  - intros k l [<- <-]%lookup_singleton_Some. by exists widget.
  - intros id l [<- <-]%lookup_singleton_Some. exists order_4, ann.
    split_and!; [done..|]. apply list_elem_of_singleton. done.
Qed.

Lemma add_customer_outcomes_witness :
  (∃ w', add_customer (U := ascii_only) (T := sample_toolkit) (str_of "Bob")
           (str_of "not-an-email") [] [] (empty_app, empty_world) =
           (Ok tt, (show (showerror (str_of "Validation error")
                            (str_of "Invalid email: " ++ str_of "not-an-email"))
                      empty_app, w')) ∧
         heap empty_world ⊆ heap w') ∧
  (∃ cust w',
     add_customer (U := ascii_only) (T := sample_toolkit) (str_of " Ann ")
       [] [] [] (empty_app, empty_world) =
       (Ok tt,
        (show (showinfo (str_of "OK") (str_of "Customer added"))
           (insert_customer_line
              (sample_id ++ str_of " | " ++ str_of "Ann" ++ str_of " | " ++
               str_of "-")
              (register_customer sample_id cust empty_app)), w')) ∧
     heap empty_world !! cust = None ∧
     heap w' = <[cust := CustomerObj
                   {| person := {| _name := str_of "Ann"; _email := None;
                                   _phone := None |};
                      city := None; customer_id := sample_id;
                      _orders := [] |}]> (heap empty_world)).
Proof.
  split.
  - apply (proj1 (add_customer_outcomes (U := ascii_only) (T := sample_toolkit)
                    (str_of "Bob") (str_of "not-an-email") [] []
                    empty_app empty_world) (str_of "not-an-email")).
    + vm_compute. reflexivity.
    + apply (RegexFacts.re_match_false (U := ascii_only)). vm_compute.
      reflexivity.
  - apply (proj2 (proj2 (add_customer_outcomes (U := ascii_only)
                           (T := sample_toolkit) (str_of " Ann ") [] [] []
                           empty_app empty_world))).
    + exact I.
    + exact I.
Defined.

Lemma add_product_outcomes_witness :
  add_product (T := sample_toolkit) (str_of "Gadget") (str_of "ten")
    (empty_app, empty_world) =
    (Ok tt, (show (showerror (str_of "Error") (str_of "Invalid price"))
               empty_app, empty_world)) ∧
  (∃ prod w',
     add_product (T := sample_toolkit) (str_of "Widget") (str_of " 10")
       (empty_app, empty_world) =
       (Ok tt,
        (show (showinfo (str_of "OK") (str_of "Product added"))
           (insert_product_line
              (sample_id ++ str_of " | " ++ str_of "Widget" ++ str_of " | " ++
               str_of "?")
              (register_product (Some sample_id) prod empty_app)), w')) ∧
     heap empty_world !! prod = None ∧
     heap w' = <[prod := ProductObj {| name := str_of "Widget"; price := ten;
                                       sku := Some sample_id |}]>
                 (heap empty_world)).
Proof.
  split.
  - apply (proj1 (add_product_outcomes (T := sample_toolkit) (str_of "Gadget")
                    (str_of "ten") empty_app empty_world)).
    vm_compute. reflexivity.
  - apply (proj2 (proj2 (add_product_outcomes (T := sample_toolkit)
                           (str_of "Widget") (str_of " 10") empty_app
                           empty_world) ten eq_refl)).
    vm_compute. reflexivity.
Defined.

Lemma create_order_refusals_witness :
  create_order (B := plain_sum) (T := sample_toolkit) (str_of "c1")
    (str_of "p2") (str_of "two") (shop_app, shop_world) =
    (Ok tt, (show (showerror (str_of "Error") (str_of "Invalid quantity"))
               shop_app, shop_world)) ∧
  create_order (B := plain_sum) (T := sample_toolkit) (str_of "c9")
    (str_of "p2") (str_of "2") (shop_app, shop_world) =
    (Ok tt, (show (showerror (str_of "Error") (str_of "Customer not found"))
               shop_app, shop_world)) ∧
  create_order (B := plain_sum) (T := sample_toolkit) (str_of "c1")
    (str_of "p9") (str_of "2") (shop_app, shop_world) =
    (Ok tt, (show (showerror (str_of "Error") (str_of "Product not found"))
               shop_app, shop_world)) ∧
  (∃ w', create_order (B := plain_sum) (T := sample_toolkit) (str_of "c1")
           (str_of "p2") (str_of "0") (shop_app, shop_world) =
           (Ok tt, (show (showerror (str_of "Validation error")
                            (str_of "Quantity must be > 0")) shop_app, w')) ∧
         heap shop_world ⊆ heap w').
Proof.
  split_and!.
  - apply (proj1 (create_order_refusals (B := plain_sum) (T := sample_toolkit)
                    (str_of "c1") (str_of "p2") (str_of "two")
                    shop_app shop_world)).
    vm_compute. reflexivity.
  - apply (proj1 (proj2 (create_order_refusals (B := plain_sum)
                           (T := sample_toolkit) (str_of "c9") (str_of "p2")
                           (str_of "2") shop_app shop_world)) 2%Z).
    + vm_compute. reflexivity.
    + vm_compute. reflexivity.
  - apply (proj1 (proj2 (proj2 (create_order_refusals (B := plain_sum)
                                  (T := sample_toolkit) (str_of "c1")
                                  (str_of "p9") (str_of "2")
                                  shop_app shop_world))) 2%Z 1%positive).
    + vm_compute. reflexivity.
    + vm_compute. reflexivity.
    + vm_compute. reflexivity.
  - apply (proj2 (proj2 (proj2 (create_order_refusals (B := plain_sum)
                                  (T := sample_toolkit) (str_of "c1")
                                  (str_of "p2") (str_of "0")
                                  shop_app shop_world))) 0%Z 1%positive
             2%positive).
    + vm_compute. reflexivity.
    + vm_compute. reflexivity.
    + vm_compute. reflexivity.
    + lia.
Defined.

Lemma create_order_creates_witness :
  ∃ item order w',
    heap shop_world !! item = None ∧ heap shop_world !! order = None ∧
    item ≠ order ∧
    heap w' =
      <[1%positive := CustomerObj
          {| person := person ann; city := city ann;
             customer_id := customer_id ann;
             _orders := _orders ann ++ [order] |}]>
        (<[order := OrderObj {| order_id := sample_id; customer := 1%positive;
                                _items := [item]; created_at := 0%Z |}]>
           (<[item := OrderItemObj {| product := 2%positive;
                                      quantity := 2%Z |}]>
              (heap shop_world))) ∧
    clock_reads w' = 1 ∧
    (∀ q, float_of_int 2 = Some q →
     create_order (B := plain_sum) (T := sample_toolkit) (str_of "c1")
       (str_of "p2") (str_of "2") (shop_app, shop_world) =
       (Ok tt,
        (show (showinfo (str_of "OK") (str_of "Order created"))
           (insert_order_line
              (sample_id ++ str_of " | " ++ _name (person ann) ++
               str_of " | " ++
               format_2f (Toolkit := sample_toolkit)
                 (SFadd prec emax (S754_zero false)
                    (SFmul prec emax (price widget) q)))
              (register_order sample_id order shop_app)), w'))) ∧
    (float_of_int 2 = None →
     create_order (B := plain_sum) (T := sample_toolkit) (str_of "c1")
       (str_of "p2") (str_of "2") (shop_app, shop_world) =
       (Ok tt,
        (show (showerror (str_of "Error")
                 (exn_text (Toolkit := sample_toolkit) OverflowError))
           (register_order sample_id order shop_app), w'))).
Proof.
  apply (create_order_creates (B := plain_sum) (T := sample_toolkit)
           (str_of "c1") (str_of "p2") (str_of "2") shop_app shop_world
           2%Z 1%positive 2%positive ann widget).
  - vm_compute. reflexivity.
  - lia.
  - vm_compute. reflexivity.
  - vm_compute. reflexivity.
  - vm_compute. reflexivity.
  - vm_compute. reflexivity.
Defined.

Lemma registries_stay_consistent_witness :
  ∃ s', handle_all (U := ascii_only) (B := plain_sum) (T := sample_toolkit)
          sample_session (shop_app, shop_world) = (Ok tt, s') ∧
        registries_ok s' ∧
        length (dialogs (fst s')) =
          length (dialogs (fst (shop_app, shop_world))) + length sample_session.
Proof.
  apply (registries_stay_consistent (U := ascii_only) (B := plain_sum)
           (T := sample_toolkit) sample_session (shop_app, shop_world)).
  apply registries_ok_shop.
Defined.

End GuiFacts.
